(** * Maze Runner: a shallow embedding of [maze_runner.py]

    The simulation core of the game: the randomized depth-first maze
    generator, the breadth-first path finder, the pixel/grid conversions,
    the corner-sampling collision test and the per-tick state machine of
    [MazeRunner.update], together with the mouse handlers of [main_loop]
    that drive the menu.

    Conventions of the embedding.
    - Python integers are [Z]; [//] with a positive divisor is [Z.div].
      Python floats are the kernel's primitive binary64 floats; they occur
      in the adversary's step only.
    - A grid is a list of rows, each a list of integers (0 wall, 1 free),
      indexed as [grid[y][x]].  Indexing follows Python: an index outside
      [-len, len) raises [IndexError], which the model renders as [None].
    - The dictionary [came] of [bfs_path] is a [gmap].
    - [random] is an oracle: an infinite sequence of naturals from which
      [randbelow n] takes the next element modulo [n].  Every sequence of
      results the generator can deliver arises from some oracle.
    - [while] loops run on fuel; the fuel the model passes is shown to be
      enough, so [None] is never caused by the fuel.
    - Sound, drawing, the frame clock and [pygame.time.get_ticks] are left
      out, and with them the attributes of [MazeRunner] that nothing in the
      simulation reads ([last_caught_time], [path_to_player], [pause],
      [show_debug], [touch_controls], [level_transition_timer],
      [button_clicked], [target_cell]), as is the unused local
      [carve_chance] of [generate_maze].  *)

From stdpp Require Import functions gmap list.
From Stdlib Require Import ZArith Lia.
From Stdlib Require Import PrimFloat.
From Stdlib Require SpecFloat FloatOps.

Local Open Scope Z_scope.

(** ** Module constants *)

Definition SCREEN_WIDTH : Z := 800.
Definition SCREEN_HEIGHT : Z := 640.
Definition TILE : Z := 32.
Definition GRID_COLS : Z := 22.
Definition GRID_ROWS : Z := 18.
Definition MAZE_PIXEL_WIDTH : Z := GRID_COLS * TILE.
Definition OFFSET_X : Z := (SCREEN_WIDTH - MAZE_PIXEL_WIDTH) / 2.
Definition OFFSET_Y : Z := 80.
Definition PLAYER_SPEED : Z := 2.
Definition ENEMY_SPEED : Z := 2.
Definition PLAYER_SIZE : Z := TILE - 6.
Definition ENEMY_SIZE : Z := TILE - 6.
Definition MAX_LEVEL : Z := 100.
Definition START_LIVES : Z := 3.

(** ** Python lists indexed by integers *)

Section PyList.
Context {A : Type}.

(** Normalised position of index [i] in [l]; [None] is [IndexError]. *)
Definition py_index (l : list A) (i : Z) : option nat :=
  let n := Z.of_nat (length l) in
  if bool_decide (0 ≤ i < n) then Some (Z.to_nat i)
  else if bool_decide (- n ≤ i < 0) then Some (Z.to_nat (i + n))
  else None.

(** [l[i]] *)
Definition py_get (l : list A) (i : Z) : option A :=
  k ← py_index l i; l !! k.

(** [l[i] = v] *)
Definition py_set (l : list A) (i : Z) (v : A) : option (list A) :=
  k ← py_index l i; Some (<[k := v]> l).
End PyList.

(** ** Grids and cells *)

Abbreviation Cell := (Z * Z)%type.
Abbreviation Grid := (list (list Z)).

(** [grid[y][x]] *)
Definition grid_get (g : Grid) (x y : Z) : option Z :=
  row ← py_get g y; py_get row x.

(** [grid[y][x] = v] *)
Definition grid_set (g : Grid) (x y : Z) (v : Z) : option Grid :=
  row ← py_get g y;
  row' ← py_set row x v;
  py_set g y row'.

(** A grid of the game's fixed size: [GRID_ROWS] rows of [GRID_COLS] cells. *)
Definition well_formed (g : Grid) : Prop :=
  length g = Z.to_nat GRID_ROWS ∧
  Forall (λ row, length row = Z.to_nat GRID_COLS) g.

Definition in_grid (c : Cell) : Prop :=
  0 ≤ c.1 < GRID_COLS ∧ 0 ≤ c.2 < GRID_ROWS.

Definition spawn_cell : Cell := (1, 1).
Definition exit_cell : Cell := (GRID_COLS - 2, GRID_ROWS - 2).

(** ** The random source *)

Definition Rng : Type := nat → nat.

(** [random._randbelow(n)]: the next element of the oracle, modulo [n]. *)
Definition randbelow (n : nat) (r : Rng) : nat * Rng :=
  ((r 0%nat) `mod` n, λ i, r (S i))%nat.

(** [random.randint(a, b)] *)
Definition randint (a b : Z) (r : Rng) : Z * Rng :=
  let '(k, r') := randbelow (Z.to_nat (b - a + 1)) r in (a + Z.of_nat k, r').

(** [random.choice(l)]: [l[randbelow(len(l))]]. *)
Definition choice {A} (l : list A) (r : Rng) : option (A * Rng) :=
  let '(k, r') := randbelow (length l) r in
  x ← l !! k; Some (x, r').

(** [x[i], x[j] = x[j], x[i]] *)
Definition swap {A} (l : list A) (i j : nat) : list A :=
  match l !! i, l !! j with
  | Some a, Some b => <[j := a]> (<[i := b]> l)
  | _, _ => l
  end.

(** [random.shuffle(x)]:
    [for i in reversed(range(1, len(x))): j = randbelow(i + 1); swap i j].
    [shuffle_from k] runs the iterations [i = k, k-1, ..., 1]. *)
Fixpoint shuffle_from {A} (i : nat) (l : list A) (r : Rng) : list A * Rng :=
  match i with
  | O => (l, r)
  | S i' =>
      let '(j, r') := randbelow (S i) r in
      shuffle_from i' (swap l i j) r'
  end.

Definition shuffle {A} (l : list A) (r : Rng) : list A * Rng :=
  shuffle_from (Nat.pred (length l)) l r.

(** ** generate_maze *)

(** The nested helper [neighbors(cx, cy)], with [w] and [h] from the
    enclosing scope. *)
Definition neighbors (cx cy : Z) (r : Rng) : list Cell * Rng :=
  let w := GRID_COLS in
  let h := GRID_ROWS in
  let n := [] in
  let n := if bool_decide (cx - 2 >= 1) then n ++ [(cx - 2, cy)] else n in
  let n := if bool_decide (cx + 2 ≤ w - 2) then n ++ [(cx + 2, cy)] else n in
  let n := if bool_decide (cy - 2 >= 1) then n ++ [(cx, cy - 2)] else n in
  let n := if bool_decide (cy + 2 ≤ h - 2) then n ++ [(cx, cy + 2)] else n in
  shuffle n r.

(** [[p for p in l if grid[p[1]][p[0]] == 0]] *)
Fixpoint unvisited (g : Grid) (l : list Cell) : option (list Cell) :=
  match l with
  | [] => Some []
  | p :: l' =>
      v ← grid_get g p.1 p.2;
      rest ← unvisited g l';
      Some (if bool_decide (v = 0) then p :: rest else rest)
  end.

(** The carving loop [while stack: ...].  The Python list [stack] grows at
    its end; here the top of the stack is the head of the list. *)
Fixpoint carve (fuel : nat) (g : Grid) (stack : list Cell) (r : Rng)
  : option (Grid * Rng) :=
  match fuel with
  | O => None
  | S fuel' =>
      match stack with
      | [] => Some (g, r)
      | (x, y) :: below =>
          let '(n, r1) := neighbors x y r in
          nb ← unvisited g n;
          match nb with
          | [] => carve fuel' g below r1
          | _ :: _ =>
              '((nx, ny), r2) ← choice nb r1;
              let wall_x := (x + nx) / 2 in
              let wall_y := (y + ny) / 2 in
              g1 ← grid_set g wall_x wall_y 1;
              g2 ← grid_set g1 nx ny 1;
              carve fuel' g2 ((nx, ny) :: stack) r2
          end
      end
  end.

(** [extra_block_chance = min(35, (level - 1) // 3 + 3)] *)
Definition extra_block_chance (level : Z) : Z :=
  Z.min 35 ((level - 1) / 3 + 3).

(** The test of the post-process on one free cell: the cell is turned into a
    wall when the draw [r] of [randint(1, 100)] satisfies this. *)
Definition reblocks (level : Z) (r : Z) : bool :=
  bool_decide (r ≤ extra_block_chance level).

(** One iteration of the inner loop of the post-process, at cell [(rx, ry)]. *)
Definition block_cell (level : Z) (g : Grid) (c : Cell) (r : Rng)
  : option (Grid * Rng) :=
  let w := GRID_COLS in
  let h := GRID_ROWS in
  if bool_decide (c ∈ [(1, 1); (w - 2, h - 2)]) then Some (g, r)
  else
    v ← grid_get g c.1 c.2;
    if bool_decide (v = 1) then
      let '(d, r') := randint 1 100 r in
      if reblocks level d then
        g' ← grid_set g c.1 c.2 0; Some (g', r')
      else Some (g, r')
    else Some (g, r).

Fixpoint block_cells (level : Z) (g : Grid) (cs : list Cell) (r : Rng)
  : option (Grid * Rng) :=
  match cs with
  | [] => Some (g, r)
  | c :: cs' =>
      '(g', r') ← block_cell level g c r;
      block_cells level g' cs' r'
  end.

(** [[(rx, ry) for ry in range(1, h-1) for rx in range(1, w-1)]], the order
    in which the post-process visits the interior. *)
Definition interior_cells : list Cell :=
  ry ← seqZ 1 (GRID_ROWS - 2);
  rx ← seqZ 1 (GRID_COLS - 2);
  [(rx, ry)].

(** [for x in range(w): grid[0][x] = 0; grid[h-1][x] = 0] *)
Fixpoint stamp_rows (g : Grid) (xs : list Z) : option Grid :=
  match xs with
  | [] => Some g
  | x :: xs' =>
      g1 ← grid_set g x 0 0;
      g2 ← grid_set g1 x (GRID_ROWS - 1) 0;
      stamp_rows g2 xs'
  end.

(** [for y in range(h): grid[y][0] = 0; grid[y][w-1] = 0] *)
Fixpoint stamp_cols (g : Grid) (ys : list Z) : option Grid :=
  match ys with
  | [] => Some g
  | y :: ys' =>
      g1 ← grid_set g 0 y 0;
      g2 ← grid_set g1 (GRID_COLS - 1) y 0;
      stamp_cols g2 ys'
  end.

(** [[[0 for _ in range(w)] for _ in range(h)]] *)
Definition all_walls : Grid :=
  replicate (Z.to_nat GRID_ROWS) (replicate (Z.to_nat GRID_COLS) 0).

(** Fuel of the carving loop: twice the number of cells. *)
Definition carve_fuel : nat := Z.to_nat (2 * GRID_COLS * GRID_ROWS).

Definition generate_maze (level : Z) (r : Rng) : option (Grid * Rng) :=
  let w := GRID_COLS in
  let h := GRID_ROWS in
  let grid := all_walls in
  let start_x := 1 in
  let start_y := 1 in
  grid ← grid_set grid start_x start_y 1;
  let stack := [(start_x, start_y)] in
  '(grid, r) ← carve carve_fuel grid stack r;
  '(grid, r) ← block_cells level grid interior_cells r;
  grid ← stamp_rows grid (seqZ 0 w);
  grid ← stamp_cols grid (seqZ 0 h);
  Some (grid, r).

(** A few oracles to run the generator on. *)
Definition rng_const (k : nat) : Rng := λ _, k.
Definition rng_mix (seed : Z) : Rng :=
  λ i, Z.to_nat (((seed + Z.of_nat i) * 7919 + Z.of_nat i * Z.of_nat i * 31) `mod` 1009).

(** ** Pixel and grid coordinates *)

(** [grid_to_pixel(gx, gy)]: the pixel centre of a cell. *)
Definition grid_to_pixel (gx gy : Z) : Z * Z :=
  let px := OFFSET_X + gx * TILE + TILE / 2 in
  let py := OFFSET_Y + gy * TILE + TILE / 2 in
  (px, py).

(** [pixel_to_grid(px, py)]: the cell of a pixel, clamped to the grid. *)
Definition pixel_to_grid (px py : Z) : Cell :=
  let gx := (px - OFFSET_X) / TILE in
  let gy := (py - OFFSET_Y) / TILE in
  let gx := Z.max 0 (Z.min (GRID_COLS - 1) gx) in
  let gy := Z.max 0 (Z.min (GRID_ROWS - 1) gy) in
  (gx, gy).

(** ** bfs_path *)

Definition dirs : list (Z * Z) := [(1, 0); (-1, 0); (0, 1); (0, -1)].

(** One iteration of [for dx,dy in dirs] for the dequeued cell [cur]: the
    conjunction is evaluated left to right, so the grid is only indexed for
    a neighbour inside the bounds. *)
Definition visit (g : Grid) (cur : Cell) (d : Z * Z)
    (came : gmap Cell (option Cell)) (q : list Cell)
  : option (gmap Cell (option Cell) * list Cell) :=
  let w := GRID_COLS in
  let h := GRID_ROWS in
  let '(cx, cy) := cur in
  let '(dx, dy) := d in
  let nx := cx + dx in
  let ny := cy + dy in
  if bool_decide (0 ≤ nx < w ∧ 0 ≤ ny < h) then
    v ← grid_get g nx ny;
    if bool_decide (v = 1) && bool_decide (came !! (nx, ny) = None) then
      Some (<[(nx, ny) := Some cur]> came, q ++ [(nx, ny)])
    else Some (came, q)
  else Some (came, q).

Fixpoint expand (g : Grid) (cur : Cell) (ds : list (Z * Z))
    (came : gmap Cell (option Cell)) (q : list Cell)
  : option (gmap Cell (option Cell) * list Cell) :=
  match ds with
  | [] => Some (came, q)
  | d :: ds' =>
      '(came', q') ← visit g cur d came q;
      expand g cur ds' came' q'
  end.

(** The search loop [while q: cur = q.popleft(); ...]; it yields the
    dictionary [came] when the queue is empty or the goal is dequeued. *)
Fixpoint bfs_loop (fuel : nat) (g : Grid) (goal : Cell)
    (q : list Cell) (came : gmap Cell (option Cell))
  : option (gmap Cell (option Cell)) :=
  match fuel with
  | O => None
  | S fuel' =>
      match q with
      | [] => Some came
      | cur :: q' =>
          if bool_decide (cur = goal) then Some came
          else
            '(came', q'') ← expand g cur dirs came q';
            bfs_loop fuel' g goal q'' came'
      end
  end.

(** The reconstruction loop [while cur: path.append(cur); cur = came[cur]];
    a missing key is [KeyError]. *)
Fixpoint trace (fuel : nat) (came : gmap Cell (option Cell))
    (cur : option Cell) (path : list Cell) : option (list Cell) :=
  match cur with
  | None => Some path
  | Some c =>
      match fuel with
      | O => None
      | S fuel' =>
          next ← came !! c;
          trace fuel' came next (path ++ [c])
      end
  end.

(** Fuel of the search loop: one dequeue per cell of the grid and for the
    start, and the last test of the queue. *)
Definition bfs_fuel : nat := Z.to_nat (GRID_COLS * GRID_ROWS + 2).

(** [bfs_path(grid, start, goal)].  The outer [option] is [None] when an
    exception is raised; the inner one is Python's [None] or the path. *)
Definition bfs_path (g : Grid) (start goal : Cell)
  : option (option (list Cell)) :=
  if bool_decide (start = goal) then Some (Some [start])
  else
    came ← bfs_loop bfs_fuel g goal [start] {[start := None]};
    if bool_decide (came !! goal = None) then Some None
    else
      path ← trace (size came) came (Some goal) [];
      Some (Some (reverse path)).

(** ** pygame.Rect

    The two operations of [pygame.Rect] the game uses, as pygame documents
    them: a rectangle covers [x ≤ px < x + w] and [y ≤ py < y + h], and two
    rectangles collide when their areas overlap (touching edges do not).
    pygame stores the four fields as C [int]s; the model describes
    rectangles whose fields and sums [x + w], [y + h] fit in 32 bits, as
    those of every position on the 800 by 640 screen do. *)

Record Rect := mkRect { rx : Z; ry : Z; rw : Z; rh : Z }.

Definition collidepoint (r : Rect) (p : Z * Z) : bool :=
  bool_decide (rx r ≤ p.1 < rx r + rw r ∧ ry r ≤ p.2 < ry r + rh r).

Definition colliderect (a b : Rect) : bool :=
  bool_decide (rx a < rx b + rw b ∧ rx b < rx a + rw a ∧
               ry a < ry b + rh b ∧ ry b < ry a + rh a).

(** ** The game object *)

Inductive State := menu | playing | game_over | win.

(** The attributes of [MazeRunner] that the simulation reads.  Positions
    are the top-left pixels of the square footprints.  They hold [int]s:
    the player moves by the [int] steps of its input, and the model stops
    where the adversary's step would store a [float] (see [Outcome]
    below). *)
Record MazeRunner := mkGame {
  level : Z;
  lives : Z;
  state : State;
  grid : Grid;
  player_pos : Z * Z;
  enemy_pos : Z * Z;
  player_cell : Cell;
  enemy_cell : Cell;
}.

Definition set_level (v : Z) (s : MazeRunner) : MazeRunner :=
  mkGame v (lives s) (state s) (grid s) (player_pos s) (enemy_pos s)
         (player_cell s) (enemy_cell s).
Definition set_lives (v : Z) (s : MazeRunner) : MazeRunner :=
  mkGame (level s) v (state s) (grid s) (player_pos s) (enemy_pos s)
         (player_cell s) (enemy_cell s).
Definition set_state (v : State) (s : MazeRunner) : MazeRunner :=
  mkGame (level s) (lives s) v (grid s) (player_pos s) (enemy_pos s)
         (player_cell s) (enemy_cell s).
Definition set_grid (v : Grid) (s : MazeRunner) : MazeRunner :=
  mkGame (level s) (lives s) (state s) v (player_pos s) (enemy_pos s)
         (player_cell s) (enemy_cell s).
Definition set_player_pos (v : Z * Z) (s : MazeRunner) : MazeRunner :=
  mkGame (level s) (lives s) (state s) (grid s) v (enemy_pos s)
         (player_cell s) (enemy_cell s).
Definition set_enemy_pos (v : Z * Z) (s : MazeRunner) : MazeRunner :=
  mkGame (level s) (lives s) (state s) (grid s) (player_pos s) v
         (player_cell s) (enemy_cell s).
Definition set_player_cell (v : Cell) (s : MazeRunner) : MazeRunner :=
  mkGame (level s) (lives s) (state s) (grid s) (player_pos s) (enemy_pos s)
         v (enemy_cell s).
Definition set_enemy_cell (v : Cell) (s : MazeRunner) : MazeRunner :=
  mkGame (level s) (lives s) (state s) (grid s) (player_pos s) (enemy_pos s)
         (player_cell s) v.

(** Where [reset_positions] puts the two actors. *)
Definition player_spawn_pos : Z * Z :=
  let '(px, py) := grid_to_pixel 1 1 in
  (px - PLAYER_SIZE / 2, py - PLAYER_SIZE / 2).
Definition enemy_spawn_pos : Z * Z :=
  let '(ex, ey) := grid_to_pixel (GRID_COLS - 2) (GRID_ROWS - 2) in
  (ex - ENEMY_SIZE / 2, ey - ENEMY_SIZE / 2).

(** [MazeRunner.reset_positions] *)
Definition reset_positions (self : MazeRunner) : MazeRunner :=
  let self := set_player_pos player_spawn_pos self in
  let self := set_enemy_pos enemy_spawn_pos self in
  let self := set_player_cell (1, 1) self in
  set_enemy_cell (GRID_COLS - 2, GRID_ROWS - 2) self.

(** [MazeRunner.update_player_cell] and [MazeRunner.update_enemy_cell] *)
Definition update_player_cell (self : MazeRunner) : MazeRunner :=
  set_player_cell
    (pixel_to_grid ((player_pos self).1 + PLAYER_SIZE / 2)
                   ((player_pos self).2 + PLAYER_SIZE / 2)) self.
Definition update_enemy_cell (self : MazeRunner) : MazeRunner :=
  set_enemy_cell
    (pixel_to_grid ((enemy_pos self).1 + ENEMY_SIZE / 2)
                   ((enemy_pos self).2 + ENEMY_SIZE / 2)) self.

(** [MazeRunner.rects_collide] *)
Definition rects_collide (pos1 : Z * Z) (size1 : Z) (pos2 : Z * Z) (size2 : Z)
  : bool :=
  let r1 := mkRect pos1.1 pos1.2 size1 size1 in
  let r2 := mkRect pos2.1 pos2.2 size2 size2 in
  colliderect r1 r2.

(** The four sampled points of [can_move_to], in the order of the source. *)
Definition corners (px py : Z) : list (Z * Z) :=
  let w := PLAYER_SIZE in
  [(px + 2, py + 2); (px + w - 2, py + 2);
   (px + 2, py + w - 2); (px + w - 2, py + w - 2)].

(** The bounds test inside the loop of [can_move_to]. *)
Definition cell_in_bounds (c : Cell) : bool :=
  bool_decide (0 ≤ c.1 < GRID_COLS ∧ 0 ≤ c.2 < GRID_ROWS).

(** The loop [for cx, cy in corners] of [can_move_to]. *)
Fixpoint corners_free (g : Grid) (cs : list (Z * Z)) : option bool :=
  match cs with
  | [] => Some true
  | (cx, cy) :: cs' =>
      let c := pixel_to_grid cx cy in
      if negb (cell_in_bounds c) then Some false
      else
        v ← grid_get g c.1 c.2;
        if bool_decide (v = 0) then Some false else corners_free g cs'
  end.

(** [MazeRunner.can_move_to] *)
Definition can_move_to (self : MazeRunner) (px py : Z) : option bool :=
  corners_free (grid self) (corners px py).

(** ** Python numbers

    [update] computes the adversary's velocity by true division, so the
    velocity is a [float], and so is the position that [update] proposes
    for the adversary and passes to [can_move_to].  A number is an [int] or
    a [float]; a [float] is an IEEE 754 binary64, the kernel's primitive
    [float].  The operations follow Python: the [int] operand of a mixed
    operation is converted to [float] (OverflowError when it is too large),
    comparisons of an [int] with a [float] are exact, and a list index must
    be an [int] (TypeError otherwise).  [None] is an exception. *)

Inductive Num := PyInt (z : Z) | PyFloat (f : float).

(** [float(z)] for an [int]: the nearest [float], ties to even; [None] is
    OverflowError. *)
Definition float_of_int (z : Z) : option float :=
  match SpecFloat.binary_normalize FloatOps.prec FloatOps.emax z 0 false with
  | SpecFloat.S754_infinity _ => None
  | sf => Some (FloatOps.SF2Prim sf)
  end.

Definition to_float (a : Num) : option float :=
  match a with
  | PyInt z => float_of_int z
  | PyFloat f => Some f
  end.

(** The order of a [float] and an [int], exactly; [None] for a nan. *)
Definition float_cmp_int (f : float) (x : Z) : option comparison :=
  match FloatOps.Prim2SF f with
  | SpecFloat.S754_nan => None
  | SpecFloat.S754_infinity s => Some (if s then Lt else Gt)
  | SpecFloat.S754_zero _ => Some (0 ?= x)
  | SpecFloat.S754_finite s m e =>
      let v := if s then Z.neg m else Z.pos m in
      Some (if 0 <=? e then v * 2 ^ e ?= x else v ?= x * 2 ^ (- e))
  end.

(** [a < b] and [a <= b] *)
Definition num_lt (a b : Num) : bool :=
  match a, b with
  | PyInt x, PyInt y => bool_decide (x < y)
  | PyFloat f, PyFloat g => PrimFloat.ltb f g
  | PyFloat f, PyInt y =>
      match float_cmp_int f y with Some Lt => true | _ => false end
  | PyInt x, PyFloat g =>
      match float_cmp_int g x with Some Gt => true | _ => false end
  end.

Definition num_le (a b : Num) : bool :=
  match a, b with
  | PyInt x, PyInt y => bool_decide (x ≤ y)
  | PyFloat f, PyFloat g => PrimFloat.leb f g
  | PyFloat f, PyInt y =>
      match float_cmp_int f y with Some Lt | Some Eq => true | _ => false end
  | PyInt x, PyFloat g =>
      match float_cmp_int g x with Some Gt | Some Eq => true | _ => false end
  end.

(** [min(a, b)] is [b] when [b < a] and [a] otherwise; [max(a, b)] is [b]
    when [b > a] and [a] otherwise. *)
Definition py_min (a b : Num) : Num := if num_lt b a then b else a.
Definition py_max (a b : Num) : Num := if num_lt a b then b else a.

(** [a + b] and [a - b] *)
Definition num_add (a b : Num) : option Num :=
  match a, b with
  | PyInt x, PyInt y => Some (PyInt (x + y))
  | _, _ => f ← to_float a; g ← to_float b; Some (PyFloat (PrimFloat.add f g))
  end.

Definition num_sub (a b : Num) : option Num :=
  match a, b with
  | PyInt x, PyInt y => Some (PyInt (x - y))
  | _, _ => f ← to_float a; g ← to_float b; Some (PyFloat (PrimFloat.sub f g))
  end.

(** [f // g] for floats, [g] not zero: the floor of the exact quotient.
    CPython computes it from [fmod]; the two agree whenever [g] is a power
    of two, as [TILE] is. *)
Definition float_floordiv (f g : float) : float :=
  match FloatOps.Prim2SF f, FloatOps.Prim2SF g with
  | SpecFloat.S754_finite s1 m1 e1, SpecFloat.S754_finite s2 m2 e2 =>
      let v1 := if s1 then Z.neg m1 else Z.pos m1 in
      let v2 := if s2 then Z.neg m2 else Z.pos m2 in
      let q := if e2 <=? e1 then (v1 * 2 ^ (e1 - e2)) / v2
               else v1 / (v2 * 2 ^ (e2 - e1)) in
      FloatOps.SF2Prim
        (SpecFloat.binary_normalize FloatOps.prec FloatOps.emax q 0 false)
  | SpecFloat.S754_finite s1 _ _, SpecFloat.S754_infinity s2 =>
      if xorb s1 s2 then PrimFloat.opp PrimFloat.one else PrimFloat.zero
  | SpecFloat.S754_zero _, SpecFloat.S754_finite _ _ _
  | SpecFloat.S754_zero _, SpecFloat.S754_infinity _ => PrimFloat.div f g
  | _, _ => PrimFloat.nan
  end.

(** [a // n] for an [int] [n]; [None] is ZeroDivisionError or
    OverflowError. *)
Definition num_floordiv (a : Num) (n : Z) : option Num :=
  if bool_decide (n = 0) then None
  else
    match a with
    | PyInt x => Some (PyInt (x / n))
    | PyFloat f => g ← float_of_int n; Some (PyFloat (float_floordiv f g))
    end.

(** [n / m] for two [int]s: the quotient rounded to the nearest [float],
    ties to even.  The quotient is computed to 64 bits and more, with the
    last bit recording a remainder. *)
Definition int_truediv (n m : Z) : option float :=
  if bool_decide (m = 0) then None
  else if bool_decide (n = 0)
  then Some (if bool_decide (m < 0) then PrimFloat.opp PrimFloat.zero
             else PrimFloat.zero)
  else
    let k := Z.max 0 (64 + Z.log2 (Z.abs m) - Z.log2 (Z.abs n)) in
    let num := Z.abs n * 2 ^ k in
    let q := num / Z.abs m in
    let sticky := if bool_decide (num `mod` Z.abs m = 0) then 0 else 1 in
    let mant := 2 * q + sticky in
    let mant := if xorb (bool_decide (n < 0)) (bool_decide (m < 0))
                then - mant else mant in
    match SpecFloat.binary_normalize FloatOps.prec FloatOps.emax mant
            (- k - 1) false with
    | SpecFloat.S754_infinity _ => None
    | sf => Some (FloatOps.SF2Prim sf)
    end.

(** [n / d] for an [int] [n]: true division, always a [float]. *)
Definition num_truediv (n : Z) (d : Num) : option float :=
  match d with
  | PyInt m => int_truediv n m
  | PyFloat g =>
      f ← float_of_int n;
      if PrimFloat.eqb g PrimFloat.zero then None
      else Some (PrimFloat.div f g)
  end.

(** [l[i]]: an index that is a [float] raises TypeError. *)
Definition py_get_num {A} (l : list A) (i : Num) : option A :=
  match i with
  | PyInt z => py_get l z
  | PyFloat _ => None
  end.

(** [pixel_to_grid], [can_move_to] and its loop on numbers of either kind.
    On [int]s they are the functions above. *)
Definition pixel_to_grid_num (px py : Num) : option (Num * Num) :=
  dx ← num_sub px (PyInt OFFSET_X);
  gx ← num_floordiv dx TILE;
  dy ← num_sub py (PyInt OFFSET_Y);
  gy ← num_floordiv dy TILE;
  let gx := py_max (PyInt 0) (py_min (PyInt (GRID_COLS - 1)) gx) in
  let gy := py_max (PyInt 0) (py_min (PyInt (GRID_ROWS - 1)) gy) in
  Some (gx, gy).

Definition corners_num (px py : Num) : option (list (Num * Num)) :=
  let w := PyInt PLAYER_SIZE in
  x1 ← num_add px (PyInt 2);
  y1 ← num_add py (PyInt 2);
  xw ← num_add px w;
  x2 ← num_sub xw (PyInt 2);
  yw ← num_add py w;
  y2 ← num_sub yw (PyInt 2);
  Some [(x1, y1); (x2, y1); (x1, y2); (x2, y2)].

Definition cell_in_bounds_num (c : Num * Num) : bool :=
  num_le (PyInt 0) c.1 && num_lt c.1 (PyInt GRID_COLS) &&
  num_le (PyInt 0) c.2 && num_lt c.2 (PyInt GRID_ROWS).

Fixpoint corners_free_num (g : Grid) (cs : list (Num * Num)) : option bool :=
  match cs with
  | [] => Some true
  | (cx, cy) :: cs' =>
      c ← pixel_to_grid_num cx cy;
      if negb (cell_in_bounds_num c) then Some false
      else
        row ← py_get_num g c.2;
        v ← py_get_num row c.1;
        if bool_decide (v = 0) then Some false else corners_free_num g cs'
  end.

Definition can_move_to_num (self : MazeRunner) (px py : Num) : option bool :=
  cs ← corners_num px py;
  corners_free_num (grid self) cs.

(** ** How a call ends

    [update] returns, raises an exception, or, in the adversary's step,
    stores a [float] as a coordinate of [enemy_pos].  The attribute
    [enemy_pos] of the model holds [int]s, so the model does not follow the
    game beyond such an assignment. *)
Inductive Outcome (A : Type) : Type :=
| Returns (a : A)
| Raises
| StoresFloat.
Arguments Returns {A} a.
Arguments Raises {A}.
Arguments StoresFloat {A}.

#[global] Instance Outcome_bind : MBind Outcome := λ A B f m,
  match m with
  | Returns a => f a
  | Raises => Raises
  | StoresFloat => StoresFloat
  end.

(** The outcome of a call that returns or raises. *)
Definition raising {A} (o : option A) : Outcome A :=
  match o with
  | Some a => Returns a
  | None => Raises
  end.

Section Update.

(** [x ** 0.5] for a [float] [x]: the function [pow] of the C library with
    exponent 0.5.  It is not required to be the correctly rounded square
    root, so it is a parameter; [PrimFloat.sqrt] is an instance. *)
Variable pow_half : float → float.

(** The player's part of [update]: both tests are made before either
    coordinate is written. *)
Definition move_player (self : MazeRunner) (input_dir : option (Z * Z))
  : option MazeRunner :=
  match input_dir with
  | None => Some self
  | Some (dx, dy) =>
      let new_x := (player_pos self).1 + dx in
      let new_y := (player_pos self).2 + dy in
      can_move_x ← can_move_to self new_x (player_pos self).2;
      can_move_y ← can_move_to self (player_pos self).1 new_y;
      let self :=
        if can_move_x : bool
        then set_player_pos (new_x, (player_pos self).2) self else self in
      let self :=
        if can_move_y : bool
        then set_player_pos ((player_pos self).1, new_y) self else self in
      Some self
  end.

(** [dist = max(1, (dir_x**2 + dir_y**2)**0.5)],
    [vx = ENEMY_SPEED * dir_x / dist], [vy = ENEMY_SPEED * dir_y / dist]:
    the velocity is a pair of [float]s. *)
Definition enemy_velocity (dir_x dir_y : Z) : option (float * float) :=
  s ← float_of_int (dir_x ^ 2 + dir_y ^ 2);
  let dist := py_max (PyInt 1) (PyFloat (pow_half s)) in
  vx ← num_truediv (ENEMY_SPEED * dir_x) dist;
  vy ← num_truediv (ENEMY_SPEED * dir_y) dist;
  Some (vx, vy).

(** The adversary's step with velocity [(vx, vy)].  [new_ex] and [new_ey]
    are [float]s.  When a test passes, the [float] is stored in
    [enemy_pos]. *)
Definition step_enemy (self : MazeRunner) (v : float * float)
  : Outcome MazeRunner :=
  let '(vx, vy) := v in
  new_ex ← raising (num_add (PyInt (enemy_pos self).1) (PyFloat vx));
  new_ey ← raising (num_add (PyInt (enemy_pos self).2) (PyFloat vy));
  ok_x ← raising (can_move_to_num self new_ex (PyInt (enemy_pos self).2));
  if ok_x : bool then StoresFloat
  else
    ok_y ← raising (can_move_to_num self (PyInt (enemy_pos self).1) new_ey);
    if ok_y : bool then StoresFloat else Returns self.

(** The adversary's part of [update], given the result of [bfs_path]. *)
Definition move_enemy (self : MazeRunner) (path : option (list Cell))
  : Outcome MazeRunner :=
  match path with
  | Some (_ :: next_cell :: _) =>
      let '(nx_px, ny_px) := grid_to_pixel next_cell.1 next_cell.2 in
      let ex_c := (enemy_pos self).1 + ENEMY_SIZE / 2 in
      let ey_c := (enemy_pos self).2 + ENEMY_SIZE / 2 in
      let dir_x := nx_px - ex_c in
      let dir_y := ny_px - ey_c in
      if bool_decide (dir_x ≠ 0 ∨ dir_y ≠ 0)
      then
        v ← raising (enemy_velocity dir_x dir_y);
        step_enemy self v
      else Returns self
  | _ => Returns self
  end.

(** [if self.rects_collide(...): ...], the catch. *)
Definition check_catch (self : MazeRunner) : MazeRunner :=
  if rects_collide (player_pos self) PLAYER_SIZE (enemy_pos self) ENEMY_SIZE
  then
    let self := set_lives (lives self - 1) self in
    if bool_decide (lives self ≤ 0) then set_state game_over self
    else reset_positions self
  else self.

(** [if self.player_cell == (GRID_COLS-2, GRID_ROWS-2): ...], the exit. *)
Definition check_exit (self : MazeRunner) (r : Rng)
  : option (MazeRunner * Rng) :=
  if bool_decide (player_cell self = (GRID_COLS - 2, GRID_ROWS - 2)) then
    if bool_decide (level self < MAX_LEVEL) then
      let self := set_level (level self + 1) self in
      '(g, r') ← generate_maze (level self) r;
      let self := set_grid g self in
      Some (reset_positions self, r')
    else Some (set_state win self, r)
  else Some (self, r).

(** [MazeRunner.update(dt, input_dir)]; [dt] is unused by the source.
    [input_dir] is [None] for a false argument; [main_loop] always passes
    a pair, which is true even when it is [(0, 0)]. *)
Definition update (self : MazeRunner) (input_dir : option (Z * Z)) (r : Rng)
  : Outcome (MazeRunner * Rng) :=
  match state self with
  | playing =>
      self ← raising (move_player self input_dir);
      let self := update_player_cell self in
      let self := update_enemy_cell self in
      path ← raising (bfs_path (grid self) (enemy_cell self) (player_cell self));
      self ← move_enemy self path;
      let self := check_catch self in
      raising (check_exit self r)
  | _ => Returns (self, r)
  end.

End Update.

(** ** Mouse handling in main_loop *)

Definition start_button : Rect := mkRect 300 220 200 50.
Definition exit_button : Rect := mkRect 300 290 200 50.
Definition restart_button : Rect := mkRect 300 360 200 50.

Definition btn_size : Z := 56.
Definition pad_y : Z := SCREEN_HEIGHT - 120.
Definition left_btn : Rect := mkRect 30 pad_y btn_size btn_size.
Definition right_btn : Rect :=
  mkRect (30 + btn_size * 2 + 10) pad_y btn_size btn_size.
Definition up_btn : Rect :=
  mkRect (30 + btn_size + 5) (pad_y - btn_size - 8) btn_size btn_size.
Definition down_btn : Rect := mkRect (30 + btn_size + 5) pad_y btn_size btn_size.

(** The loop-local variables the handler writes. *)
Record Inputs := mkInputs { input_dx : Z; input_dy : Z; mouse_held : bool }.

(** What a handler leaves behind: the loop goes on, or [sys.exit()] ran. *)
Inductive Handled :=
| Continue (game : MazeRunner) (inp : Inputs) (r : Rng)
| Exited.

(** The branch [event.type == pygame.MOUSEBUTTONDOWN] of [main_loop] at
    [event.pos = (mx, my)]. *)
Definition mouse_button_down (game : MazeRunner) (inp : Inputs) (pos : Z * Z)
    (r : Rng) : option Handled :=
  let inp := mkInputs (input_dx inp) (input_dy inp) true in
  match state game with
  | menu =>
      '(game, r) ←
        (if collidepoint start_button pos then
           let game := set_state playing game in
           let game := set_level 1 game in
           let game := set_lives START_LIVES game in
           '(g, r') ← generate_maze (level game) r;
           let game := set_grid g game in
           Some (reset_positions game, r')
         else Some (game, r));
      if collidepoint exit_button pos then Some Exited
      else Some (Continue game inp r)
  | game_over =>
      if collidepoint restart_button pos
      then Some (Continue (set_state menu game) inp r)
      else Some (Continue game inp r)
  | playing =>
      let dx := if collidepoint left_btn pos then - PLAYER_SPEED
                else input_dx inp in
      let dx := if collidepoint right_btn pos then PLAYER_SPEED else dx in
      let dy := if collidepoint up_btn pos then - PLAYER_SPEED
                else input_dy inp in
      let dy := if collidepoint down_btn pos then PLAYER_SPEED else dy in
      Some (Continue game (mkInputs dx dy (mouse_held inp)) r)
  | win => Some (Continue (set_state menu game) inp r)
  end.

(** [game = MazeRunner()], the object before the first frame. *)
Definition new_game (r : Rng) : option (MazeRunner * Rng) :=
  '(g, r') ← generate_maze 1 r;
  Some (mkGame 1 START_LIVES menu g player_spawn_pos enemy_spawn_pos
               (1, 1) (GRID_COLS - 2, GRID_ROWS - 2), r').

(** ** MazeRunner.new_level *)

(** [MazeRunner.new_level(lvl)] ([path_to_player] is not modelled). *)
Definition new_level (self : MazeRunner) (lvl : Z) (r : Rng)
  : option (MazeRunner * Rng) :=
  let self := set_level lvl self in
  '(g, r') ← generate_maze (level self) r;
  let self := set_grid g self in
  Some (reset_positions self, r').

(** ** One iteration of main_loop *)

(** What [pygame.key.get_pressed()] reports for the eight keys the loop
    reads. *)
Record Keys := mkKeys {
  K_LEFT : bool; K_a : bool;
  K_RIGHT : bool; K_d : bool;
  K_UP : bool; K_w : bool;
  K_DOWN : bool; K_s : bool;
}.

(** The events the loop distinguishes; [OTHER] is any other event type. *)
Inductive Event :=
| QUIT
| MOUSEBUTTONDOWN (pos : Z * Z)
| MOUSEBUTTONUP
| OTHER.

(** What the frame reads from pygame: the keys, the event queue, and
    [pygame.mouse.get_focused()] and [pygame.mouse.get_pos()]. *)
Record FrameInput := mkFrameInput {
  keys : Keys;
  events : list Event;
  mouse_focused : bool;
  mouse_pos : Z * Z;
}.

(** The variables of the loop between two statements: [running], the game
    object, the input variables and the random source; or the process has
    ended in [sys.exit()]. *)
Inductive LoopState :=
| Looping (running : bool) (game : MazeRunner) (inp : Inputs) (r : Rng)
| SysExit.

(** [kdx] and [kdy] as the loop computes them from the keys. *)
Definition keyboard_dir (k : Keys) : Z * Z :=
  let kdx := 0 in
  let kdy := 0 in
  let kdx := if K_LEFT k || K_a k then kdx - PLAYER_SPEED else kdx in
  let kdx := if K_RIGHT k || K_d k then kdx + PLAYER_SPEED else kdx in
  let kdy := if K_UP k || K_w k then kdy - PLAYER_SPEED else kdy in
  let kdy := if K_DOWN k || K_s k then kdy + PLAYER_SPEED else kdy in
  (kdx, kdy).

(** The body of [for event in pygame.event.get()] for one event. *)
Definition handle_event (st : LoopState) (e : Event) : option LoopState :=
  match st with
  | SysExit => Some SysExit
  | Looping running game inp r =>
      match e with
      | QUIT => Some (Looping false game inp r)
      | MOUSEBUTTONDOWN pos =>
          h ← mouse_button_down game inp pos r;
          match h with
          | Continue game' inp' r' => Some (Looping running game' inp' r')
          | Exited => Some SysExit
          end
      | MOUSEBUTTONUP => Some (Looping running game (mkInputs 0 0 false) r)
      | OTHER => Some st
      end
  end.

Fixpoint handle_events (st : LoopState) (es : list Event) : option LoopState :=
  match es with
  | [] => Some st
  | e :: es' => st' ← handle_event st e; handle_events st' es'
  end.

(** [if mouse_held and pygame.mouse.get_focused(): ...], the dragging on
    the touch pad. *)
Definition drag (game : MazeRunner) (inp : Inputs) (focused : bool)
    (pos : Z * Z) : Inputs :=
  if mouse_held inp && focused then
    match state game with
    | playing =>
        let dx := if collidepoint left_btn pos then - PLAYER_SPEED
                  else if collidepoint right_btn pos then PLAYER_SPEED
                  else 0 in
        let dy := if collidepoint up_btn pos then - PLAYER_SPEED
                  else if collidepoint down_btn pos then PLAYER_SPEED
                  else 0 in
        mkInputs dx dy (mouse_held inp)
    | _ => inp
    end
  else inp.

(** [if kdx != 0 or kdy != 0: input_dx = kdx; input_dy = kdy] *)
Definition keyboard_override (k : Keys) (inp : Inputs) : Inputs :=
  let '(kdx, kdy) := keyboard_dir k in
  if bool_decide (kdx ≠ 0 ∨ kdy ≠ 0) then mkInputs kdx kdy (mouse_held inp)
  else inp.

Section MainLoop.

Variable pow_half : float → float.

(** The body of [while running:], drawing left out: the events, the drag,
    the keyboard, then [game.update(dt, input_dir)]. *)
Definition frame (st : LoopState) (fi : FrameInput) : Outcome LoopState :=
  st ← raising (handle_events st (events fi));
  match st with
  | SysExit => Returns SysExit
  | Looping running game inp r =>
      let inp := drag game inp (mouse_focused fi) (mouse_pos fi) in
      let inp := keyboard_override (keys fi) inp in
      let input_dir := (input_dx inp, input_dy inp) in
      '(game, r) ← update pow_half game (Some input_dir) r;
      Returns (Looping running game inp r)
  end.

(** [while running: ...] over the frames that [fis] describes; the loop is
    left when [running] is false, and then [sys.exit()] follows. *)
Fixpoint main_loop (st : LoopState) (fis : list FrameInput)
  : Outcome LoopState :=
  match st, fis with
  | Looping true _ _ _, fi :: fis' =>
      st' ← frame st fi; main_loop st' fis'
  | Looping false _ _ _, _ => Returns SysExit
  | _, _ => Returns st
  end.

End MainLoop.

(** * Vocabulary of the properties *)

(** ** The maze generator *)

(** The cells the depth-first walk stands on: odd coordinates inside the
    border. *)
Definition coarse (c : Cell) : Prop :=
  1 ≤ c.1 ≤ GRID_COLS - 2 ∧ 1 ≤ c.2 ≤ GRID_ROWS - 2 ∧
  Z.odd c.1 = true ∧ Z.odd c.2 = true.

(** A neighbour as [neighbors] proposes it: two steps away on one axis. *)
Definition two_apart (c n : Cell) : Prop :=
  (n = (c.1 - 2, c.2) ∨ n = (c.1 + 2, c.2) ∨
   n = (c.1, c.2 - 2) ∨ n = (c.1, c.2 + 2)) ∧
  1 ≤ n.1 ≤ GRID_COLS - 2 ∧ 1 ≤ n.2 ≤ GRID_ROWS - 2.

(** Every cell of the grid, row by row. *)
Definition all_cells : list Cell :=
  y ← seqZ 0 GRID_ROWS; x ← seqZ 0 GRID_COLS; [(x, y)].

(** The number of wall cells of the grid, the measure of the carving loop. *)
Definition walls (g : Grid) : nat :=
  length (filter (λ c : Cell, grid_get g c.1 c.2 = Some 0) all_cells).

(** [g'] is [g] with some cells other than the spawn cell turned into
    walls. *)
Definition walls_added (g g' : Grid) : Prop :=
  well_formed g' ∧
  ∀ x y, in_grid (x, y) →
    grid_get g' x y = grid_get g x y ∨
    ((x, y) ≠ spawn_cell ∧ grid_get g' x y = Some 0).

(** The outermost ring of the grid. *)
Definition on_border (c : Cell) : Prop :=
  in_grid c ∧
  (c.1 = 0 ∨ c.1 = GRID_COLS - 1 ∨ c.2 = 0 ∨ c.2 = GRID_ROWS - 1).

(** The chance of the post-process in percent: on how many of the hundred
    outcomes of [randint(1, 100)] a free cell is turned into a wall. *)
Definition reblock_percent (level : Z) : Z :=
  Z.of_nat (length (filter (λ d, reblocks level d = true) (seqZ 1 100))).

(** ** The path finder *)

(** A cell inside the grid whose value is 1 (OPEN). *)
Definition free (g : Grid) (c : Cell) : Prop :=
  in_grid c ∧ grid_get g c.1 c.2 = Some 1.

(** 4-adjacency: one step along one axis. *)
Definition adjacent (a b : Cell) : Prop :=
  Z.abs (a.1 - b.1) + Z.abs (a.2 - b.2) = 1.

Definition step (c : Cell) (d : Z * Z) : Cell := (c.1 + d.1, c.2 + d.2).

(** A path from [s] to [t] as the game means it: it starts at [s], ends at
    [t], visits free cells only, and consecutive cells are adjacent. *)
Definition route (g : Grid) (s t : Cell) (p : list Cell) : Prop :=
  head p = Some s ∧ last p = Some t ∧ Forall (free g) p ∧
  ∀ (i : nat) a b, p !! i = Some a → p !! S i = Some b → adjacent a b.

(** The moves the search makes: from any cell to an adjacent free cell. *)
Inductive walk (g : Grid) : Cell → Cell → list Cell → Prop :=
| walk_end c : walk g c c [c]
| walk_step a b t p :
    adjacent a b → free g b → walk g b t p → walk g a t (a :: p).

(** The invariant of the search loop.  [lv] gives every discovered cell its
    depth in the tree of [came]; [b] is the depth of the cell dequeued last.
    [cur] is the cell being expanded, if any, and [hd] the directions
    already tried from it. *)
Record search_inv (g : Grid) (s : Cell) (cur : option Cell)
    (hd : list (Z * Z)) (q : list Cell) (came : gmap Cell (option Cell))
    (lv : Cell → nat) (b : nat) : Prop := {
  si_start : came !! s = Some None;
  si_start_lv : lv s = 0%nat;
  si_pred : ∀ c p, came !! c = Some (Some p) →
            is_Some (came !! p) ∧ adjacent p c ∧ free g c ∧ lv c = S (lv p);
  si_root : ∀ c, came !! c = Some None → c = s;
  si_queued : ∀ c, c ∈ q → is_Some (came !! c);
  si_nodup : NoDup q;
  si_levels : ∃ qa qb, q = qa ++ qb ∧
              Forall (λ c, lv c = b) qa ∧ Forall (λ c, lv c = S b) qb;
  si_span : ∀ c, is_Some (came !! c) → (lv c ≤ S b)%nat;
  si_size : ∀ c, is_Some (came !! c) → (lv c < size came)%nat;
  si_done : ∀ c n, is_Some (came !! c) → c ∉ q → cur ≠ Some c →
            adjacent c n → free g n →
            is_Some (came !! n) ∧ (lv n ≤ S (lv c))%nat;
  si_cur : ∀ c, cur = Some c →
           is_Some (came !! c) ∧ (c ∉ q) ∧ lv c = b ∧
           ∀ d, d ∈ hd → free g (step c d) → is_Some (came !! step c d);
}.

(** ** Collision and motion *)


(** The value of the grid under a sampled point. *)
Definition sampled (g : Grid) (p : Z * Z) : option Z :=
  let c := pixel_to_grid p.1 p.2 in grid_get g c.1 c.2.

(** Both axes tested against the position before the move, each applied
    when its own test passes. *)
Definition resolve_independent (ok_x ok_y : bool) (pos new : Z * Z) : Z * Z :=
  (if ok_x then new.1 else pos.1, if ok_y then new.2 else pos.2).

(** ** Grids to run the code on *)

(** The grid whose free cells are those [f] accepts. *)
Definition grid_of (f : Cell → bool) : Grid :=
  (λ y, (λ x, if f (x, y) then 1 else 0) <$> seqZ 0 GRID_COLS)
    <$> seqZ 0 GRID_ROWS.

(** A straight corridor of five cells in row 1. *)
Definition corridor_grid : Grid :=
  grid_of (λ c, bool_decide (c.2 = 1 ∧ 1 ≤ c.1 ≤ 5)).

(** Every interior cell free, the exit cell included. *)
Definition room_grid : Grid :=
  grid_of (λ c, bool_decide (1 ≤ c.1 ≤ GRID_COLS - 2 ∧ 1 ≤ c.2 ≤ GRID_ROWS - 2)).

(** Three free cells around the wall cell (2, 2). *)
Definition corner_grid : Grid :=
  grid_of (λ c, bool_decide (c ∈ [(1, 1); (2, 1); (1, 2)])).

(** A game in progress on [g], with both actors at pixel [pos]. *)
Definition game_at (g : Grid) (lvl lvs : Z) (pos : Z * Z) : MazeRunner :=
  mkGame lvl lvs playing g pos pos (1, 1) (GRID_COLS - 2, GRID_ROWS - 2).

(** ** Further vocabulary *)

(** The cells the carving can open: inside columns 1..GRID_COLS-3 and rows
    1..GRID_ROWS-3, with at least one odd coordinate. *)
Definition passage (c : Cell) : Prop :=
  1 ≤ c.1 ≤ GRID_COLS - 3 ∧ 1 ≤ c.2 ≤ GRID_ROWS - 3 ∧
  Z.odd c.1 || Z.odd c.2 = true.

(** Every cell of the grid holds 0 or 1. *)
Definition binary (g : Grid) : Prop :=
  Forall (Forall (λ v, v = 0 ∨ v = 1)) g.

(** A grid of the fixed size whose last two columns and last two rows are
    wall. *)
Definition sealed (g : Grid) : Prop :=
  well_formed g ∧
  ∀ x y, in_grid (x, y) → GRID_COLS - 2 ≤ x ∨ GRID_ROWS - 2 ≤ y →
    grid_get g x y = Some 0.

(** The position is legal: [can_move_to] returns [True]. *)
Definition legal (self : MazeRunner) (pos : Z * Z) : Prop :=
  can_move_to self pos.1 pos.2 = Some true.

(** The centre of a footprint with top-left pixel [pos]. *)
Definition centre (pos : Z * Z) : Z * Z :=
  (pos.1 + PLAYER_SIZE / 2, pos.2 + PLAYER_SIZE / 2).

(** The cell under the centre of the footprint is not a wall. *)
Definition centre_clear (g : Grid) (pos : Z * Z) : Prop :=
  ∃ v, sampled g (centre pos) = Some v ∧ v ≠ 0.

(** The right sampled corner of the player lies left of column
    GRID_COLS-2, the column of the exit. *)
Definition left_of_exit (self : MazeRunner) : Prop :=
  (player_pos self).1 + PLAYER_SIZE - 2 < OFFSET_X + (GRID_COLS - 2) * TILE.

(** A game in PLAYING on a sealed grid, the adversary at its spawn point and
    the player left of the exit column. *)
Definition stalemate (self : MazeRunner) : Prop :=
  state self = playing ∧ sealed (grid self) ∧
  enemy_pos self = enemy_spawn_pos ∧ left_of_exit self.

(** An input variable holds a step of the player's speed or nothing. *)
Definition is_step (d : Z) : Prop :=
  d = - PLAYER_SPEED ∨ d = 0 ∨ d = PLAYER_SPEED.

Definition steps (inp : Inputs) : Prop :=
  is_step (input_dx inp) ∧ is_step (input_dy inp).

(** [generate_maze] up to the end of the carving loop: the grid before the
    post-process. *)
Definition carved (r : Rng) : option (Grid * Rng) :=
  grid ← grid_set all_walls 1 1 1;
  carve carve_fuel grid [(1, 1)] r.

(** The invariant of the carving loop: the grid is binary and of the fixed
    size; free cells are passage cells and can be reached from the spawn
    cell; the cells on the stack are free coarse cells; and a free coarse
    cell that has left the stack has all its coarse neighbours free. *)
Record carve_inv (g : Grid) (stack : list Cell) : Prop := {
  ci_wf : well_formed g;
  ci_binary : binary g;
  ci_spawn : free g spawn_cell;
  ci_passage : ∀ c, free g c → passage c;
  ci_stack : Forall (λ c, coarse c ∧ free g c) stack;
  ci_done : ∀ c n, coarse c → free g c → c ∉ stack → two_apart c n → free g n;
  ci_reach : ∀ c, free g c → ∃ p, walk g spawn_cell c p;
}.

(** Two game objects that differ at most in positions and cells. *)
Definition same_session (a b : MazeRunner) : Prop :=
  level a = level b ∧ lives a = lives b ∧ state a = state b ∧
  grid a = grid b.

(** The post-process draws a number for the cell: the cell is neither the
    spawn cell nor the exit cell, and it is free. *)
Definition draws_for (g : Grid) (c : Cell) : bool :=
  bool_decide ((c ∉ [(1, 1); (GRID_COLS - 2, GRID_ROWS - 2)]) ∧
               grid_get g c.1 c.2 = Some 1).

(** How many of the cells [cs] the post-process draws a number for. *)
Definition draws (g : Grid) (cs : list Cell) : nat :=
  length (filter (λ c, draws_for g c = true) cs).

(** The [k]-th number, counted from 0, that [randint(1, 100)] delivers from
    the oracle [r]. *)
Definition nth_percent (r : Rng) (k : nat) : Z :=
  1 + Z.of_nat (r k `mod` 100)%nat.

(** Both actors are where [reset_positions] puts them. *)
Definition at_spawn (self : MazeRunner) : Prop :=
  player_pos self = player_spawn_pos ∧ enemy_pos self = enemy_spawn_pos ∧
  player_cell self = spawn_cell ∧ enemy_cell self = exit_cell.

(** The pixel lies on the screen. *)
Definition on_screen (pos : Z * Z) : Prop :=
  0 ≤ pos.1 ≤ SCREEN_WIDTH ∧ 0 ≤ pos.2 ≤ SCREEN_HEIGHT.

(** The direction [main_loop] passes to [update]: a pair of steps. *)
Definition step_input (input_dir : option (Z * Z)) : Prop :=
  ∃ dx dy, input_dir = Some (dx, dy) ∧ is_step dx ∧ is_step dy.

(** The outermost ring of the grid is wall. *)
Definition bordered (g : Grid) : Prop :=
  ∀ c, on_border c → grid_get g c.1 c.2 = Some 0.

(** A game on level 1 with all its lives that is in MENU or in a
    stalemate. *)
Definition first_level (self : MazeRunner) : Prop :=
  level self = 1 ∧ lives self = START_LIVES ∧
  (state self = menu ∨ stalemate self).

(** * Properties *)

(** ** Indexing *)

Lemma py_index_nonneg {A} (l : list A) (i : Z) :
  0 ≤ i < Z.of_nat (length l) → py_index l i = Some (Z.to_nat i).
Proof.
  intros Hi. unfold py_index. by rewrite bool_decide_eq_true_2.
Qed.

Lemma py_get_nonneg {A} (l : list A) (i : Z) :
  0 ≤ i < Z.of_nat (length l) → py_get l i = l !! Z.to_nat i.
Proof.
  intros Hi. unfold py_get. by rewrite py_index_nonneg.
Qed.

Lemma py_set_nonneg {A} (l : list A) (i : Z) (v : A) :
  0 ≤ i < Z.of_nat (length l) → py_set l i v = Some (<[Z.to_nat i := v]> l).
Proof.
  intros Hi. unfold py_set. by rewrite py_index_nonneg.
Qed.

Lemma well_formed_row (g : Grid) (y : Z) :
  well_formed g → 0 ≤ y < GRID_ROWS →
  ∃ row, g !! Z.to_nat y = Some row ∧ length row = Z.to_nat GRID_COLS.
Proof.
  intros [Hlen Hrows] Hy.
  destruct (lookup_lt_is_Some_2 g (Z.to_nat y)) as [row Hrow]; [lia|].
  exists row. split; [done|].
  by eapply (Forall_lookup_1 _ _ _ _ Hrows Hrow).
Qed.

Lemma well_formed_rows (g : Grid) :
  well_formed g → Z.of_nat (length g) = GRID_ROWS.
Proof. intros [-> _]. unfold GRID_ROWS. lia. Qed.

(** On a well-formed grid, reading inside the bounds returns a value. *)
Lemma grid_get_in_grid (g : Grid) (x y : Z) :
  well_formed g → in_grid (x, y) → is_Some (grid_get g x y).
Proof.
  intros Hwf [Hx Hy]; simpl in *.
  destruct (well_formed_row g y Hwf Hy) as (row & Hrow & Hlen).
  unfold grid_get.
  rewrite py_get_nonneg by (rewrite well_formed_rows; done). rewrite Hrow. simpl.
  rewrite py_get_nonneg by (unfold GRID_COLS in *; lia).
  apply lookup_lt_is_Some_2. unfold GRID_COLS in *. lia.
Qed.

(** Writing inside the bounds succeeds, keeps the shape, and changes the
    written cell only. *)
Lemma grid_set_in_grid (g : Grid) (x y v : Z) :
  well_formed g → in_grid (x, y) →
  ∃ g', grid_set g x y v = Some g' ∧ well_formed g' ∧
    ∀ x' y', in_grid (x', y') →
      grid_get g' x' y' =
        if bool_decide ((x', y') = (x, y)) then Some v else grid_get g x' y'.
Proof.
  intros Hwf [Hx Hy]; simpl in *.
  destruct (well_formed_row g y Hwf Hy) as (row & Hrow & Hlen).
  pose proof (well_formed_rows g Hwf) as Hrows.
  assert (Hxr : 0 ≤ x < Z.of_nat (length row)) by (unfold GRID_COLS in *; lia).
  exists (<[Z.to_nat y := <[Z.to_nat x := v]> row]> g).
  split; [|split].
  - unfold grid_set.
    rewrite py_get_nonneg, Hrow by lia. simpl.
    rewrite py_set_nonneg by done. simpl.
    by rewrite py_set_nonneg by lia.
  - destruct Hwf as [Hl Hf]. split.
    + by rewrite length_insert.
    + apply Forall_insert; [done|]. by rewrite length_insert.
  - intros x' y' [Hx' Hy']; simpl in *.
    unfold grid_get.
    rewrite !py_get_nonneg by (rewrite ?length_insert; lia).
    destruct (decide (y' = y)) as [->|Hne].
    + rewrite list_lookup_insert_eq, Hrow by lia. simpl.
      rewrite !py_get_nonneg by (rewrite ?length_insert; unfold GRID_COLS in *; lia).
      destruct (decide (x' = x)) as [->|Hnx].
      * rewrite bool_decide_eq_true_2 by done.
        apply list_lookup_insert_eq. lia.
      * rewrite bool_decide_eq_false_2 by congruence.
        apply list_lookup_insert_ne. lia.
    + rewrite bool_decide_eq_false_2 by congruence.
      rewrite list_lookup_insert_ne by lia. done.
Qed.

Lemma all_walls_well_formed : well_formed all_walls.
Proof.
  split.
  - unfold all_walls. by rewrite length_replicate.
  - unfold all_walls. apply Forall_replicate. by rewrite length_replicate.
Qed.

Lemma all_walls_get (x y : Z) :
  in_grid (x, y) → grid_get all_walls x y = Some 0.
Proof.
  intros [Hx Hy]; simpl in *. unfold grid_get, all_walls.
  unfold GRID_COLS, GRID_ROWS in *.
  rewrite py_get_nonneg by (rewrite length_replicate; lia).
  rewrite lookup_replicate_2 by lia. cbn [mbind option_bind].
  rewrite py_get_nonneg by (rewrite length_replicate; lia).
  by rewrite lookup_replicate_2 by lia.
Qed.

(** ** The random helpers *)

Lemma randbelow_lt (n : nat) (r : Rng) :
  (0 < n)%nat → ((randbelow n r).1 < n)%nat.
Proof. intros Hn. simpl. apply Nat.mod_upper_bound. lia. Qed.

Lemma choice_elem_of {A} (l : list A) (r : Rng) :
  l ≠ [] → ∃ x r', choice l r = Some (x, r') ∧ x ∈ l.
Proof.
  intros Hl. unfold choice.
  destruct (randbelow (length l) r) as [k r'] eqn:Hk.
  assert (k < length l)%nat as Hlt.
  { change k with (k, r').1. rewrite <- Hk. apply randbelow_lt.
    destruct l; [done | simpl; lia]. }
  destruct (lookup_lt_is_Some_2 l k Hlt) as [x Hx].
  exists x, r'. rewrite Hx. split; [done|].
  by eapply list_elem_of_lookup_2.
Qed.

Lemma swap_elem_of {A} (l : list A) (i j : nat) (x : A) :
  x ∈ swap l i j → x ∈ l.
Proof.
  unfold swap.
  destruct (l !! i) as [a|] eqn:Ha; [|done].
  destruct (l !! j) as [b|] eqn:Hb; [|done].
  intros Hx.
  apply list_elem_of_lookup in Hx as [k Hk].
  destruct (decide (k = j)) as [->|Hkj].
  - rewrite list_lookup_insert_eq in Hk.
    + injection Hk as <-. by eapply list_elem_of_lookup_2.
    + rewrite length_insert. by eapply lookup_lt_Some.
  - rewrite list_lookup_insert_ne in Hk by done.
    destruct (decide (k = i)) as [->|Hki].
    + rewrite list_lookup_insert_eq in Hk by (by eapply lookup_lt_Some).
      injection Hk as <-. by eapply list_elem_of_lookup_2.
    + rewrite list_lookup_insert_ne in Hk by done.
      by eapply list_elem_of_lookup_2.
Qed.

Lemma shuffle_from_elem_of {A} (i : nat) (l : list A) (r : Rng) (x : A) :
  x ∈ (shuffle_from i l r).1 → x ∈ l.
Proof.
  revert l r. induction i as [|i IH]; intros l r; simpl; [done|].
  intros Hx. apply IH in Hx. by eapply swap_elem_of.
Qed.

Lemma shuffle_elem_of {A} (l : list A) (r : Rng) (x : A) :
  x ∈ (shuffle l r).1 → x ∈ l.
Proof. apply shuffle_from_elem_of. Qed.

(** ** The carving loop *)

Lemma neighbors_elem_of (cx cy : Z) (r : Rng) (n : Cell) :
  coarse (cx, cy) → n ∈ (neighbors cx cy r).1 → two_apart (cx, cy) n.
Proof.
  intros (Hx & Hy & _). simpl in Hx, Hy.
  unfold neighbors. intros Hn. apply shuffle_elem_of in Hn.
  unfold two_apart; simpl.
  assert (∀ (b : bool) (l : list Cell) (c : Cell),
            n ∈ (if b then l ++ [c] else l) → n ∈ l ∨ (b = true ∧ n = c)) as Hstep.
  { intros [] l c; [|by left]. rewrite elem_of_app, list_elem_of_singleton.
    intros [H | H]; [by left | by right]. }
  unfold GRID_COLS, GRID_ROWS in *.
  apply Hstep in Hn as [Hn | [Hb%bool_decide_eq_true ->]];
    [|simpl; split; [tauto | lia]].
  apply Hstep in Hn as [Hn | [Hb%bool_decide_eq_true ->]];
    [|simpl; split; [tauto | lia]].
  apply Hstep in Hn as [Hn | [Hb%bool_decide_eq_true ->]];
    [|simpl; split; [tauto | lia]].
  apply Hstep in Hn as [Hn | [Hb%bool_decide_eq_true ->]];
    [|simpl; split; [tauto | lia]].
  by apply elem_of_nil in Hn.
Qed.

Lemma two_apart_coarse (c n : Cell) :
  coarse c → two_apart c n → coarse n.
Proof.
  intros (Hx & Hy & Hox & Hoy) (Hn & Hnx & Hny).
  unfold coarse. split; [done|]. split; [done|].
  destruct Hn as [-> | [-> | [-> | ->]]]; simpl;
    rewrite ?Z.odd_sub, ?Z.odd_add, ?Hox, ?Hoy; done.
Qed.

Lemma coarse_in_grid (c : Cell) : coarse c → in_grid c.
Proof.
  intros (Hx & Hy & _). unfold in_grid, GRID_COLS, GRID_ROWS in *. lia.
Qed.

(** The wall cell between a coarse cell and its neighbour lies inside the
    grid and has exactly one even coordinate. *)
Lemma wall_between (c n : Cell) :
  coarse c → two_apart c n →
  let wl := ((c.1 + n.1) / 2, (c.2 + n.2) / 2) in
  in_grid wl ∧ Z.even wl.1 && Z.even wl.2 = false ∧
  Z.odd wl.1 && Z.odd wl.2 = false.
Proof.
  intros (Hx & Hy & Hox & Hoy) (Hn & Hnx & Hny). simpl.
  assert (∀ a, (a + (a - 2)) / 2 = a - 1) as E1.
  { intros a. replace (a + (a - 2)) with ((a - 1) * 2) by lia.
    by rewrite Z.div_mul. }
  assert (∀ a, (a + (a + 2)) / 2 = a + 1) as E2.
  { intros a. replace (a + (a + 2)) with ((a + 1) * 2) by lia.
    by rewrite Z.div_mul. }
  assert (∀ a, (a + a) / 2 = a) as E3.
  { intros a. replace (a + a) with (a * 2) by lia. by rewrite Z.div_mul. }
  unfold in_grid, GRID_COLS, GRID_ROWS in *.
  destruct Hn as [-> | [-> | [-> | ->]]]; simpl in *;
    rewrite ?E1, ?E2, ?E3;
    rewrite ?Z.even_sub, ?Z.even_add, ?Z.odd_sub, ?Z.odd_add, <- ?Z.negb_odd,
      ?Hox, ?Hoy; simpl; (split; [lia | done]).
Qed.

Lemma unvisited_spec (g : Grid) (l : list Cell) :
  well_formed g → Forall in_grid l →
  ∃ nb, unvisited g l = Some nb ∧
    ∀ p, p ∈ nb → p ∈ l ∧ grid_get g p.1 p.2 = Some 0.
Proof.
  intros Hwf. induction 1 as [|p l Hp Hl IH]; simpl.
  - exists []. split; [done|]. intros p Hp. by apply elem_of_nil in Hp.
  - destruct IH as (rest & -> & Hrest).
    destruct p as [x y].
    destruct (grid_get_in_grid g x y Hwf Hp) as [v Hv]. simpl. rewrite Hv.
    simpl. eexists. split; [done|].
    intros p. case_bool_decide as Hv0.
    + rewrite elem_of_cons. intros [-> | Hin].
      * split; [left|]; simpl; congruence.
      * destruct (Hrest p Hin). split; [by right | done].
    + intros Hin. destruct (Hrest p Hin). split; [by right | done].
Qed.

(** *** The measure of the loop *)

Lemma elem_of_all_cells (c : Cell) : c ∈ all_cells ↔ in_grid c.
Proof.
  unfold all_cells, in_grid. destruct c as [x y].
  rewrite list_elem_of_bind. split.
  - intros (y' & Hx & Hy). apply list_elem_of_bind in Hx as (x' & Hx & Hx').
    apply list_elem_of_singleton in Hx. injection Hx as -> ->.
    apply elem_of_seqZ in Hy, Hx'. cbn [fst snd]. lia.
  - intros [Hx Hy]. cbn [fst snd] in Hx, Hy. exists y. split.
    + apply list_elem_of_bind. exists x. split; [by left|].
      apply elem_of_seqZ. lia.
    + apply elem_of_seqZ. lia.
Qed.

Lemma filter_length_mono {A} (P Q : A → Prop)
    `{!∀ x, Decision (P x)} `{!∀ x, Decision (Q x)} (l : list A) :
  (∀ x, x ∈ l → Q x → P x) →
  (length (filter Q l) ≤ length (filter P l))%nat.
Proof.
  induction l as [|a l IH]; intros HPQ; [done|].
  rewrite !filter_cons.
  assert (length (filter Q l) ≤ length (filter P l))%nat as IH'.
  { apply IH. intros x Hx. apply HPQ. by right. }
  destruct (decide (Q a)) as [HQ|HQ].
  - rewrite decide_True by (apply HPQ; [by left | done]). simpl. lia.
  - destruct (decide (P a)); simpl; lia.
Qed.

Lemma filter_length_strict {A} (P Q : A → Prop)
    `{!∀ x, Decision (P x)} `{!∀ x, Decision (Q x)} (l : list A) (a : A) :
  (∀ x, x ∈ l → Q x → P x) → a ∈ l → P a → ¬ Q a →
  (length (filter Q l) < length (filter P l))%nat.
Proof.
  induction l as [|b l IH]; intros HPQ Ha HP HQ.
  { by apply elem_of_nil in Ha. }
  rewrite !filter_cons.
  apply elem_of_cons in Ha as [<- | Ha].
  - destruct (decide (Q a)); [done|]. destruct (decide (P a)); [|done].
    simpl.
    assert (length (filter Q l) ≤ length (filter P l))%nat; [|lia].
    apply filter_length_mono. intros x Hx. apply HPQ. by right.
  - assert (length (filter Q l) < length (filter P l))%nat as IH'.
    { apply IH; try done. intros x Hx. apply HPQ. by right. }
    destruct (decide (Q b)) as [HQb|HQb].
    + rewrite decide_True by (apply HPQ; [by left | done]). simpl. lia.
    + destruct (decide (P b)); simpl; lia.
Qed.

(** Opening a cell never adds a wall, and removes one when the cell was a
    wall. *)
Lemma walls_open (g g' : Grid) (x y : Z) :
  well_formed g → in_grid (x, y) → grid_set g x y 1 = Some g' →
  (walls g' ≤ walls g)%nat ∧
  (grid_get g x y = Some 0 → (walls g' < walls g)%nat).
Proof.
  intros Hwf Hin Hset.
  destruct (grid_set_in_grid g x y 1 Hwf Hin) as (g'' & Hset' & _ & Hget).
  rewrite Hset in Hset'. injection Hset' as <-.
  assert (∀ c : Cell, c ∈ all_cells →
            grid_get g' c.1 c.2 = Some 0 → grid_get g c.1 c.2 = Some 0) as Hsub.
  { intros [cx cy] Hc%elem_of_all_cells. simpl. rewrite Hget by done.
    case_bool_decide; [done | done]. }
  split.
  - by apply filter_length_mono.
  - intros H0. apply (filter_length_strict _ _ _ (x, y)); try done.
    + by apply elem_of_all_cells.
    + simpl. rewrite Hget by done. by rewrite bool_decide_eq_true_2.
Qed.

(** What one carving step does to the grid: it opens the wall between the
    top of the stack and the chosen neighbour, then the neighbour. *)
Lemma carve_step (g : Grid) (c n : Cell) :
  well_formed g → coarse c → two_apart c n →
  grid_get g n.1 n.2 = Some 0 →
  ∃ g1 g2,
    grid_set g ((c.1 + n.1) / 2) ((c.2 + n.2) / 2) 1 = Some g1 ∧
    grid_set g1 n.1 n.2 1 = Some g2 ∧
    well_formed g2 ∧ (walls g2 < walls g)%nat ∧
    (∀ x y, in_grid (x, y) →
       grid_get g x y = Some 1 → grid_get g2 x y = Some 1) ∧
    (∀ x y, in_grid (x, y) → Z.even x = true → Z.even y = true →
       grid_get g2 x y = grid_get g x y).
Proof.
  intros Hwf Hc Hn H0.
  destruct (wall_between c n Hc Hn) as (Hwin & Hweven & Hwodd).
  cbn [fst snd] in Hweven, Hwodd.
  pose proof (two_apart_coarse c n Hc Hn) as Hcn.
  pose proof (coarse_in_grid n Hcn) as Hnin.
  destruct Hcn as (_ & _ & Hnx & Hny).
  set (wx := (c.1 + n.1) / 2) in *. set (wy := (c.2 + n.2) / 2) in *.
  destruct (grid_set_in_grid g wx wy 1 Hwf Hwin) as (g1 & Hs1 & Hwf1 & Hg1).
  destruct n as [nx ny]; cbn [fst snd] in *.
  destruct (grid_set_in_grid g1 nx ny 1 Hwf1 Hnin) as (g2 & Hs2 & Hwf2 & Hg2).
  exists g1, g2. split; [done|]. split; [done|]. split; [done|].
  assert ((nx, ny) ≠ (wx, wy)) as Hne.
  { intros [= E1 E2]. rewrite <- E1, <- E2, Hnx, Hny in Hwodd. done. }
  split; [|split].
  - destruct (walls_open g g1 wx wy Hwf Hwin Hs1) as [Hle _].
    destruct (walls_open g1 g2 nx ny Hwf1 Hnin Hs2) as [_ Hlt].
    assert (walls g2 < walls g1)%nat; [|lia].
    apply Hlt. rewrite Hg1 by done. by rewrite bool_decide_eq_false_2.
  - intros x y Hin H1. rewrite Hg2, Hg1 by done.
    repeat case_bool_decide; done.
  - intros x y Hin Hex Hey. rewrite Hg2, Hg1 by done.
    rewrite !bool_decide_eq_false_2; [done | |].
    + intros [= E1 E2]. by rewrite <- E1, <- E2, Hex, Hey in Hweven.
    + intros [= E1 E2]. rewrite <- Z.negb_odd, E1, Hnx in Hex. done.
Qed.

(** The carving loop ends within its fuel on every oracle; it only opens
    cells, and never a cell with two even coordinates. *)
Lemma carve_spec (fuel : nat) (g : Grid) (stack : list Cell) (r : Rng) :
  well_formed g → Forall coarse stack →
  (2 * walls g + length stack < fuel)%nat →
  ∃ g' r', carve fuel g stack r = Some (g', r') ∧ well_formed g' ∧
    (∀ x y, in_grid (x, y) →
       grid_get g x y = Some 1 → grid_get g' x y = Some 1) ∧
    (∀ x y, in_grid (x, y) → Z.even x = true → Z.even y = true →
       grid_get g' x y = grid_get g x y).
Proof.
  revert g stack r.
  induction fuel as [|fuel IH]; intros g stack r Hwf Hst Hm; [lia|].
  destruct stack as [|[x y] below]; simpl.
  { exists g, r. done. }
  apply Forall_cons in Hst as [Hc Hbelow].
  destruct (neighbors x y r) as [n r1] eqn:Hnb.
  assert (∀ p, p ∈ n → two_apart (x, y) p) as Hn.
  { intros p Hp. apply (neighbors_elem_of x y r); [done|].
    by rewrite Hnb. }
  destruct (unvisited_spec g n Hwf) as (nb & -> & Hnbs).
  { apply Forall_forall. intros p Hp. apply coarse_in_grid.
    eapply two_apart_coarse; eauto. }
  cbn [mbind option_bind].
  destruct nb as [|p nb'].
  { apply IH; [done | done | simpl in Hm; lia]. }
  destruct (choice_elem_of (p :: nb') r1) as ([nx ny] & r2 & -> & Hin);
    [done|].
  cbn [mbind option_bind].
  destruct (Hnbs _ Hin) as [Hinn H0].
  destruct (carve_step g (x, y) (nx, ny) Hwf Hc (Hn _ Hinn) H0)
    as (g1 & g2 & Hs1 & Hs2 & Hwf2 & Hlt & Hones & Heven).
  cbn [fst snd] in Hs1, Hs2. rewrite Hs1. cbn [mbind option_bind].
  rewrite Hs2. cbn [mbind option_bind].
  destruct (IH g2 ((nx, ny) :: (x, y) :: below) r2) as (g' & r' & -> & Hwf' & Ho' & He').
  - done.
  - apply Forall_cons. split; [|by apply Forall_cons].
    eapply two_apart_coarse; eauto.
  - simpl in *. lia.
  - exists g', r'. split; [done|]. split; [done|]. split.
    + intros x' y' Hin' H1. apply Ho'; [done|]. by apply Hones.
    + intros x' y' Hin' Hex Hey. rewrite He' by done. by apply Heven.
Qed.

(** ** The post-process and the border *)

Lemma walls_added_refl (g : Grid) : well_formed g → walls_added g g.
Proof. intros Hwf. split; [done|]. intros; by left. Qed.

Lemma walls_added_trans (g1 g2 g3 : Grid) :
  walls_added g1 g2 → walls_added g2 g3 → walls_added g1 g3.
Proof.
  intros [_ H12] [Hwf H23]. split; [done|].
  intros x y Hin.
  destruct (H23 x y Hin) as [-> | ?]; [|by right].
  by apply H12.
Qed.

Lemma walls_added_wall (g g' : Grid) (x y : Z) :
  walls_added g g' → in_grid (x, y) →
  grid_get g x y = Some 0 → grid_get g' x y = Some 0.
Proof.
  intros [_ H] Hin H0. destruct (H x y Hin) as [-> | [_ ?]]; done.
Qed.

Lemma walls_added_spawn (g g' : Grid) :
  walls_added g g' → grid_get g' 1 1 = grid_get g 1 1.
Proof.
  intros [_ H]. destruct (H 1 1) as [-> | [? _]]; done.
Qed.

Lemma grid_set_wall (g : Grid) (x y : Z) :
  well_formed g → in_grid (x, y) → (x, y) ≠ spawn_cell →
  ∃ g', grid_set g x y 0 = Some g' ∧ walls_added g g' ∧
        grid_get g' x y = Some 0.
Proof.
  intros Hwf Hin Hne.
  destruct (grid_set_in_grid g x y 0 Hwf Hin) as (g' & Hs & Hwf' & Hg).
  exists g'. split; [done|]. split.
  - split; [done|]. intros x' y' Hin'. rewrite Hg by done.
    case_bool_decide as Heq; [|by left].
    right. split; [congruence | done].
  - rewrite Hg by done. by rewrite bool_decide_eq_true_2.
Qed.

Lemma block_cell_spec (lvl : Z) (g : Grid) (c : Cell) (r : Rng) :
  well_formed g → in_grid c →
  ∃ g' r', block_cell lvl g c r = Some (g', r') ∧ walls_added g g'.
Proof.
  intros Hwf Hin. unfold block_cell.
  case_bool_decide as Hskip.
  { exists g, r. split; [done|]. by apply walls_added_refl. }
  destruct c as [x y].
  destruct (grid_get_in_grid g x y Hwf Hin) as [v Hv].
  cbn [fst snd]. rewrite Hv. cbn [mbind option_bind].
  case_bool_decide.
  2: { exists g, r. split; [done|]. by apply walls_added_refl. }
  destruct (randint 1 100 r) as [d r'].
  destruct (reblocks lvl d).
  2: { exists g, r'. split; [done|]. by apply walls_added_refl. }
  destruct (grid_set_wall g x y Hwf Hin) as (g' & -> & Hadd & _).
  { intros Heq. apply Hskip. rewrite Heq. by left. }
  exists g', r'. done.
Qed.

Lemma block_cells_spec (lvl : Z) (cs : list Cell) (g : Grid) (r : Rng) :
  well_formed g → Forall in_grid cs →
  ∃ g' r', block_cells lvl g cs r = Some (g', r') ∧ walls_added g g'.
Proof.
  intros Hwf Hcs. revert g r Hwf.
  induction Hcs as [|c cs Hc Hcs IH]; intros g r Hwf; simpl.
  { exists g, r. split; [done|]. by apply walls_added_refl. }
  destruct (block_cell_spec lvl g c r Hwf Hc) as (g1 & r1 & -> & H1).
  cbn [mbind option_bind].
  destruct (IH g1 r1) as (g2 & r2 & -> & H2); [by destruct H1|].
  exists g2, r2. split; [done|]. by eapply walls_added_trans.
Qed.

Lemma interior_cells_in_grid : Forall in_grid interior_cells.
Proof.
  apply Forall_forall. intros [x y] Hc. unfold interior_cells in Hc.
  apply list_elem_of_bind in Hc as (y' & Hc & Hy).
  apply list_elem_of_bind in Hc as (x' & Hc & Hx).
  apply list_elem_of_singleton in Hc. injection Hc as -> ->.
  apply elem_of_seqZ in Hx, Hy.
  unfold in_grid, GRID_COLS, GRID_ROWS in *. cbn [fst snd]. lia.
Qed.

Lemma stamp_rows_spec (xs : list Z) (g : Grid) :
  well_formed g → Forall (λ x, 0 ≤ x < GRID_COLS) xs →
  ∃ g', stamp_rows g xs = Some g' ∧ walls_added g g' ∧
    ∀ x, x ∈ xs →
      grid_get g' x 0 = Some 0 ∧ grid_get g' x (GRID_ROWS - 1) = Some 0.
Proof.
  intros Hwf Hxs. revert g Hwf.
  induction Hxs as [|x xs Hx Hxs IH]; intros g Hwf; simpl.
  { exists g. split; [done|]. split; [by apply walls_added_refl|].
    intros x Hx. by apply elem_of_nil in Hx. }
  assert (in_grid (x, 0)) as Hin0.
  { unfold in_grid, GRID_ROWS. cbn [fst snd]. lia. }
  assert (in_grid (x, GRID_ROWS - 1)) as Hin1.
  { unfold in_grid, GRID_ROWS. cbn [fst snd]. lia. }
  destruct (grid_set_wall g x 0 Hwf Hin0) as (g1 & -> & H1 & Hz1); [done|].
  cbn [mbind option_bind].
  destruct (grid_set_wall g1 x (GRID_ROWS - 1)) as (g2 & -> & H2 & Hz2);
    [by destruct H1 | done | done |].
  cbn [mbind option_bind].
  destruct (IH g2) as (g3 & -> & H3 & Hz3); [by destruct H2|].
  exists g3. split; [done|]. split.
  { eapply walls_added_trans; [|done]. by eapply walls_added_trans. }
  intros x' [-> | Hin]%elem_of_cons; [|by apply Hz3].
  split.
  - eapply walls_added_wall; [done.. |]. by eapply walls_added_wall.
  - by eapply walls_added_wall.
Qed.

Lemma stamp_cols_spec (ys : list Z) (g : Grid) :
  well_formed g → Forall (λ y, 0 ≤ y < GRID_ROWS) ys →
  ∃ g', stamp_cols g ys = Some g' ∧ walls_added g g' ∧
    ∀ y, y ∈ ys →
      grid_get g' 0 y = Some 0 ∧ grid_get g' (GRID_COLS - 1) y = Some 0.
Proof.
  intros Hwf Hys. revert g Hwf.
  induction Hys as [|y ys Hy Hys IH]; intros g Hwf; simpl.
  { exists g. split; [done|]. split; [by apply walls_added_refl|].
    intros y Hy. by apply elem_of_nil in Hy. }
  assert (in_grid (0, y)) as Hin0.
  { unfold in_grid, GRID_COLS. cbn [fst snd]. lia. }
  assert (in_grid (GRID_COLS - 1, y)) as Hin1.
  { unfold in_grid, GRID_COLS. cbn [fst snd]. lia. }
  destruct (grid_set_wall g 0 y Hwf Hin0) as (g1 & -> & H1 & Hz1); [done|].
  cbn [mbind option_bind].
  destruct (grid_set_wall g1 (GRID_COLS - 1) y) as (g2 & -> & H2 & Hz2);
    [by destruct H1 | done | done |].
  cbn [mbind option_bind].
  destruct (IH g2) as (g3 & -> & H3 & Hz3); [by destruct H2|].
  exists g3. split; [done|]. split.
  { eapply walls_added_trans; [|done]. by eapply walls_added_trans. }
  intros y' [-> | Hin]%elem_of_cons; [|by apply Hz3].
  split.
  - eapply walls_added_wall; [done.. |]. by eapply walls_added_wall.
  - by eapply walls_added_wall.
Qed.

(** *** generate_maze as a whole *)

(** On every level and oracle [generate_maze] returns a grid of the fixed
    size whose spawn cell is free, whose border is wall, and whose cells
    with two even coordinates are all wall. *)
Lemma generate_maze_spec (lvl : Z) (r : Rng) :
  ∃ g r', generate_maze lvl r = Some (g, r') ∧ well_formed g ∧
    grid_get g 1 1 = Some 1 ∧
    (∀ c, on_border c → grid_get g c.1 c.2 = Some 0) ∧
    (∀ x y, in_grid (x, y) → Z.even x = true → Z.even y = true →
       grid_get g x y = Some 0).
Proof.
  unfold generate_maze.
  assert (in_grid (1, 1)) as Hspawn.
  { unfold in_grid, GRID_COLS, GRID_ROWS. cbn [fst snd]. lia. }
  destruct (grid_set_in_grid all_walls 1 1 1 all_walls_well_formed Hspawn)
    as (g0 & Hs0 & Hwf0 & Hg0).
  rewrite Hs0. cbn [mbind option_bind].
  destruct (carve_spec carve_fuel g0 [(1, 1)] r) as (g1 & r1 & -> & Hwf1 & Hone & Heven).
  { done. }
  { apply Forall_singleton. unfold coarse, GRID_COLS, GRID_ROWS.
    cbn [fst snd]. repeat split; lia. }
  { assert (walls g0 < walls all_walls)%nat as Hlt.
    { destruct (walls_open all_walls g0 1 1 all_walls_well_formed Hspawn Hs0)
        as [_ Hlt].
      apply Hlt. by apply all_walls_get. }
    assert (walls all_walls ≤ length all_cells)%nat as Hle.
    { apply length_filter. }
    assert (length all_cells = 396%nat) as Hlen by (by vm_compute).
    assert (carve_fuel = 792%nat) as -> by (by vm_compute).
    simpl. lia. }
  cbn [mbind option_bind].
  destruct (block_cells_spec lvl interior_cells g1 r1 Hwf1 interior_cells_in_grid)
    as (g2 & r2 & -> & H2).
  cbn [mbind option_bind].
  destruct (stamp_rows_spec (seqZ 0 GRID_COLS) g2) as (g3 & -> & H3 & Hrows).
  { by destruct H2. }
  { apply Forall_forall. intros x Hx%elem_of_seqZ. cbv beta. lia. }
  cbn [mbind option_bind].
  destruct (stamp_cols_spec (seqZ 0 GRID_ROWS) g3) as (g4 & -> & H4 & Hcols).
  { by destruct H3. }
  { apply Forall_forall. intros y Hy%elem_of_seqZ. cbv beta. lia. }
  cbn [mbind option_bind].
  assert (walls_added g1 g4) as H14.
  { eapply walls_added_trans; [|done]. by eapply walls_added_trans. }
  exists g4, r2. split; [done|]. split; [by destruct H4|]. split; [|split].
  - rewrite (walls_added_spawn g1 g4 H14). apply Hone; [done|].
    rewrite Hg0 by done. by rewrite bool_decide_eq_true_2.
  - intros [x y] [Hin Hb]. cbn [fst snd] in *.
    destruct Hin as [Hx Hy]; cbn [fst snd] in *.
    assert (in_grid (x, y)) as Hin by done.
    destruct Hb as [-> | [-> | [-> | ->]]].
    + destruct (Hcols y) as [H _]; [apply elem_of_seqZ; lia | done].
    + destruct (Hcols y) as [_ H]; [apply elem_of_seqZ; lia | done].
    + apply (walls_added_wall g3 g4); [done | done |].
      destruct (Hrows x) as [H _]; [apply elem_of_seqZ; lia | done].
    + apply (walls_added_wall g3 g4); [done | done |].
      destruct (Hrows x) as [_ H]; [apply elem_of_seqZ; lia | done].
  - intros x y Hin Hex Hey.
    apply (walls_added_wall g1 g4); [done | done |].
    rewrite Heven by done. rewrite Hg0 by done.
    rewrite bool_decide_eq_false_2.
    + by apply all_walls_get.
    + intros [= -> ->]. done.
Qed.

(** ** Adjacency and routes *)

Lemma adjacent_step (a b : Cell) :
  adjacent a b ↔ ∃ d, d ∈ dirs ∧ b = step a d.
Proof.
  unfold adjacent, step, dirs. destruct a as [ax ay], b as [bx by_].
  cbn [fst snd]. split.
  - intros H.
    assert ((bx = ax + 1 ∧ by_ = ay) ∨ (bx = ax - 1 ∧ by_ = ay) ∨
            (bx = ax ∧ by_ = ay + 1) ∨ (bx = ax ∧ by_ = ay - 1))
      as [[-> ->] | [[-> ->] | [[-> ->] | [-> ->]]]] by lia.
    + exists (1, 0). split; [set_solver|]. cbn [fst snd]. f_equal; lia.
    + exists (-1, 0). split; [set_solver|]. cbn [fst snd]. f_equal; lia.
    + exists (0, 1). split; [set_solver|]. cbn [fst snd]. f_equal; lia.
    + exists (0, -1). split; [set_solver|]. cbn [fst snd]. f_equal; lia.
  - intros ([dx dy] & Hd & [= -> ->]). cbn [fst snd].
    rewrite !elem_of_cons, elem_of_nil in Hd.
    destruct Hd as [[= -> ->] | [[= -> ->] | [[= -> ->] | [[= -> ->] | []]]]];
      lia.
Qed.

Lemma walk_length (g : Grid) (a t : Cell) (p : list Cell) :
  walk g a t p → (0 < length p)%nat.
Proof. destruct 1; simpl; lia. Qed.

Lemma walk_head (g : Grid) (a t : Cell) (p : list Cell) :
  walk g a t p → head p = Some a.
Proof. by destruct 1. Qed.

Lemma walk_snoc (g : Grid) (a b c : Cell) (p : list Cell) :
  walk g a b p → adjacent b c → free g c → walk g a c (p ++ [c]).
Proof.
  intros Hw Hadj Hfree. induction Hw as [x | x y t p Hxy Hy Hw IH]; simpl.
  - apply walk_step with c; [done | done | apply walk_end].
  - apply walk_step with y; [done | done | by apply IH].
Qed.

(** A route is a walk that starts on a free cell. *)
Lemma route_walk (g : Grid) (s t : Cell) (p : list Cell) :
  route g s t p ↔ free g s ∧ walk g s t p.
Proof.
  split.
  - intros (Hhd & Hlast & Hfree & Hadj).
    revert s Hhd Hfree Hadj.
    induction p as [|a p IH]; intros s Hhd Hfree Hadj; [done|].
    injection Hhd as ->.
    apply Forall_cons in Hfree as [Hs Hfree]. split; [done|].
    destruct p as [|b p].
    + injection Hlast as ->. apply walk_end.
    + apply Forall_cons in Hfree as [Hb Hfree'].
      apply walk_step with b.
      * by apply (Hadj 0%nat).
      * done.
      * apply IH; try done.
        -- by apply Forall_cons.
        -- intros i x y Hx Hy. by apply (Hadj (S i)).
  - intros [Hs Hw]. induction Hw as [c | a b t p Hab Hb Hw IH].
    + split; [done|]. split; [done|]. split; [by apply Forall_singleton|].
      intros i a b Ha Hb. by destruct i.
    + destruct (IH Hb) as (Hhd & Hlast & Hfree & Hadj).
      split; [done|]. split; [|split].
      * destruct p as [|b' p']; [done|]. by rewrite last_cons_cons.
      * by apply Forall_cons.
      * intros [|i] x y Hx Hy.
        -- injection Hx as <-. cbn in Hy.
           destruct p as [|b' p']; [done|]. injection Hhd as ->.
           by injection Hy as <-.
        -- by apply (Hadj i).
Qed.

(** ** The invariant holds initially and is kept *)

Section Search.
Variable g : Grid.
Variable s : Cell.
Hypothesis Hwf : well_formed g.

Lemma search_inv_init :
  search_inv g s None [] [s] {[s := None]} (λ _, 0%nat) 0.
Proof.
  split.
  - apply lookup_singleton_eq.
  - done.
  - intros c p Hc. apply lookup_singleton_Some in Hc as [_ [=]].
  - intros c Hc. by apply lookup_singleton_Some in Hc as [-> _].
  - intros c ->%list_elem_of_singleton. rewrite lookup_singleton_eq. eauto.
  - apply NoDup_singleton.
  - exists [s], []. split; [done|]. split; [by apply Forall_singleton | done].
  - intros; lia.
  - intros c _. rewrite map_size_singleton. lia.
  - intros c n [x Hc] Hq. apply lookup_singleton_Some in Hc as [<- _].
    exfalso. apply Hq. by left.
  - done.
Qed.

(** Dequeuing: the head of the queue becomes the cell under expansion. *)
Lemma search_inv_pop cur q came lv b :
  search_inv g s None [] (cur :: q) came lv b →
  ∃ b', search_inv g s (Some cur) [] q came lv b'.
Proof.
  intros [Hs Hs0 Hpred Hroot Hq Hnd (qa & qb & Hsplit & Ha & Hb) Hspan Hsize
            Hdone _].
  apply NoDup_cons in Hnd as [Hcur Hnd].
  assert (∃ b' qa' qb', q = qa' ++ qb' ∧ lv cur = b' ∧
            Forall (λ c, lv c = b') qa' ∧ Forall (λ c, lv c = S b') qb' ∧
            (b ≤ b')%nat ∧ (b' ≤ S b)%nat) as
      (b' & qa' & qb' & -> & Hcb & Ha' & Hb' & Hle & Hle').
  { destruct qa as [|x qa].
    - simpl in Hsplit. subst qb. apply Forall_cons in Hb as [Hcb Hb].
      exists (S b), q, []. rewrite app_nil_r. repeat split; try done; lia.
    - injection Hsplit as -> ->. apply Forall_cons in Ha as [Hcb Ha].
      exists b, qa, qb. repeat split; try done; lia. }
  exists b'. split; try done.
  - intros c Hc. apply Hq. by right.
  - by exists qa', qb'.
  - intros c Hc. specialize (Hspan c Hc). lia.
  - intros c n Hc Hcq Hne. apply Hdone; [done | | done].
    intros [-> | ?]%elem_of_cons; [done | done].
  - intros c [= <-]. split; [apply Hq; by left|]. split; [done|].
    split; [done|]. intros d Hd. by apply elem_of_nil in Hd.
Qed.

(** The two outcomes of trying a direction. *)
Lemma visit_cases cur d came q :
  let n := step cur d in
  (visit g cur d came q = Some (<[n := Some cur]> came, q ++ [n]) ∧
     free g n ∧ came !! n = None) ∨
  (visit g cur d came q = Some (came, q) ∧
     (free g n → is_Some (came !! n))).
Proof.
  destruct cur as [cx cy], d as [dx dy]. unfold step, visit. cbn [fst snd].
  case_bool_decide as Hin.
  2: { right. split; [done|]. intros [Hn _]. by destruct Hin. }
  destruct (grid_get_in_grid g (cx + dx) (cy + dy) Hwf) as [v Hv]; [done|].
  rewrite Hv. cbn [mbind option_bind].
  destruct (bool_decide (v = 1)) eqn:Hv1; cbn [andb].
  2: { right. split; [done|]. intros [_ Hn]. cbn [fst snd] in Hn.
       apply bool_decide_eq_false in Hv1. congruence. }
  apply bool_decide_eq_true in Hv1. subst v.
  case_bool_decide as Hnone.
  - left. done.
  - right. split; [done|]. intros _. by apply not_eq_None_Some.
Qed.

(** Discovering a new free cell [n] next to [cur]. *)
Lemma search_inv_insert cur d hd q came lv b :
  let n := step cur d in
  search_inv g s (Some cur) hd q came lv b →
  d ∈ dirs → free g n → came !! n = None →
  search_inv g s (Some cur) (d :: hd) (q ++ [n])
    (<[n := Some cur]> came) (<[n := S (lv cur)]> lv) b.
Proof.
  intros n [Hs Hs0 Hpred Hroot Hq Hnd (qa & qb & Hsplit & Ha & Hb) Hspan
              Hsize Hdone Hcur] Hd Hfree Hnone.
  destruct (Hcur cur eq_refl) as (Hcin & Hcq & Hcb & Hhd).
  assert (∀ c, is_Some (came !! c) → n ≠ c) as Hfresh.
  { intros c [x Hc] ->. congruence. }
  assert (∀ c, is_Some (came !! c) → (<[n := S (lv cur)]> lv) c = lv c) as Hlv.
  { intros c Hc. apply fn_lookup_insert_ne. by apply Hfresh. }
  assert (∀ c, is_Some (came !! c) →
            is_Some (<[n := Some cur]> came !! c)) as Hkeep.
  { intros c Hc. rewrite lookup_insert_ne; [done | by apply Hfresh]. }
  assert (adjacent cur n) as Hadj.
  { apply adjacent_step. by exists d. }
  assert (∀ c, c ∈ q → n ≠ c) as Hnq.
  { intros c Hc. apply Hfresh. by apply Hq. }
  split.
  - rewrite lookup_insert_ne; [done|]. apply Hfresh. eauto.
  - rewrite Hlv; eauto.
  - intros c p. rewrite lookup_insert. case_decide as Hcn.
    + intros [= <-]. subst c. rewrite fn_lookup_insert, Hlv by done.
      split; [by apply Hkeep|]. done.
    + intros Hc. destruct (Hpred c p Hc) as (Hp & Hpc & Hfc & Hl).
      split; [by apply Hkeep|]. split; [done|]. split; [done|].
      rewrite !Hlv; eauto.
  - intros c. rewrite lookup_insert. case_decide; [done | apply Hroot].
  - intros c [Hc | ->%list_elem_of_singleton]%elem_of_app.
    + apply Hkeep. by apply Hq.
    + rewrite lookup_insert_eq. eauto.
  - apply NoDup_app. split; [done|]. split; [|apply NoDup_singleton].
    intros c Hc ->%list_elem_of_singleton. by apply (Hnq n).
  - exists qa, (qb ++ [n]). split; [by rewrite Hsplit, app_assoc|].
    subst q. split.
    + apply Forall_forall. intros c Hc. rewrite Hlv.
      * by apply (proj1 (Forall_forall _ _) Ha).
      * apply Hq. apply elem_of_app. by left.
    + apply Forall_app. split.
      * apply Forall_forall. intros c Hc. rewrite Hlv.
        -- by apply (proj1 (Forall_forall _ _) Hb).
        -- apply Hq. apply elem_of_app. by right.
      * apply Forall_singleton. rewrite fn_lookup_insert. by rewrite Hcb.
  - intros c. rewrite lookup_insert. case_decide as Hcn.
    + intros _. subst c. rewrite fn_lookup_insert. lia.
    + intros Hc. rewrite Hlv by done. by apply Hspan.
  - intros c. rewrite map_size_insert_None by done.
    rewrite lookup_insert. case_decide as Hcn.
    + intros _. subst c. rewrite fn_lookup_insert.
      specialize (Hsize cur Hcin). lia.
    + intros Hc. rewrite Hlv by done. specialize (Hsize c Hc). lia.
  - intros c m. rewrite lookup_insert. case_decide as Hcn.
    { intros _ Hc. exfalso. apply Hc. apply elem_of_app. right. subst c.
      by left. }
    intros Hc Hcq' Hne Hcm Hm.
    destruct (Hdone c m) as [Hmin Hml]; try done.
    { intros Hin. apply Hcq'. apply elem_of_app. by left. }
    split; [by apply Hkeep|]. rewrite !Hlv; done.
  - intros c [= <-]. split; [by apply Hkeep|]. split.
    { intros [Hc | Hc%list_elem_of_singleton]%elem_of_app; [done|].
      by apply (Hfresh cur). }
    split; [by rewrite Hlv|].
    intros d' [-> | Hd']%elem_of_cons Hf.
    + fold n. rewrite lookup_insert_eq. eauto.
    + apply Hhd in Hf; [|done].
      rewrite lookup_insert. case_decide; eauto.
Qed.

(** One direction tried: the state changes only when the neighbour is a new
    free cell, which then joins the queue and the dictionary. *)
Lemma search_inv_visit cur d hd q came lv b :
  search_inv g s (Some cur) hd q came lv b → d ∈ dirs →
  ∃ came' q' lv',
    visit g cur d came q = Some (came', q') ∧
    search_inv g s (Some cur) (d :: hd) q' came' lv' b ∧
    (size came' + length q = size came + length q')%nat.
Proof.
  intros Hinv Hd.
  destruct (visit_cases cur d came q) as [(-> & Hfree & Hnone) | [-> Hknown]].
  - eexists _, _, _. split; [done|]. split.
    + by apply search_inv_insert.
    + rewrite map_size_insert_None by done. rewrite length_app. simpl. lia.
  - exists came, q, lv. split; [done|]. split; [|done].
    destruct Hinv as [Hs Hs0 Hpred Hroot Hq Hnd Hlev Hspan Hsize Hdone Hcur].
    split; try done.
    intros c [= <-]. destruct (Hcur cur eq_refl) as (Hcin & Hcq & Hcb & Hhd).
    split; [done|]. split; [done|]. split; [done|].
    intros d' [-> | Hd']%elem_of_cons; [done | by apply Hhd].
Qed.

(** All four directions tried. *)
Lemma search_inv_expand cur ds hd q came lv b :
  search_inv g s (Some cur) hd q came lv b → (∀ d, d ∈ ds → d ∈ dirs) →
  ∃ came' q' lv',
    expand g cur ds came q = Some (came', q') ∧
    search_inv g s (Some cur) (reverse ds ++ hd) q' came' lv' b ∧
    (size came' + length q = size came + length q')%nat.
Proof.
  revert hd q came lv.
  induction ds as [|d ds IH]; intros hd q came lv Hinv Hds; simpl.
  { exists came, q, lv. done. }
  destruct (search_inv_visit cur d hd q came lv b Hinv)
    as (came1 & q1 & lv1 & -> & Hinv1 & Hm1).
  { apply Hds. by left. }
  cbn [mbind option_bind].
  destruct (IH (d :: hd) q1 came1 lv1 Hinv1) as (came2 & q2 & lv2 & -> & Hinv2 & Hm2).
  { intros d' Hd'. apply Hds. by right. }
  exists came2, q2, lv2. split; [done|]. split; [|lia].
  by rewrite reverse_cons, <- app_assoc.
Qed.

(** When every direction has been tried the expanded cell is finished. *)
Lemma search_inv_finish cur hd q came lv b :
  search_inv g s (Some cur) hd q came lv b → (∀ d, d ∈ dirs → d ∈ hd) →
  search_inv g s None [] q came lv b.
Proof.
  intros [Hs Hs0 Hpred Hroot Hq Hnd Hlev Hspan Hsize Hdone Hcur] Hall.
  destruct (Hcur cur eq_refl) as (Hcin & Hcq & Hcb & Hhd).
  split; try done.
  intros c n Hc Hcq' _ Hadj Hfree.
  destruct (decide (c = cur)) as [-> | Hne].
  - apply adjacent_step in Hadj as (d & Hd & ->).
    assert (is_Some (came !! step cur d)) as Hn by (apply Hhd; auto).
    split; [done|]. rewrite Hcb. by apply Hspan.
  - apply Hdone; try done. congruence.
Qed.

End Search.

Lemma all_cells_NoDup : NoDup all_cells.
Proof. apply (bool_decide_unpack (NoDup all_cells)). by vm_compute. Qed.

Lemma trace_None (fuel : nat) (came : gmap Cell (option Cell)) (path : list Cell) :
  trace fuel came None path = Some path.
Proof. by destruct fuel. Qed.

Section SearchLoop.
Variable g : Grid.
Variable s : Cell.
Hypothesis Hwf : well_formed g.

(** The dictionary never holds more than the cells of the grid and the
    start. *)
Lemma search_inv_size cur hd q came lv b :
  search_inv g s cur hd q came lv b → (size came ≤ 397)%nat.
Proof.
  intros Hinv.
  assert (dom came ⊆ {[s]} ∪ list_to_set all_cells) as Hsub.
  { intros c [x Hc]%elem_of_dom. destruct x as [p|].
    - destruct (si_pred _ _ _ _ _ _ _ _ Hinv c p Hc) as (_ & _ & [Hin _] & _).
      apply elem_of_union. right. apply elem_of_list_to_set.
      by apply elem_of_all_cells.
    - apply (si_root _ _ _ _ _ _ _ _ Hinv) in Hc as ->.
      apply elem_of_union. left. by apply elem_of_singleton. }
  apply subseteq_size in Hsub. rewrite size_dom in Hsub.
  rewrite size_union_alt, size_singleton in Hsub.
  assert (size (list_to_set all_cells ∖ {[s]} : gset Cell) ≤ 396)%nat; [|lia].
  etrans; [apply subseteq_size, subseteq_difference_l; reflexivity|].
  rewrite size_list_to_set by apply all_cells_NoDup.
  by vm_compute.
Qed.

(** The loop ends within its fuel, with the invariant, and with the queue
    empty or the goal at its head. *)
Lemma bfs_loop_spec goal fuel q came lv b :
  search_inv g s None [] q came lv b →
  (length q + (397 - size came) < fuel)%nat →
  ∃ came' q' lv' b',
    bfs_loop fuel g goal q came = Some came' ∧
    search_inv g s None [] q' came' lv' b' ∧
    (q' = [] ∨ head q' = Some goal).
Proof.
  revert q came lv b.
  induction fuel as [|fuel IH]; intros q came lv b Hinv Hm; [lia|].
  destruct q as [|cur q]; cbn [bfs_loop].
  { exists came, [], lv, b. split; [done|]. split; [done | by left]. }
  case_bool_decide as Hgoal.
  { exists came, (cur :: q), lv, b. split; [done|]. split; [done|].
    right. by subst. }
  destruct (search_inv_pop g s cur q came lv b Hinv) as [b' Hpop].
  destruct (search_inv_expand g s Hwf cur dirs [] q came lv b' Hpop)
    as (came1 & q1 & lv1 & -> & Hexp & Hsz); [done|].
  cbn [mbind option_bind].
  assert (search_inv g s None [] q1 came1 lv1 b') as Hinv1.
  { eapply search_inv_finish; [done|].
    intros d Hd. rewrite app_nil_r. by apply elem_of_reverse. }
  pose proof (search_inv_size _ _ _ _ _ _ Hinv1) as Hb1.
  pose proof (search_inv_size _ _ _ _ _ _ Hinv) as Hb0.
  apply (IH q1 came1 lv1 b' Hinv1). simpl in Hm. lia.
Qed.

(** Every queued cell is at least as deep as the head of the queue. *)
Lemma search_inv_head goal q came lv b :
  search_inv g s None [] q came lv b →
  q = [] ∨ head q = Some goal →
  ∀ c, c ∈ q → (lv goal ≤ lv c)%nat.
Proof.
  intros Hinv [-> | Hhead] c Hc; [by apply elem_of_nil in Hc|].
  destruct (si_levels _ _ _ _ _ _ _ _ Hinv) as (qa & qb & -> & Ha & Hb).
  rewrite Forall_forall in Ha. rewrite Forall_forall in Hb.
  assert (∀ x, x ∈ qa ++ qb → lv x = b ∨ lv x = S b) as Hlv.
  { intros x [Hx | Hx]%elem_of_app; [left; by apply Ha | right; by apply Hb]. }
  destruct qa as [|x qa].
  - simpl in *. assert (lv goal = S b) as ->.
    { apply Hb. destruct qb; [done|]. injection Hhead as ->. by left. }
    rewrite (Hb c Hc). lia.
  - injection Hhead as ->. assert (lv goal = b) as -> by (apply Ha; by left).
    destruct (Hlv c Hc); lia.
Qed.

(** No walk to the goal is shorter than the goal's depth. *)
Lemma search_inv_shortest goal q came lv b a p :
  search_inv g s None [] q came lv b →
  q = [] ∨ head q = Some goal →
  walk g a goal p → is_Some (came !! a) →
  (lv goal + 1 ≤ lv a + length p)%nat.
Proof.
  intros Hinv Hq Hw. induction Hw as [c | x y t p Hxy Hy Hw IH]; intros Ha.
  { simpl. lia. }
  destruct (decide (lv t ≤ lv x)%nat) as [Hle | Hlt].
  { pose proof (walk_length _ _ _ _ Hw). simpl. lia. }
  assert (x ∉ q) as Hxq.
  { intros Hx. apply Hlt. by eapply search_inv_head. }
  destruct (si_done _ _ _ _ _ _ _ _ Hinv x y Ha Hxq) as [Hyin Hyl];
    [done.. |].
  specialize (IH Hq Hyin). simpl. lia.
Qed.

(** With the queue empty, what the dictionary holds is closed under
    walks. *)
Lemma search_inv_closed came lv b a t p :
  search_inv g s None [] [] came lv b →
  walk g a t p → is_Some (came !! a) → is_Some (came !! t).
Proof.
  intros Hinv Hw. induction Hw as [c | x y t p Hxy Hy Hw IH]; intros Ha;
    [done|].
  apply IH.
  destruct (si_done _ _ _ _ _ _ _ _ Hinv x y Ha) as [Hyin _]; try done.
  apply not_elem_of_nil.
Qed.

(** The reconstruction follows the predecessors back to the start. *)
Lemma trace_spec cur hd q came lv b fuel c acc :
  search_inv g s cur hd q came lv b →
  is_Some (came !! c) → (lv c < fuel)%nat →
  ∃ ch, trace fuel came (Some c) acc = Some (acc ++ ch) ∧
        length ch = S (lv c) ∧ walk g s c (reverse ch).
Proof.
  intros Hinv. revert c acc.
  induction fuel as [|fuel IH]; intros c acc [x Hc] Hlt; [lia|].
  simpl. rewrite Hc. cbn [mbind option_bind].
  destruct x as [p|].
  - destruct (si_pred _ _ _ _ _ _ _ _ Hinv c p Hc) as (Hp & Hadj & Hfree & Hl).
    destruct (IH p (acc ++ [c]) Hp) as (ch & -> & Hlen & Hw); [lia|].
    exists (c :: ch). split; [by rewrite <- app_assoc|].
    split; [simpl; lia|].
    rewrite reverse_cons. by eapply walk_snoc.
  - apply (si_root _ _ _ _ _ _ _ _ Hinv) in Hc as ->.
    rewrite trace_None. exists [s]. split; [done|].
    rewrite (si_start_lv _ _ _ _ _ _ _ _ Hinv). split; [done|].
    apply walk_end.
Qed.

(** What [bfs_path] returns for distinct endpoints: it raises nothing; the
    answer [None] means that no walk leads from the start to the goal; a
    path is a walk from the start to the goal that no walk undercuts. *)
Lemma bfs_path_spec goal :
  s ≠ goal →
  (bfs_path g s goal = Some None ∧ ∀ p, ¬ walk g s goal p) ∨
  (∃ path, bfs_path g s goal = Some (Some path) ∧ walk g s goal path ∧
     ∀ p, walk g s goal p → (length path ≤ length p)%nat).
Proof.
  intros Hne. unfold bfs_path. rewrite bool_decide_eq_false_2 by done.
  destruct (bfs_loop_spec goal bfs_fuel [s] {[s := None]} (λ _, 0%nat) 0%nat)
    as (came & q & lv & b & -> & Hinv & Hq).
  { apply search_inv_init. }
  { rewrite map_size_singleton. by vm_compute. }
  cbn [mbind option_bind].
  pose proof (si_start _ _ _ _ _ _ _ _ Hinv) as Hs.
  case_bool_decide as Hgoal.
  - left. split; [done|]. intros p Hw.
    destruct Hq as [-> | Hhead].
    + assert (is_Some (came !! goal)) as [x Hx].
      { eapply search_inv_closed; [done | done | by eauto]. }
      congruence.
    + assert (is_Some (came !! goal)) as [x Hx].
      { apply (si_queued _ _ _ _ _ _ _ _ Hinv).
        destruct q; [done|]. injection Hhead as ->. by left. }
      congruence.
  - right. apply not_eq_None_Some in Hgoal.
    destruct (trace_spec _ _ _ _ _ _ (size came) goal [] Hinv Hgoal)
      as (ch & -> & Hlen & Hw).
    { by apply (si_size _ _ _ _ _ _ _ _ Hinv). }
    cbn [mbind option_bind]. simpl.
    exists (reverse ch). split; [done|]. split; [done|].
    intros p Hp. rewrite length_reverse, Hlen.
    assert (is_Some (came !! s)) as Hsin by eauto.
    pose proof (search_inv_shortest goal q came lv b s p Hinv Hq Hp Hsin)
      as Hmin.
    rewrite (si_start_lv _ _ _ _ _ _ _ _ Hinv) in Hmin. lia.
Qed.

End SearchLoop.

(** ** The generator: spawn, exit, border and difficulty *)

(** C1.  The claim asks for the spawn cell (1, 1) and the exit cell
    (GRID_COLS-2, GRID_ROWS-2) to be free in every generated grid.  The code
    frees the spawn cell, but on every level and for every random choice the
    exit cell of the grid it returns is a wall: both coordinates of the exit
    are even, the walk carves cells with an odd coordinate only, and the
    post-process, which skips the exit, never frees a cell. *)
Theorem generate_maze_exit_is_wall (lvl : Z) (r : Rng) :
  ∃ g r', generate_maze lvl r = Some (g, r') ∧
    grid_get g spawn_cell.1 spawn_cell.2 = Some 1 ∧
    grid_get g exit_cell.1 exit_cell.2 = Some 0.
Proof.
  destruct (generate_maze_spec lvl r) as (g & r' & Hg & _ & Hspawn & _ & Heven).
  exists g, r'. split; [done|]. split; [done|].
  apply Heven; [|done..].
  unfold in_grid, exit_cell, GRID_COLS, GRID_ROWS. cbn [fst snd]. lia.
Qed.

(** C9.  On every level and for every random choice [generate_maze] returns
    a grid, and every cell of its outermost ring (row 0, row GRID_ROWS-1,
    column 0, column GRID_COLS-1) is a wall. *)
Theorem generate_maze_border_is_wall (lvl : Z) (r : Rng) :
  ∃ g r', generate_maze lvl r = Some (g, r') ∧
    ∀ c, on_border c → grid_get g c.1 c.2 = Some 0.
Proof.
  destruct (generate_maze_spec lvl r) as (g & r' & Hg & _ & _ & Hborder & _).
  by exists g, r'.
Qed.

Lemma generate_maze_border_is_wall_witness :
  ∃ g r', generate_maze 7 (rng_mix 5) = Some (g, r') ∧
    on_border (21, 9) ∧ grid_get g 21 9 = Some 0.
Proof.
  destruct (generate_maze_border_is_wall 7 (rng_mix 5)) as (g & r' & Hg & Hb).
  exists g, r'. split; [exact Hg|].
  assert (on_border (21, 9)) as H.
  { unfold on_border, in_grid, GRID_COLS, GRID_ROWS. cbn [fst snd]. lia. }
  split; [exact H | exact (Hb (21, 9) H)].
Defined.

(** [randint(1, 100)] draws from 1 to 100. *)
Lemma randint_percent_range (r : Rng) : 1 ≤ (randint 1 100 r).1 ≤ 100.
Proof.
  unfold randint.
  pose proof (randbelow_lt (Z.to_nat (100 - 1 + 1)) r) as Hlt.
  destruct (randbelow (Z.to_nat (100 - 1 + 1)) r) as [k r'].
  cbn [fst] in *. lia.
Qed.

Lemma filter_all {A} (P : A → Prop) `{!∀ x, Decision (P x)} (l : list A) :
  Forall P l → filter P l = l.
Proof.
  induction 1 as [|x l Hx Hl IH]; [done|].
  by rewrite filter_cons_True, IH.
Qed.

Lemma filter_none {A} (P : A → Prop) `{!∀ x, Decision (P x)} (l : list A) :
  Forall (λ x, ¬ P x) l → filter P l = [].
Proof.
  induction 1 as [|x l Hx Hl IH]; [done|].
  by rewrite filter_cons_False, IH.
Qed.

Lemma extra_block_chance_range (lvl : Z) :
  1 ≤ lvl → 3 ≤ extra_block_chance lvl ≤ 35.
Proof.
  intros Hl. unfold extra_block_chance.
  assert (0 ≤ (lvl - 1) / 3) by (apply Z.div_pos; lia). lia.
Qed.

(** Of the hundred draws, those from 1 to the chance turn a cell into a
    wall. *)
Lemma reblock_percent_chance (lvl : Z) :
  1 ≤ lvl → reblock_percent lvl = extra_block_chance lvl.
Proof.
  intros Hl. pose proof (extra_block_chance_range lvl Hl) as Hc.
  unfold reblock_percent, reblocks.
  set (c := extra_block_chance lvl) in *.
  replace 100 with (c + (100 - c)) by lia.
  rewrite seqZ_app, filter_app, length_app by lia.
  rewrite filter_all, filter_none.
  - rewrite length_seqZ. simpl. lia.
  - apply Forall_forall. intros d Hd%elem_of_seqZ.
    intros Hle%bool_decide_eq_true. lia.
  - apply Forall_forall. intros d Hd%elem_of_seqZ.
    apply bool_decide_eq_true. lia.
Qed.

(** The chance as the number of re-blocking outcomes of a draw: it follows
    the ramp min(35, 3 + floor((L-1)/3)), steps up every three levels and
    is capped at 35. *)
Lemma reblock_percent_steps (L : Z) :
  1 ≤ L →
  reblock_percent L = extra_block_chance L ∧
  reblock_percent L = Z.min 35 (3 + 1 * ((L - 1) / 3)) ∧
  reblock_percent L ≤ reblock_percent (L + 3) ∧
  reblock_percent L ≤ 35.
Proof.
  intros HL. rewrite !reblock_percent_chance by lia.
  pose proof (extra_block_chance_range L HL) as Hr.
  unfold extra_block_chance in *.
  replace (L + 3 - 1) with ((L - 1) + 1 * 3) by lia.
  rewrite Z.div_add by lia.
  split; [|split; [|split]]; lia.
Qed.

(** The ramp at a few levels: 3% on levels 1 to 3, 4% on level 4, 35% from
    level 97 on. *)
Example extra_block_chance_values :
  extra_block_chance <$> [1; 3; 4; 50; 96; 97; 100]
  = [3; 3; 4; 19; 34; 35; 35].
Proof. reflexivity. Qed.

(** ** The path finder: shortest routes and bad endpoints *)

Lemma walk_last_free (g : Grid) (a t : Cell) (p : list Cell) :
  walk g a t p → a ≠ t → free g t.
Proof.
  induction 1 as [c | x y t p Hxy Hy Hw IH]; intros Hne; [done|].
  destruct (decide (y = t)) as [<- | Hyt]; [done | by apply IH].
Qed.

Lemma grid_of_well_formed (f : Cell → bool) : well_formed (grid_of f).
Proof.
  split.
  - unfold grid_of. rewrite length_fmap, length_seqZ. done.
  - unfold grid_of. apply Forall_fmap, Forall_forall. intros y _.
    unfold compose. rewrite length_fmap, length_seqZ. done.
Qed.

(** C7.  For every grid of the game and all free cells [s] and [t] inside
    it, [bfs_path] raises nothing and returns either a path from [s] to [t]
    through free cells, consecutive cells 4-adjacent, which no other such
    path undercuts in length, or "no path" when there is none; when [s]
    equals [t] it returns exactly [[s]]. *)
Theorem bfs_path_shortest_route (g : Grid) (s t : Cell) :
  well_formed g → free g s → free g t →
  (s = t → bfs_path g s t = Some (Some [s])) ∧
  match bfs_path g s t with
  | Some (Some p) =>
      route g s t p ∧ ∀ p', route g s t p' → (length p ≤ length p')%nat
  | Some None => ∀ p', ¬ route g s t p'
  | None => False
  end.
Proof.
  intros Hwf Hs Ht.
  destruct (decide (s = t)) as [<- | Hne].
  - assert (bfs_path g s s = Some (Some [s])) as Heq.
    { unfold bfs_path. by rewrite bool_decide_eq_true_2. }
    split; [done|]. rewrite Heq. split.
    + apply route_walk. split; [done | apply walk_end].
    + intros p' [_ Hw]%route_walk. apply walk_length in Hw. simpl. lia.
  - split; [done|].
    destruct (bfs_path_spec g s Hwf t Hne)
      as [[-> Hnone] | (path & -> & Hw & Hmin)].
    + intros p' [_ Hw]%route_walk. by eapply Hnone.
    + split; [by apply route_walk|].
      intros p' [_ Hw']%route_walk. by apply Hmin.
Qed.

Lemma bfs_path_shortest_route_witness :
  well_formed corridor_grid ∧ free corridor_grid (1, 1) ∧
  free corridor_grid (5, 1) ∧
  ((1, 1) = (5, 1) → bfs_path corridor_grid (1, 1) (5, 1) = Some (Some [(1, 1)])) ∧
  match bfs_path corridor_grid (1, 1) (5, 1) with
  | Some (Some p) =>
      route corridor_grid (1, 1) (5, 1) p ∧
      ∀ p', route corridor_grid (1, 1) (5, 1) p' → (length p ≤ length p')%nat
  | Some None => ∀ p', ¬ route corridor_grid (1, 1) (5, 1) p'
  | None => False
  end.
Proof.
  assert (well_formed corridor_grid) as Hwf by apply grid_of_well_formed.
  assert (free corridor_grid (1, 1)) as Hs.
  { split; [unfold in_grid, GRID_COLS, GRID_ROWS; simpl; lia | reflexivity]. }
  assert (free corridor_grid (5, 1)) as Ht.
  { split; [unfold in_grid, GRID_COLS, GRID_ROWS; simpl; lia | reflexivity]. }
  split; [exact Hwf|]. split; [exact Hs|]. split; [exact Ht|].
  exact (bfs_path_shortest_route corridor_grid (1, 1) (5, 1) Hwf Hs Ht).
Defined.

(** The corridor of the specification's test: five cells in order. *)
Example bfs_path_corridor :
  bfs_path corridor_grid (1, 1) (5, 1)
  = Some (Some [(1, 1); (2, 1); (3, 1); (4, 1); (5, 1)]).
Proof. by vm_compute. Qed.

(** A goal walled in on all sides is not reached. *)
Example bfs_path_enclosed_goal :
  bfs_path corner_grid (1, 1) (5, 5) = Some None.
Proof. by vm_compute. Qed.

(** C3, as stated, fails: a start on a wall cell, or outside the grid, is
    not answered with "no path".  On [corner_grid] the wall cell (0, 1) is a
    start from which a path to (1, 1) is returned, and a start outside the
    grid that equals the goal is returned as a one-cell path. *)
Lemma bfs_path_bad_start_counterexample :
  well_formed corner_grid ∧
  grid_get corner_grid 0 1 = Some 0 ∧
  bfs_path corner_grid (0, 1) (1, 1) = Some (Some [(0, 1); (1, 1)]) ∧
  ¬ in_grid (-1, 1) ∧
  bfs_path corner_grid (-1, 1) (-1, 1) = Some (Some [(-1, 1)]).
Proof.
  split; [apply grid_of_well_formed|].
  split; [by vm_compute|]. split; [by vm_compute|].
  split; [|by vm_compute].
  unfold in_grid. cbn [fst snd]. lia.
Qed.

(** C3, amended.  On every grid of the game [bfs_path] raises nothing for
    any start and goal; when they differ and the goal is outside the grid or
    on a wall it returns "no path"; when they are equal it returns the
    one-cell path, whatever the cell is.  A start that is outside the grid
    or on a wall is searched from like any other. *)
Theorem bfs_path_bad_goal (g : Grid) (s t : Cell) :
  well_formed g →
  (∃ res, bfs_path g s t = Some res) ∧
  (s ≠ t → ¬ free g t → bfs_path g s t = Some None) ∧
  (s = t → bfs_path g s t = Some (Some [s])).
Proof.
  intros Hwf.
  assert (s = t → bfs_path g s t = Some (Some [s])) as Heq.
  { intros <-. unfold bfs_path. by rewrite bool_decide_eq_true_2. }
  destruct (decide (s = t)) as [Hst | Hne].
  { split; [|split]; eauto. done. }
  destruct (bfs_path_spec g s Hwf t Hne)
    as [[Hres Hnone] | (path & Hres & Hw & Hmin)].
  - split; [|split]; eauto.
  - split; [eauto|]. split; [|done].
    intros _ Hwall. destruct Hwall. by eapply walk_last_free.
Qed.

Lemma bfs_path_bad_goal_witness :
  well_formed corner_grid ∧ (1, 1) ≠ (2, 2) ∧ ¬ free corner_grid (2, 2) ∧
  bfs_path corner_grid (1, 1) (2, 2) = Some None.
Proof.
  assert (well_formed corner_grid) as Hwf by apply grid_of_well_formed.
  assert (((1, 1) : Cell) ≠ (2, 2)) as Hne by (intros [=]).
  assert (¬ free corner_grid (2, 2)) as Hwall.
  { intros [_ H]. vm_compute in H. discriminate H. }
  split; [exact Hwf|]. split; [exact Hne|]. split; [exact Hwall|].
  exact (proj1 (proj2 (bfs_path_bad_goal corner_grid (1, 1) (2, 2) Hwf))
           Hne Hwall).
Defined.

(** ** Collision sampling and per-axis motion *)

Lemma pixel_to_grid_in_grid (px py : Z) : in_grid (pixel_to_grid px py).
Proof.
  unfold pixel_to_grid, in_grid, GRID_COLS, GRID_ROWS. cbn [fst snd]. lia.
Qed.

Lemma pixel_to_grid_in_bounds (px py : Z) :
  cell_in_bounds (pixel_to_grid px py) = true.
Proof. apply bool_decide_eq_true. apply pixel_to_grid_in_grid. Qed.



Lemma corners_free_wall (g : Grid) (cs : list (Z * Z)) (p : Z * Z) :
  well_formed g → p ∈ cs → sampled g p = Some 0 →
  corners_free g cs = Some false.
Proof.
  intros Hwf Hp Hs. induction cs as [|[cx cy] cs IH].
  { by apply elem_of_nil in Hp. }
  cbn [corners_free]. rewrite pixel_to_grid_in_bounds. cbn [negb].
  destruct (grid_get_in_grid g (pixel_to_grid cx cy).1 (pixel_to_grid cx cy).2)
    as [v Hv]; [done | apply pixel_to_grid_in_grid |].
  rewrite Hv. cbn [mbind option_bind]. case_bool_decide as Hv0; [done|].
  apply elem_of_cons in Hp as [-> | Hp]; [|by apply IH].
  unfold sampled in Hs. cbn [fst snd] in Hs. congruence.
Qed.

Lemma grid_of_get (f : Cell → bool) (x y : Z) :
  in_grid (x, y) → grid_get (grid_of f) x y = Some (if f (x, y) then 1 else 0).
Proof.
  intros [Hx Hy]. cbn [fst snd] in *. unfold grid_get, grid_of.
  unfold GRID_COLS, GRID_ROWS in *.
  rewrite py_get_nonneg by (rewrite length_fmap, length_seqZ; lia).
  rewrite list_lookup_fmap, (lookup_seqZ_lt 0 18 (Z.to_nat y)) by lia.
  cbn [fmap option_fmap option_map mbind option_bind].
  rewrite py_get_nonneg by (rewrite length_fmap, length_seqZ; lia).
  rewrite list_lookup_fmap, (lookup_seqZ_lt 0 22 (Z.to_nat x)) by lia.
  cbn [fmap option_fmap option_map].
  replace (0 + Z.of_nat (Z.to_nat x)) with x by lia.
  by replace (0 + Z.of_nat (Z.to_nat y)) with y by lia.
Qed.


Lemma room_grid_border (c : Cell) :
  on_border c → grid_get room_grid c.1 c.2 = Some 0.
Proof.
  intros [Hin Hb]. destruct c as [x y]. cbn [fst snd] in *.
  unfold room_grid. rewrite grid_of_get by done.
  rewrite bool_decide_eq_false_2; [done|].
  unfold GRID_COLS, GRID_ROWS in *. cbn [fst snd]. lia.
Qed.


(** *** Per-axis motion *)

(** The player: both axis tests are made against the position before the
    move, and each coordinate moves exactly when its own test passes; an
    illegal move on one axis does not stop the other. *)
Lemma move_player_axis_resolution (self : MazeRunner) (dx dy : Z)
    (ok_x ok_y : bool) :
  can_move_to self ((player_pos self).1 + dx) (player_pos self).2 = Some ok_x →
  can_move_to self (player_pos self).1 ((player_pos self).2 + dy) = Some ok_y →
  move_player self (Some (dx, dy))
  = Some (set_player_pos
            (resolve_independent ok_x ok_y (player_pos self)
               ((player_pos self).1 + dx, (player_pos self).2 + dy)) self).
Proof.
  intros Hx Hy. unfold move_player. rewrite Hx. cbn [mbind option_bind].
  rewrite Hy. cbn [mbind option_bind]. unfold resolve_independent.
  destruct self as [lvl lvs st g [px py] epos pc ec].
  by destruct ok_x, ok_y.
Qed.

(** On [corner_grid], from pixel (86, 118), the player slides: a step
    (2, 2) into the wall cell (2, 2) is legal on each axis alone, and the
    player ends at (88, 120). *)
Example move_player_slides :
  let self := game_at corner_grid 1 3 (86, 118) in
  can_move_to self (86 + 2) 118 = Some true ∧
  can_move_to self 86 (118 + 2) = Some true ∧
  player_pos <$> move_player self (Some (2, 2)) = Some (88, 120).
Proof. by vm_compute. Qed.

(** *** The test on numbers of either kind *)

Lemma py_min_int (a b : Z) : py_min (PyInt a) (PyInt b) = PyInt (Z.min a b).
Proof.
  unfold py_min, num_lt. case_bool_decide; f_equal; lia.
Qed.

Lemma py_max_int (a b : Z) : py_max (PyInt a) (PyInt b) = PyInt (Z.max a b).
Proof.
  unfold py_max, num_lt. case_bool_decide; f_equal; lia.
Qed.

Lemma pixel_to_grid_num_int (px py : Z) :
  pixel_to_grid_num (PyInt px) (PyInt py)
  = Some (PyInt (pixel_to_grid px py).1, PyInt (pixel_to_grid px py).2).
Proof.
  unfold pixel_to_grid_num, pixel_to_grid, num_sub, num_floordiv.
  cbn [mbind option_bind].
  rewrite !bool_decide_eq_false_2 by done. cbn [mbind option_bind fst snd].
  by rewrite !py_min_int, !py_max_int.
Qed.

Lemma cell_in_bounds_num_int (c : Cell) :
  cell_in_bounds_num (PyInt c.1, PyInt c.2) = cell_in_bounds c.
Proof.
  unfold cell_in_bounds_num, cell_in_bounds, num_le, num_lt. cbn [fst snd].
  repeat case_bool_decide; try done; lia.
Qed.

Lemma corners_free_num_int (g : Grid) (cs : list (Z * Z)) :
  corners_free_num g ((λ p, (PyInt p.1, PyInt p.2)) <$> cs)
  = corners_free g cs.
Proof.
  induction cs as [|[cx cy] cs IH]; [done|].
  cbn [fmap list_fmap corners_free_num corners_free fst snd].
  rewrite pixel_to_grid_num_int. cbn [mbind option_bind].
  rewrite (cell_in_bounds_num_int (pixel_to_grid cx cy)).
  destruct (negb (cell_in_bounds (pixel_to_grid cx cy))); [done|].
  cbn [fst snd py_get_num]. unfold grid_get.
  destruct (py_get g (pixel_to_grid cx cy).2) as [row|];
    cbn [mbind option_bind]; [|done].
  destruct (py_get row (pixel_to_grid cx cy).1) as [v|];
    cbn [mbind option_bind]; [|done].
  case_bool_decide; [done|]. apply IH.
Qed.

(** On [int]s, [can_move_to_num] is [can_move_to]. *)
Lemma can_move_to_num_int (self : MazeRunner) (px py : Z) :
  can_move_to_num self (PyInt px) (PyInt py) = can_move_to self px py.
Proof.
  unfold can_move_to_num, can_move_to, corners_num, num_add, num_sub.
  cbn [mbind option_bind].
  apply (corners_free_num_int (grid self) (corners px py)).
Qed.

(** A sum or difference with a [float] is a [float], if it is anything. *)
Lemma num_add_float (f : float) (b : Num) :
  num_add (PyFloat f) b = None ∨ ∃ f', num_add (PyFloat f) b = Some (PyFloat f').
Proof.
  unfold num_add. cbn [to_float mbind option_bind].
  destruct (to_float b); cbn [mbind option_bind]; eauto.
Qed.

Lemma num_add_float_r (a : Z) (f : float) :
  num_add (PyInt a) (PyFloat f) = None ∨
  ∃ f', num_add (PyInt a) (PyFloat f) = Some (PyFloat f').
Proof.
  unfold num_add. cbn [to_float mbind option_bind].
  destruct (float_of_int a); cbn [mbind option_bind]; eauto.
Qed.

Lemma num_sub_float (f : float) (b : Num) :
  num_sub (PyFloat f) b = None ∨ ∃ f', num_sub (PyFloat f) b = Some (PyFloat f').
Proof.
  unfold num_sub. cbn [to_float mbind option_bind].
  destruct (to_float b); cbn [mbind option_bind]; eauto.
Qed.

Lemma num_floordiv_float (f : float) (n : Z) :
  num_floordiv (PyFloat f) n = None ∨
  ∃ f', num_floordiv (PyFloat f) n = Some (PyFloat f').
Proof.
  unfold num_floordiv. case_bool_decide; [by left|].
  destruct (float_of_int n); cbn [mbind option_bind]; eauto.
Qed.

Lemma num_floordiv_tile (x : Z) :
  num_floordiv (PyInt x) TILE = Some (PyInt (x / TILE)).
Proof. done. Qed.

(** Clamping a [float] leaves the [float] or one of the two bounds. *)
Lemma clamp_float (lo hi : Z) (f : float) :
  lo ≤ hi →
  py_max (PyInt lo) (py_min (PyInt hi) (PyFloat f)) = PyFloat f ∨
  py_max (PyInt lo) (py_min (PyInt hi) (PyFloat f)) = PyInt lo ∨
  py_max (PyInt lo) (py_min (PyInt hi) (PyFloat f)) = PyInt hi.
Proof.
  intros Hle. unfold py_min.
  destruct (num_lt (PyFloat f) (PyInt hi)).
  - unfold py_max. destruct (num_lt (PyInt lo) (PyFloat f)); auto.
  - right. right. rewrite py_max_int. f_equal. lia.
Qed.

(** The column of a [float] pixel is a [float], column 0 or the last
    column; likewise for rows. *)
Lemma pixel_to_grid_num_float_x (f : float) (py : Z) :
  pixel_to_grid_num (PyFloat f) (PyInt py) = None ∨
  ∃ gx, pixel_to_grid_num (PyFloat f) (PyInt py)
        = Some (gx, PyInt (pixel_to_grid 0 py).2) ∧
        ((∃ q, gx = PyFloat q) ∨ gx = PyInt 0 ∨ gx = PyInt (GRID_COLS - 1)).
Proof.
  unfold pixel_to_grid_num.
  destruct (num_sub_float f (PyInt OFFSET_X)) as [-> | [d ->]]; [by left|].
  cbn [mbind option_bind].
  destruct (num_floordiv_float d TILE) as [-> | [q ->]]; [by left|].
  cbn [mbind option_bind]. unfold num_sub, num_floordiv.
  rewrite !bool_decide_eq_false_2 by done. cbn [mbind option_bind].
  right. eexists. split.
  - rewrite py_min_int, py_max_int. reflexivity.
  - destruct (clamp_float 0 (GRID_COLS - 1) q) as [-> | [-> | ->]];
      [done | eauto..].
Qed.

Lemma pixel_to_grid_num_float_y (px : Z) (f : float) :
  pixel_to_grid_num (PyInt px) (PyFloat f) = None ∨
  ∃ gy, pixel_to_grid_num (PyInt px) (PyFloat f)
        = Some (PyInt (pixel_to_grid px 0).1, gy) ∧
        ((∃ q, gy = PyFloat q) ∨ gy = PyInt 0 ∨ gy = PyInt (GRID_ROWS - 1)).
Proof.
  unfold pixel_to_grid_num.
  change (num_sub (PyInt px) (PyInt OFFSET_X)) with (Some (PyInt (px - OFFSET_X))).
  cbn [mbind option_bind]. rewrite num_floordiv_tile.
  cbn [mbind option_bind].
  destruct (num_sub_float f (PyInt OFFSET_Y)) as [-> | [d ->]]; [by left|].
  cbn [mbind option_bind].
  destruct (num_floordiv_float d TILE) as [-> | [q ->]]; [by left|].
  cbn [mbind option_bind].
  right. eexists. split.
  - rewrite py_min_int, py_max_int. reflexivity.
  - destruct (clamp_float 0 (GRID_ROWS - 1) q) as [-> | [-> | ->]];
      [done | eauto..].
Qed.

(** With a [float] as its X argument [can_move_to] never returns [True] on
    a grid of the fixed size whose border is wall: the first corner has a
    [float] column, which raises TypeError as an index, or it is clamped
    onto the wall of column 0 or of the last column. *)
Lemma can_move_to_num_float_x (self : MazeRunner) (f : float) (py : Z) :
  well_formed (grid self) → bordered (grid self) →
  can_move_to_num self (PyFloat f) (PyInt py) ≠ Some true.
Proof.
  intros Hwf Hb. unfold can_move_to_num, corners_num.
  destruct (num_add_float f (PyInt 2)) as [-> | [x1 ->]]; [done|].
  cbn [mbind option_bind].
  change (num_add (PyInt py) (PyInt 2)) with (Some (PyInt (py + 2))).
  cbn [mbind option_bind].
  destruct (num_add_float f (PyInt PLAYER_SIZE)) as [-> | [xw ->]]; [done|].
  cbn [mbind option_bind].
  destruct (num_sub_float xw (PyInt 2)) as [-> | [x2 ->]]; [done|].
  cbn [mbind option_bind num_add num_sub corners_free_num].
  destruct (pixel_to_grid_num_float_x x1 (py + 2))
    as [-> | (gx & -> & Hgx)]; [done|].
  cbn [mbind option_bind fst snd].
  destruct (negb _); [done|].
  pose proof (pixel_to_grid_in_grid 0 (py + 2)) as [_ Hy].
  set (gy := (pixel_to_grid 0 (py + 2)).2) in *.
  cbn [py_get_num].
  destruct Hgx as [[q ->] | Hgx].
  { cbn [py_get_num]. by destruct (py_get (grid self) gy). }
  assert (∃ x, gx = PyInt x ∧ grid_get (grid self) x gy = Some 0)
    as (x & -> & Hx).
  { destruct Hgx as [-> | ->]; eexists; (split; [done|]).
    - apply (Hb (0, gy)). split; [|by left].
      split; [done | exact Hy].
    - apply (Hb (GRID_COLS - 1, gy)). split; [|by right; left].
      split; [done | exact Hy]. }
  cbn [py_get_num]. unfold grid_get in Hx.
  destruct (py_get (grid self) gy) as [row|]; [|done].
  cbn [mbind option_bind] in *. rewrite Hx. cbn [mbind option_bind].
  by rewrite bool_decide_eq_true_2.
Qed.

Lemma can_move_to_num_float_y (self : MazeRunner) (px : Z) (f : float) :
  well_formed (grid self) → bordered (grid self) →
  can_move_to_num self (PyInt px) (PyFloat f) ≠ Some true.
Proof.
  intros Hwf Hb. unfold can_move_to_num, corners_num.
  change (num_add (PyInt px) (PyInt 2)) with (Some (PyInt (px + 2))).
  cbn [mbind option_bind].
  destruct (num_add_float f (PyInt 2)) as [-> | [y1 ->]]; [done|].
  cbn [mbind option_bind].
  change (num_add (PyInt px) (PyInt PLAYER_SIZE))
    with (Some (PyInt (px + PLAYER_SIZE))).
  cbn [mbind option_bind].
  change (num_sub (PyInt (px + PLAYER_SIZE)) (PyInt 2))
    with (Some (PyInt (px + PLAYER_SIZE - 2))).
  cbn [mbind option_bind].
  destruct (num_add_float f (PyInt PLAYER_SIZE)) as [-> | [yw ->]]; [done|].
  cbn [mbind option_bind].
  destruct (num_sub_float yw (PyInt 2)) as [-> | [y2 ->]]; [done|].
  cbn [mbind option_bind corners_free_num].
  destruct (pixel_to_grid_num_float_y (px + 2) y1)
    as [-> | (gy & -> & Hgy)]; [done|].
  cbn [mbind option_bind fst snd].
  destruct (negb _); [done|].
  pose proof (pixel_to_grid_in_grid (px + 2) 0) as [Hx _].
  set (gx := (pixel_to_grid (px + 2) 0).1) in *.
  destruct Hgy as [[q ->] | Hgy]; [done|].
  assert (∃ y, gy = PyInt y ∧ grid_get (grid self) gx y = Some 0)
    as (y & -> & Hy).
  { destruct Hgy as [-> | ->]; eexists; (split; [done|]).
    - apply (Hb (gx, 0)). split; [|by right; right; left].
      split; [exact Hx | done].
    - apply (Hb (gx, GRID_ROWS - 1)). split; [|by right; right; right].
      split; [exact Hx | done]. }
  cbn [py_get_num]. unfold grid_get in Hy.
  destruct (py_get (grid self) y) as [row|]; [|done].
  cbn [mbind option_bind] in *. rewrite Hy. cbn [mbind option_bind].
  by rewrite bool_decide_eq_true_2.
Qed.

(** *** The adversary's step *)

(** The game the adversary is meant to play: level 1 on a grid whose
    interior is free, both actors at their spawn points. *)
Lemma room_game_route :
  ∃ p, bfs_path room_grid exit_cell spawn_cell
       = Some (Some (exit_cell :: (19, 16) :: p)).
Proof. eexists. vm_compute. reflexivity. Qed.

Lemma enemy_velocity_left (pow_half : float → float) :
  pow_half 1024%float = 32%float →
  enemy_velocity pow_half (-32) 0 = Some ((-2)%float, 0%float).
Proof.
  intros H. unfold enemy_velocity.
  change (float_of_int ((-32) ^ 2 + 0 ^ 2)) with (Some 1024%float).
  cbn [mbind option_bind]. rewrite H. by vm_compute.
Qed.

(** C4.  The claim has the adversary move like the player: an axis moves
    when its move is legal.  The adversary never moves.  Its velocity comes
    from a true division, so the position [update] proposes is a [float];
    [can_move_to] turns it into a [float] column, and indexing the grid
    with it raises TypeError.  On a grid whose interior is free, with both
    actors at their spawn points, the adversary has a route to the player,
    its first step leads to the cell on its left, the move there by its
    speed is legal, and the tick ends in the exception. *)
Theorem update_adversary_step_raises (pow_half : float → float) (r : Rng) :
  pow_half 1024%float = 32%float →
  let game := mkGame 1 START_LIVES playing room_grid player_spawn_pos
                enemy_spawn_pos spawn_cell exit_cell in
  (∃ p, bfs_path (grid game) (enemy_cell game) (player_cell game)
        = Some (Some (exit_cell :: (19, 16) :: p))) ∧
  enemy_velocity pow_half (-32) 0 = Some ((-2)%float, 0%float) ∧
  can_move_to game ((enemy_pos game).1 - 2) (enemy_pos game).2 = Some true ∧
  can_move_to_num game (PyFloat 689) (PyInt (enemy_pos game).2) = None ∧
  update pow_half game (Some (0, 0)) r = Raises.
Proof.
  intros H game.
  split; [exact room_game_route|].
  split; [by apply enemy_velocity_left|].
  split; [by vm_compute|]. split; [by vm_compute|].
  unfold update. change (state game) with playing. cbv iota.
  change (move_player game (Some (0, 0))) with (Some game).
  cbn [raising mbind Outcome_bind].
  change (update_enemy_cell (update_player_cell game)) with game.
  destruct room_game_route as [p Hp].
  change (bfs_path (grid game) (enemy_cell game) (player_cell game))
    with (bfs_path room_grid exit_cell spawn_cell).
  rewrite Hp. cbn [raising mbind Outcome_bind].
  unfold move_enemy.
  change (grid_to_pixel (19, 16).1 (19, 16).2) with (672, 608).
  cbv iota beta zeta.
  change ((enemy_pos game).1 + ENEMY_SIZE / 2) with 704.
  change ((enemy_pos game).2 + ENEMY_SIZE / 2) with 608.
  change (672 - 704) with (-32). change (608 - 608) with 0.
  rewrite bool_decide_eq_true_2 by (left; lia).
  rewrite (enemy_velocity_left pow_half H).
  cbn [raising mbind Outcome_bind].
  by vm_compute.
Qed.

Lemma update_adversary_step_raises_witness :
  PrimFloat.sqrt 1024%float = 32%float ∧
  update PrimFloat.sqrt
    (mkGame 1 START_LIVES playing room_grid player_spawn_pos enemy_spawn_pos
       spawn_cell exit_cell)
    (Some (0, 0)) (rng_const 0) = Raises.
Proof.
  assert (PrimFloat.sqrt 1024%float = 32%float) as H by reflexivity.
  split; [exact H|].
  exact (proj2 (proj2 (proj2 (proj2
           (update_adversary_step_raises PrimFloat.sqrt (rng_const 0) H))))).
Defined.

(** ** The session: catch, exit and the menu *)

(** What the catch does while lives remain. *)
Lemma check_catch_lives_left (self : MazeRunner) :
  rects_collide (player_pos self) PLAYER_SIZE (enemy_pos self) ENEMY_SIZE = true →
  1 < lives self →
  check_catch self = reset_positions (set_lives (lives self - 1) self).
Proof.
  intros Hc Hl. unfold check_catch. rewrite Hc.
  rewrite bool_decide_eq_false_2; [done|].
  destruct self; cbn in *. lia.
Qed.

(** What the catch does on the last life. *)
Lemma check_catch_last_life (self : MazeRunner) :
  rects_collide (player_pos self) PLAYER_SIZE (enemy_pos self) ENEMY_SIZE = true →
  lives self ≤ 1 →
  check_catch self = set_state game_over (set_lives (lives self - 1) self).
Proof.
  intros Hc Hl. unfold check_catch. rewrite Hc.
  rewrite bool_decide_eq_true_2; [done|].
  destruct self; cbn in *. lia.
Qed.

(** After [reset_positions] the exit test is false. *)
Lemma check_exit_after_reset (self : MazeRunner) (r : Rng) :
  check_exit (reset_positions self) r = Some (reset_positions self, r).
Proof. done. Qed.

(** Away from the exit cell the exit test changes nothing. *)
Lemma check_exit_elsewhere (self : MazeRunner) (r : Rng) :
  player_cell self ≠ exit_cell → check_exit self r = Some (self, r).
Proof.
  intros Hne. unfold check_exit. by rewrite bool_decide_eq_false_2.
Qed.

(** A catch with lives left is not followed by the exit: the tick ends in
    PLAYING on the same level and grid, one life less, both actors at their
    spawn points. *)
Lemma catch_with_lives_left (self : MazeRunner) (r : Rng) :
  rects_collide (player_pos self) PLAYER_SIZE (enemy_pos self) ENEMY_SIZE = true →
  1 < lives self →
  check_exit (check_catch self) r
  = Some (reset_positions (set_lives (lives self - 1) self), r).
Proof.
  intros Hc Hl. rewrite check_catch_lives_left by done.
  apply check_exit_after_reset.
Qed.

(** A catch on the last life away from the exit cell ends in GAME_OVER on
    the same level and grid. *)
Lemma catch_on_last_life_elsewhere (self : MazeRunner) (r : Rng) :
  rects_collide (player_pos self) PLAYER_SIZE (enemy_pos self) ENEMY_SIZE = true →
  lives self = 1 → player_cell self ≠ exit_cell →
  check_exit (check_catch self) r
  = Some (set_state game_over (set_lives 0 self), r).
Proof.
  intros Hc Hl Hne. rewrite check_catch_last_life by (done || lia).
  rewrite Hl. by apply check_exit_elsewhere.
Qed.

(** The specification's test of a catch with two lives: one life is left,
    the state is PLAYING, and both actors are back at their spawn points. *)
Example update_catch_with_two_lives (pow_half : float → float) (r : Rng) :
  update pow_half (game_at room_grid 4 2 (300, 300)) (Some (0, 0)) r
  = Returns (mkGame 4 1 playing room_grid player_spawn_pos enemy_spawn_pos
            spawn_cell exit_cell, r).
Proof. reflexivity. Qed.

(** The tick on which C2 and C6 are evaluated, up to the catch: the
    player stands on the exit cell of [room_grid] and the adversary on top
    of it. *)
Lemma update_on_exit_prefix (pow_half : float → float) (lvl lvs : Z) (r : Rng) :
  update pow_half (game_at room_grid lvl lvs enemy_spawn_pos) (Some (0, 0)) r
  = raising
      (check_exit
         (check_catch
            (mkGame lvl lvs playing room_grid enemy_spawn_pos enemy_spawn_pos
               exit_cell exit_cell)) r).
Proof. reflexivity. Qed.

(** C2.  The claim says that the catch and the exit never both take effect
    in one tick.  At level 100 with one life left, the player on the exit
    cell and the adversary overlapping it, both footprint overlap and exit
    condition hold and [update] applies both: the catch takes the last life
    and sets GAME_OVER, and the exit test, which follows without an [else],
    then turns the state into WIN. *)
Theorem update_catch_and_exit_both_apply (pow_half : float → float) (r : Rng) :
  let self := game_at room_grid MAX_LEVEL 1 enemy_spawn_pos in
  rects_collide (player_pos self) PLAYER_SIZE (enemy_pos self) ENEMY_SIZE = true ∧
  check_catch
    (mkGame MAX_LEVEL 1 playing room_grid enemy_spawn_pos enemy_spawn_pos
       exit_cell exit_cell)
  = mkGame MAX_LEVEL 0 game_over room_grid enemy_spawn_pos enemy_spawn_pos
      exit_cell exit_cell ∧
  update pow_half self (Some (0, 0)) r
  = Returns (mkGame MAX_LEVEL 0 win room_grid enemy_spawn_pos enemy_spawn_pos
            exit_cell exit_cell, r).
Proof.
  intros self. split; [reflexivity|]. split; [reflexivity|].
  unfold self. rewrite update_on_exit_prefix. reflexivity.
Qed.

(** C6.  The claim says that a catch on the last life ends in GAME_OVER
    with the level number unchanged.  At level 5 with one life left, the
    player on the exit cell and the adversary overlapping it, [update]
    ends in GAME_OVER on level 6, with a newly generated grid and both
    actors at their spawn points: the exit test runs after the catch. *)
Theorem update_last_life_on_exit_changes_level (pow_half : float → float) (r : Rng) :
  let self := game_at room_grid 5 1 enemy_spawn_pos in
  rects_collide (player_pos self) PLAYER_SIZE (enemy_pos self) ENEMY_SIZE = true ∧
  ∃ g r', generate_maze 6 r = Some (g, r') ∧
    update pow_half self (Some (0, 0)) r
    = Returns (mkGame 6 0 game_over g player_spawn_pos enemy_spawn_pos
              spawn_cell exit_cell, r').
Proof.
  intros self. split; [reflexivity|].
  destruct (generate_maze_spec 6 r) as (g & r' & Hg & _).
  exists g, r'. split; [done|].
  unfold self. rewrite update_on_exit_prefix.
  change (check_catch _) with
    (mkGame 5 0 game_over room_grid enemy_spawn_pos enemy_spawn_pos
       exit_cell exit_cell).
  unfold check_exit.
  rewrite bool_decide_eq_true_2 by done.
  rewrite bool_decide_eq_true_2 by done.
  cbn [level set_level]. change (5 + 1) with 6. rewrite Hg. reflexivity.
Qed.

(** *** The menu *)

(** Outside PLAYING a tick changes nothing. *)
Lemma update_not_playing (pow_half : float → float) (self : MazeRunner)
    (input_dir : option (Z * Z)) (r : Rng) :
  state self ≠ playing → update pow_half self input_dir r = Returns (self, r).
Proof. intros Hs. unfold update. by destruct (state self). Qed.

(** C5, as stated, fails: returning to the menu resets neither the level
    nor the lives.  After GAME_OVER on level 57 a click on the restart
    button, and after WIN a click anywhere, lead to MENU with the level and
    the lives as they were. *)
Lemma return_to_menu_keeps_level_counterexample :
  let inp := mkInputs 0 0 false in
  let lost := mkGame 57 0 game_over room_grid (200, 200) (200, 200) (4, 3) (4, 3) in
  let won := mkGame 100 2 win room_grid (691, 595) (400, 300) (20, 16) (11, 6) in
  collidepoint restart_button (350, 380) = true ∧
  mouse_button_down lost inp (350, 380) (rng_const 0)
  = Some (Continue (mkGame 57 0 menu room_grid (200, 200) (200, 200) (4, 3) (4, 3))
            (mkInputs 0 0 true) (rng_const 0)) ∧
  mouse_button_down won inp (10, 10) (rng_const 0)
  = Some (Continue (mkGame 100 2 menu room_grid (691, 595) (400, 300) (20, 16) (11, 6))
            (mkInputs 0 0 true) (rng_const 0)).
Proof. by vm_compute. Qed.

(** C5, amended.  The return to the menu from GAME_OVER or WIN changes the
    state only: level, lives and grid keep their values while the menu is
    shown.  They are reset on the way back into PLAYING: the session enters
    PLAYING only from MENU, by the start button, and it does so on level 1
    with 3 lives, a grid newly generated for level 1, and both actors at
    their spawn points; a tick outside PLAYING changes nothing. *)
Theorem menu_resets_on_start (game game' : MazeRunner) (inp inp' : Inputs)
    (pos : Z * Z) (r r' : Rng) :
  mouse_button_down game inp pos r = Some (Continue game' inp' r') →
  (state game = game_over ∨ state game = win →
     (state game' = menu ∨ state game' = state game) ∧
     level game' = level game ∧ lives game' = lives game ∧
     grid game' = grid game) ∧
  (state game ≠ playing → state game' = playing →
     state game = menu ∧ collidepoint start_button pos = true ∧
     level game' = 1 ∧ lives game' = START_LIVES ∧
     generate_maze 1 r = Some (grid game', r') ∧
     player_pos game' = player_spawn_pos ∧
     enemy_pos game' = enemy_spawn_pos ∧
     player_cell game' = spawn_cell ∧ enemy_cell game' = exit_cell) ∧
  (∀ pow_half input_dir r0, state game ≠ playing →
     update pow_half game input_dir r0 = Returns (game, r0)).
Proof.
  intros Hdown. split; [|split].
  - unfold mouse_button_down in Hdown.
    intros [Hs | Hs]; rewrite Hs in Hdown.
    + destruct (collidepoint restart_button pos);
        injection Hdown as <- <- <-; rewrite ?Hs; cbn; tauto.
    + injection Hdown as <- <- <-. cbn. tauto.
  - intros Hnp Hp. unfold mouse_button_down in Hdown.
    destruct (state game) eqn:Hs; [|done|..].
    + destruct (collidepoint start_button pos) eqn:Hstart.
      * cbn [level set_level set_lives set_state] in Hdown.
        destruct (generate_maze 1 r) as [[g r1]|] eqn:Hg; [|done].
        cbn [mbind option_bind] in Hdown.
        destruct (collidepoint exit_button pos); [done|].
        injection Hdown as <- <- <-. done.
      * cbn [mbind option_bind] in Hdown.
        destruct (collidepoint exit_button pos); [done|].
        injection Hdown as <- <- <-. congruence.
    + destruct (collidepoint restart_button pos);
        injection Hdown as <- <- <-; cbn in Hp; congruence.
    + injection Hdown as <- <- <-. cbn in Hp. congruence.
  - intros pow_half input_dir r0. apply update_not_playing.
Qed.

Lemma menu_resets_on_start_witness :
  let inp := mkInputs 0 0 false in
  let lost := mkGame 57 0 game_over room_grid (200, 200) (200, 200) (4, 3) (4, 3) in
  mouse_button_down lost inp (350, 380) (rng_const 0)
  = Some (Continue (set_state menu lost) (mkInputs 0 0 true) (rng_const 0)) ∧
  state lost = game_over ∧
  level (set_state menu lost) = 57 ∧ lives (set_state menu lost) = 0 ∧
  ∃ game' inp' r',
    mouse_button_down (set_state menu lost) inp (350, 240) (rng_const 0)
    = Some (Continue game' inp' r') ∧
    state (set_state menu lost) ≠ playing ∧ state game' = playing ∧
    level game' = 1 ∧ lives game' = START_LIVES ∧
    generate_maze 1 (rng_const 0) = Some (grid game', r').
Proof.
  intros inp lost.
  assert (mouse_button_down lost inp (350, 380) (rng_const 0)
          = Some (Continue (set_state menu lost) (mkInputs 0 0 true)
                    (rng_const 0))) as Hback by reflexivity.
  assert (state lost = game_over) as Hlost by reflexivity.
  destruct (proj1 (menu_resets_on_start _ _ _ _ _ _ _ Hback) (or_introl Hlost))
    as (_ & Hlevel & Hlives & _).
  split; [exact Hback|]. split; [exact Hlost|].
  split; [exact Hlevel|]. split; [exact Hlives|].
  destruct (mouse_button_down (set_state menu lost) inp (350, 240) (rng_const 0))
    as [[game' inp' r'|]|] eqn:Hstart;
    [|vm_compute in Hstart; discriminate Hstart..].
  assert (state (set_state menu lost) ≠ playing) as Hmenu by (intros [=]).
  assert (state game' = playing) as Hplaying.
  { vm_compute in Hstart. injection Hstart as <- _ _. reflexivity. }
  destruct (proj1 (proj2 (menu_resets_on_start _ _ _ _ _ _ _ Hstart))
              Hmenu Hplaying) as (_ & _ & Hl & Hv & Hg & _).
  exists game', inp', r'. split; [reflexivity|].
  split; [exact Hmenu|]. split; [exact Hplaying|].
  split; [exact Hl|]. split; [exact Hv | exact Hg].
Defined.

(** ** Pixels and cells *)

Lemma OFFSET_X_value : OFFSET_X = 48.
Proof. reflexivity. Qed.

(** [pixel_to_grid] before clamping, on one axis. *)
Lemma tile_index (k d : Z) : 0 ≤ d < 32 → (k * 32 + d) / 32 = k.
Proof.
  intros Hd. symmetry. apply (Z.div_unique _ 32 k d); lia.
Qed.

(** X1.  Every pixel of the tile of a cell inside the grid is mapped back to
    that cell by [pixel_to_grid]; in particular [pixel_to_grid] undoes
    [grid_to_pixel]. *)
Theorem pixel_to_grid_of_tile (c : Cell) (dx dy : Z) :
  in_grid c → 0 ≤ dx < TILE → 0 ≤ dy < TILE →
  pixel_to_grid (OFFSET_X + c.1 * TILE + dx) (OFFSET_Y + c.2 * TILE + dy) = c ∧
  pixel_to_grid (grid_to_pixel c.1 c.2).1 (grid_to_pixel c.1 c.2).2 = c.
Proof.
  intros [Hx Hy] Hdx Hdy. destruct c as [x y].
  unfold pixel_to_grid, grid_to_pixel. rewrite OFFSET_X_value.
  unfold GRID_COLS, GRID_ROWS, OFFSET_Y, TILE in *. cbn [fst snd] in *.
  change (32 / 2) with 16.
  replace (48 + x * 32 + dx - 48) with (x * 32 + dx) by lia.
  replace (80 + y * 32 + dy - 80) with (y * 32 + dy) by lia.
  replace (48 + x * 32 + 16 - 48) with (x * 32 + 16) by lia.
  replace (80 + y * 32 + 16 - 80) with (y * 32 + 16) by lia.
  rewrite !tile_index by lia.
  split; f_equal; lia.
Qed.

Lemma pixel_to_grid_of_tile_witness :
  in_grid (20, 16) ∧ 0 ≤ 31 < TILE ∧ 0 ≤ 0 < TILE ∧
  pixel_to_grid (OFFSET_X + 20 * TILE + 31) (OFFSET_Y + 16 * TILE + 0) = (20, 16) ∧
  pixel_to_grid (grid_to_pixel 20 16).1 (grid_to_pixel 20 16).2 = (20, 16).
Proof.
  assert (in_grid (20, 16)) as Hc.
  { unfold in_grid, GRID_COLS, GRID_ROWS. cbn [fst snd]. lia. }
  assert (0 ≤ 31 < TILE) as Hdx by (unfold TILE; lia).
  assert (0 ≤ 0 < TILE) as Hdy by (unfold TILE; lia).
  split; [exact Hc|]. split; [exact Hdx|]. split; [exact Hdy|].
  exact (pixel_to_grid_of_tile (20, 16) 31 0 Hc Hdx Hdy).
Defined.

(** ** Footprints *)

(** When two footprints of the game's size collide. *)
Lemma rects_collide_apart (p e : Z * Z) :
  (rects_collide p PLAYER_SIZE e ENEMY_SIZE = true ↔
     Z.abs (p.1 - e.1) < PLAYER_SIZE ∧ Z.abs (p.2 - e.2) < PLAYER_SIZE) ∧
  rects_collide p PLAYER_SIZE e ENEMY_SIZE
  = rects_collide e ENEMY_SIZE p PLAYER_SIZE.
Proof.
  unfold rects_collide, colliderect, PLAYER_SIZE, ENEMY_SIZE, TILE.
  cbn [rx ry rw rh]. split.
  - rewrite bool_decide_eq_true. lia.
  - apply bool_decide_ext. lia.
Qed.

(** X3.  After [reset_positions] the stored cells are the cells of the two
    positions, and the two footprints do not collide. *)
Theorem reset_positions_consistent (self : MazeRunner) :
  update_enemy_cell (update_player_cell (reset_positions self))
  = reset_positions self ∧
  rects_collide (player_pos (reset_positions self)) PLAYER_SIZE
    (enemy_pos (reset_positions self)) ENEMY_SIZE = false.
Proof. by destruct self. Qed.

(** ** The carving loop: coverage and connectivity *)

Lemma swap_elem_of_2 {A} (l : list A) (i j : nat) (x : A) :
  x ∈ l → x ∈ swap l i j.
Proof.
  unfold swap.
  destruct (l !! i) as [a|] eqn:Ha; [|done].
  destruct (l !! j) as [b|] eqn:Hb; [|done].
  pose proof (lookup_lt_Some _ _ _ Ha) as Hi.
  pose proof (lookup_lt_Some _ _ _ Hb) as Hj.
  intros [k Hk]%list_elem_of_lookup.
  destruct (decide (k = i)) as [-> | Hki].
  - (* the element at [i] is now at [j] *)
    assert (x = a) as -> by congruence.
    apply list_elem_of_lookup. exists j.
    apply list_lookup_insert_eq. by rewrite length_insert.
  - destruct (decide (k = j)) as [-> | Hkj].
    + assert (x = b) as -> by congruence.
      apply list_elem_of_lookup. exists i.
      rewrite list_lookup_insert_ne by done.
      by apply list_lookup_insert_eq.
    + apply list_elem_of_lookup. exists k.
      by rewrite !list_lookup_insert_ne.
Qed.

Lemma shuffle_elem_of_2 {A} (l : list A) (r : Rng) (x : A) :
  x ∈ l → x ∈ (shuffle l r).1.
Proof.
  unfold shuffle. generalize (Nat.pred (length l)). intros i.
  revert l r. induction i as [|i IH]; intros l r Hx; simpl; [done|].
  apply IH. by apply swap_elem_of_2.
Qed.

(** [neighbors] proposes every cell two steps away inside the border. *)
Lemma neighbors_complete (cx cy : Z) (r : Rng) (n : Cell) :
  two_apart (cx, cy) n → n ∈ (neighbors cx cy r).1.
Proof.
  intros (Hn & Hx & Hy). cbn [fst snd] in *.
  unfold neighbors. apply shuffle_elem_of_2.
  assert (∀ (b : bool) (l : list Cell) (c : Cell),
            n ∈ l ∨ (b = true ∧ n = c) → n ∈ (if b then l ++ [c] else l))
    as Hstep.
  { intros b l c [H | [-> ->]].
    - destruct b; [apply elem_of_app; by left | done].
    - apply elem_of_app. right. by left. }
  unfold GRID_COLS, GRID_ROWS in *.
  destruct Hn as [-> | [-> | [-> | ->]]]; cbn [fst snd] in *.
  - do 3 (apply Hstep; left). apply Hstep. right.
    split; [apply bool_decide_eq_true; lia | done].
  - do 2 (apply Hstep; left). apply Hstep. right.
    split; [apply bool_decide_eq_true; lia | done].
  - apply Hstep; left. apply Hstep. right.
    split; [apply bool_decide_eq_true; lia | done].
  - apply Hstep. right.
    split; [apply bool_decide_eq_true; lia | done].
Qed.

(** [unvisited] keeps every wall cell of the list. *)
Lemma unvisited_complete (g : Grid) (l nb : list Cell) (p : Cell) :
  unvisited g l = Some nb → p ∈ l → grid_get g p.1 p.2 = Some 0 → p ∈ nb.
Proof.
  revert nb. induction l as [|q l IH]; intros nb Hnb Hp H0.
  { by apply elem_of_nil in Hp. }
  simpl in Hnb.
  destruct (grid_get g q.1 q.2) as [v|] eqn:Hv; [|done].
  destruct (unvisited g l) as [rest|]; [|done].
  cbn [mbind option_bind] in Hnb. injection Hnb as <-.
  apply elem_of_cons in Hp as [-> | Hp].
  - rewrite bool_decide_eq_true_2 by congruence. by left.
  - specialize (IH rest eq_refl Hp H0).
    case_bool_decide; [by right | done].
Qed.

Lemma walk_mono (g g' : Grid) (a t : Cell) (p : list Cell) :
  (∀ c, free g c → free g' c) → walk g a t p → walk g' a t p.
Proof.
  intros Hsub. induction 1 as [c | x y t p Hxy Hy Hw IH].
  - apply walk_end.
  - apply walk_step with y; [done | by apply Hsub | done].
Qed.

Lemma coarse_passage (c : Cell) : coarse c → passage c.
Proof.
  intros (Hx & Hy & Hox & Hoy). unfold passage. rewrite Hox. cbn [orb].
  unfold GRID_COLS, GRID_ROWS in *.
  assert (c.1 ≠ 20) by (intros E; by rewrite E in Hox).
  assert (c.2 ≠ 16) by (intros E; by rewrite E in Hoy).
  lia.
Qed.

(** The wall cell between a coarse cell and its neighbour is a passage cell
    next to both. *)
Lemma wall_between_passage (c n : Cell) :
  coarse c → two_apart c n →
  let wl := ((c.1 + n.1) / 2, (c.2 + n.2) / 2) in
  passage wl ∧ adjacent c wl ∧ adjacent wl n.
Proof.
  intros Hc Hn.
  pose proof (coarse_passage _ Hc) as (Hpx & Hpy & _).
  pose proof (coarse_passage _ (two_apart_coarse _ _ Hc Hn)) as (Hnx & Hny & _).
  destruct Hc as (Hx & Hy & Hox & Hoy). destruct Hn as (Hn & _ & _).
  assert (∀ a, (a + (a - 2)) / 2 = a - 1) as E1.
  { intros a. replace (a + (a - 2)) with ((a - 1) * 2) by lia.
    by rewrite Z.div_mul. }
  assert (∀ a, (a + (a + 2)) / 2 = a + 1) as E2.
  { intros a. replace (a + (a + 2)) with ((a + 1) * 2) by lia.
    by rewrite Z.div_mul. }
  assert (∀ a, (a + a) / 2 = a) as E3.
  { intros a. replace (a + a) with (a * 2) by lia. by rewrite Z.div_mul. }
  unfold passage, adjacent, GRID_COLS, GRID_ROWS in *.
  destruct Hn as [-> | [-> | [-> | ->]]]; cbn [fst snd] in *;
    rewrite ?E1, ?E2, ?E3, ?Hox, ?Hoy, ?orb_true_r; cbn [orb];
    (split; [split; [lia | split; [lia | done]] | lia]).
Qed.

(** The grid after one carving step, cell by cell. *)
Lemma carve_step_cells (g g1 g2 : Grid) (wx wy nx ny : Z) :
  well_formed g → in_grid (wx, wy) → in_grid (nx, ny) →
  grid_set g wx wy 1 = Some g1 → grid_set g1 nx ny 1 = Some g2 →
  well_formed g2 ∧
  ∀ x y, in_grid (x, y) →
    grid_get g2 x y
    = if bool_decide ((x, y) = (nx, ny) ∨ (x, y) = (wx, wy))
      then Some 1 else grid_get g x y.
Proof.
  intros Hwf Hw Hn Hs1 Hs2.
  destruct (grid_set_in_grid g wx wy 1 Hwf Hw) as (g1' & Hs1' & Hwf1 & Hg1).
  rewrite Hs1 in Hs1'. injection Hs1' as <-.
  destruct (grid_set_in_grid g1 nx ny 1 Hwf1 Hn) as (g2' & Hs2' & Hwf2 & Hg2).
  rewrite Hs2 in Hs2'. injection Hs2' as <-.
  split; [done|]. intros x y Hin. rewrite Hg2, Hg1 by done.
  repeat case_bool_decide; try done; tauto.
Qed.

Lemma free_after_step (g g2 : Grid) (w n : Cell) :
  well_formed g →
  (∀ x y, in_grid (x, y) →
     grid_get g2 x y
     = if bool_decide ((x, y) = n ∨ (x, y) = w)
       then Some 1 else grid_get g x y) →
  ∀ c, free g2 c ↔ in_grid c ∧ (c = n ∨ c = w ∨ free g c).
Proof.
  intros Hwf Hg2 [x y]. unfold free. cbn [fst snd]. split.
  - intros [Hin H1]. split; [done|]. rewrite Hg2 in H1 by done.
    case_bool_decide as Hc; [|by right; right].
    destruct Hc; [by left | by right; left].
  - intros [Hin Hc]. split; [done|]. rewrite Hg2 by done.
    case_bool_decide as Hd; [done|]. destruct Hc as [Hc | [Hc | [_ H]]];
      [destruct Hd; by left | destruct Hd; by right | done].
Qed.

Lemma py_get_elem_of {A} (l : list A) (i : Z) (a : A) :
  py_get l i = Some a → a ∈ l.
Proof.
  unfold py_get. destruct (py_index l i) as [k|]; [|done].
  cbn [mbind option_bind]. apply list_elem_of_lookup_2.
Qed.

Lemma binary_get (g : Grid) (x y v : Z) :
  binary g → grid_get g x y = Some v → v = 0 ∨ v = 1.
Proof.
  intros Hb. unfold grid_get.
  destruct (py_get g y) as [row|] eqn:Hrow; [|done].
  cbn [mbind option_bind]. intros Hv%py_get_elem_of.
  apply py_get_elem_of in Hrow.
  unfold binary in Hb. rewrite Forall_forall in Hb.
  specialize (Hb row Hrow). rewrite Forall_forall in Hb. by apply Hb.
Qed.

Lemma binary_set (g g' : Grid) (x y v : Z) :
  binary g → v = 0 ∨ v = 1 → grid_set g x y v = Some g' → binary g'.
Proof.
  intros Hb Hv. unfold grid_set.
  destruct (py_get g y) as [row|] eqn:Hrow; [|done].
  cbn [mbind option_bind]. unfold py_set.
  destruct (py_index row x) as [kx|]; [|done].
  cbn [mbind option_bind].
  destruct (py_index g y) as [ky|]; [|done].
  cbn [mbind option_bind]. intros [= <-].
  apply Forall_insert; [done|].
  apply Forall_insert; [|done].
  apply py_get_elem_of in Hrow. unfold binary in Hb.
  rewrite Forall_forall in Hb. by apply Hb.
Qed.

Lemma binary_in_grid (g : Grid) (c : Cell) :
  well_formed g → binary g → in_grid c →
  grid_get g c.1 c.2 = Some 0 ∨ free g c.
Proof.
  intros Hwf Hb Hin. destruct c as [x y]. cbn [fst snd].
  destruct (grid_get_in_grid g x y Hwf Hin) as [v Hv].
  destruct (binary_get g x y v Hb Hv) as [-> | ->]; [by left | by right].
Qed.

Lemma all_walls_binary : binary all_walls.
Proof.
  unfold binary, all_walls. apply Forall_replicate, Forall_replicate.
  by left.
Qed.

(** The invariant holds when the loop is entered. *)
Lemma carve_inv_init (g0 : Grid) :
  grid_set all_walls 1 1 1 = Some g0 → carve_inv g0 [(1, 1)].
Proof.
  intros Hs.
  assert (in_grid (1, 1)) as Hin by (by vm_compute).
  destruct (grid_set_in_grid all_walls 1 1 1 all_walls_well_formed Hin)
    as (g & Hs' & Hwf & Hg).
  rewrite Hs in Hs'. injection Hs' as <-.
  assert (∀ c, free g0 c ↔ c = (1, 1)) as Hfree.
  { intros [x y]. unfold free. cbn [fst snd]. split.
    - intros [Hc H1]. rewrite Hg in H1 by done.
      case_bool_decide; [done|]. by rewrite all_walls_get in H1.
    - intros [= -> ->]. split; [done|]. rewrite Hg by done.
      by rewrite bool_decide_eq_true_2. }
  assert (coarse (1, 1)) as Hc by (by vm_compute).
  split.
  - done.
  - apply (binary_set all_walls g0 1 1 1); [apply all_walls_binary | by right | done].
  - by apply Hfree.
  - intros c ->%Hfree. by apply coarse_passage.
  - apply Forall_singleton. split; [done | by apply Hfree].
  - intros c n _ ->%Hfree Hns. exfalso. apply Hns. by left.
  - intros c ->%Hfree. exists [(1, 1)]. apply walk_end.
Qed.

(** A carving step keeps the invariant. *)
Lemma carve_inv_push (g g1 g2 : Grid) (c n : Cell) (below : list Cell) :
  carve_inv g (c :: below) → two_apart c n →
  grid_get g n.1 n.2 = Some 0 →
  grid_set g ((c.1 + n.1) / 2) ((c.2 + n.2) / 2) 1 = Some g1 →
  grid_set g1 n.1 n.2 1 = Some g2 →
  carve_inv g2 (n :: c :: below).
Proof.
  intros [Hwf Hbin Hspawn Hpass Hstack Hdone Hreach] Hn H0 Hs1 Hs2.
  apply Forall_cons in Hstack as [[Hc Hcfree] Hbelow].
  pose proof (two_apart_coarse _ _ Hc Hn) as Hcn.
  destruct (wall_between c n Hc Hn) as (Hwin & _ & Hwodd).
  destruct (wall_between_passage c n Hc Hn) as (Hwpass & Hcw & Hwn).
  set (w := ((c.1 + n.1) / 2, (c.2 + n.2) / 2)) in *.
  destruct (carve_step_cells g g1 g2 w.1 w.2 n.1 n.2 Hwf) as [Hwf2 Hg2];
    [done | by apply coarse_in_grid | done | done |].
  assert (∀ x, free g2 x ↔ in_grid x ∧ (x = n ∨ x = w ∨ free g x)) as Hfree.
  { apply free_after_step; [done|]. destruct n, w. exact Hg2. }
  assert (∀ x, free g x → free g2 x) as Hmono.
  { intros x Hx. apply Hfree. split; [by destruct Hx | by right; right]. }
  assert (free g2 w) as Hfw by (apply Hfree; split; [done | by right; left]).
  assert (free g2 n) as Hfn.
  { apply Hfree. split; [by apply coarse_in_grid | by left]. }
  assert (¬ coarse w) as Hwc.
  { intros (_ & _ & Hox & Hoy). cbn [fst snd] in Hwodd.
    by rewrite Hox, Hoy in Hwodd. }
  assert (¬ free g n) as Hnfree.
  { intros [_ H1]. congruence. }
  split.
  - done.
  - apply (binary_set g1 g2 n.1 n.2 1); [|by right | done].
    apply (binary_set g g1 w.1 w.2 1); [done | by right | done].
  - by apply Hmono.
  - intros x [_ [-> | [-> | Hx]]]%Hfree;
      [by apply coarse_passage | done | by apply Hpass].
  - apply Forall_cons. split; [done|]. apply Forall_cons. split.
    + split; [done | by apply Hmono].
    + eapply Forall_impl; [exact Hbelow|]. intros x [Hx Hfx].
      split; [done | by apply Hmono].
  - intros x m Hx [_ Hfx]%Hfree Hxs Hxm.
    apply not_elem_of_cons in Hxs as [Hxn Hxs].
    destruct Hfx as [-> | [-> | Hfx]]; [done | done |].
    apply Hmono. by eapply Hdone.
  - destruct (Hreach c Hcfree) as [pc Hpc].
    assert (walk g2 spawn_cell w (pc ++ [w])) as Hpw.
    { eapply walk_snoc; [|done | done]. by eapply walk_mono. }
    intros x [_ [-> | [-> | Hx]]]%Hfree.
    + exists ((pc ++ [w]) ++ [n]). by eapply walk_snoc.
    + by eexists.
    + destruct (Hreach x Hx) as [px Hpx]. exists px. by eapply walk_mono.
Qed.

(** Leaving a cell whose neighbours are all visited keeps the invariant. *)
Lemma carve_inv_pop (g : Grid) (c : Cell) (below : list Cell) :
  carve_inv g (c :: below) →
  (∀ n, two_apart c n → grid_get g n.1 n.2 ≠ Some 0) →
  carve_inv g below.
Proof.
  intros [Hwf Hbin Hspawn Hpass Hstack Hdone Hreach] Hnb.
  apply Forall_cons in Hstack as [[Hc Hcfree] Hbelow].
  split; try done.
  intros x m Hx Hfx Hxs Hxm.
  destruct (decide (x = c)) as [-> | Hne].
  - destruct (binary_in_grid g m Hwf Hbin) as [H0 | Hf]; [|by destruct (Hnb m) | done].
    apply coarse_in_grid. by eapply two_apart_coarse.
  - eapply Hdone; try done. by apply not_elem_of_cons.
Qed.

(** The loop keeps the invariant up to its end. *)
Lemma carve_inv_loop (fuel : nat) (g g' : Grid) (stack : list Cell)
    (r r' : Rng) :
  carve_inv g stack → carve fuel g stack r = Some (g', r') → carve_inv g' [].
Proof.
  revert g stack r.
  induction fuel as [|fuel IH]; intros g stack r Hinv Hrun; [done|].
  destruct stack as [|[x y] below]; simpl in Hrun.
  { by injection Hrun as <- <-. }
  pose proof (ci_stack _ _ Hinv) as Hst.
  apply Forall_cons in Hst as [[Hc Hcfree] _].
  destruct (neighbors x y r) as [ns r1] eqn:Hns.
  destruct (unvisited g ns) as [nb|] eqn:Hnb; [|done].
  cbn [mbind option_bind] in Hrun.
  destruct nb as [|p nb'].
  - apply (IH g below r1); [|done].
    apply (carve_inv_pop g (x, y)); [done|].
    intros n Hn H0.
    assert (n ∈ ns) as Hin.
    { change ns with (ns, r1).1. rewrite <- Hns. by apply neighbors_complete. }
    pose proof (unvisited_complete g ns [] n Hnb Hin H0) as Hfalse.
    by apply elem_of_nil in Hfalse.
  - destruct (choice (p :: nb') r1) as [[[nx ny] r2]|] eqn:Hch; [|done].
    cbn [mbind option_bind] in Hrun.
    destruct (grid_set g ((x + nx) / 2) ((y + ny) / 2) 1) as [g1|] eqn:Hs1;
      [|done].
    cbn [mbind option_bind] in Hrun.
    destruct (grid_set g1 nx ny 1) as [g2|] eqn:Hs2; [|done].
    cbn [mbind option_bind] in Hrun.
    assert ((nx, ny) ∈ p :: nb') as Hin.
    { destruct (choice_elem_of (p :: nb') r1) as (c & r2' & Hch' & Hc');
        [done|]. rewrite Hch in Hch'. by injection Hch' as <- <-. }
    destruct (unvisited_spec g ns (ci_wf _ _ Hinv)) as (nb2 & Hnb2 & Hspec).
    { apply Forall_forall. intros q Hq. apply coarse_in_grid.
      eapply two_apart_coarse; [done|].
      apply (neighbors_elem_of x y r); [done | by rewrite Hns]. }
    rewrite Hnb in Hnb2. injection Hnb2 as <-.
    destruct (Hspec _ Hin) as [Hinns H0].
    apply (IH g2 ((nx, ny) :: (x, y) :: below) r2); [|done].
    apply (carve_inv_push g g1 g2 (x, y) (nx, ny)); try done.
    apply (neighbors_elem_of x y r); [done | by rewrite Hns].
Qed.

(** Every coarse cell is reached from the spawn cell in steps of two. *)
Lemma coarse_lattice (P : Cell → Prop) :
  P (1, 1) →
  (∀ c n, coarse c → P c → two_apart c n → P n) →
  ∀ c, coarse c → P c.
Proof.
  intros H11 Hstep.
  assert (∀ (k : nat) (c : Cell),
            coarse c → c.1 + c.2 ≤ Z.of_nat k → P c) as Hk.
  { induction k as [|k IH]; intros [x y] Hc Hsum; pose proof Hc as Hc';
      destruct Hc' as (Hx & Hy & Hox & Hoy); cbn [fst snd] in *; [lia|].
    apply Z.odd_spec in Hox as [kx Ekx]. apply Z.odd_spec in Hoy as [ky Eky].
    destruct (decide (x = 1)) as [-> | Hx1].
    - destruct (decide (y = 1)) as [-> | Hy1]; [done|].
      assert (coarse (1, y - 2)) as Hprev.
      { split; [cbn [fst snd]; lia|]. split; [cbn [fst snd]; lia|].
        split; [done|]. cbn [fst snd]. apply Z.odd_spec. exists (ky - 1). lia. }
      apply (Hstep (1, y - 2) (1, y) Hprev).
      + apply IH; [done | cbn [fst snd]; lia].
      + split; [|cbn [fst snd]; lia]. right; right; right.
        cbn [fst snd]. f_equal. lia.
    - assert (coarse (x - 2, y)) as Hprev.
      { split; [cbn [fst snd]; lia|]. split; [cbn [fst snd]; lia|].
        split; [|by apply Z.odd_spec; exists ky].
        cbn [fst snd]. apply Z.odd_spec. exists (kx - 1). lia. }
      apply (Hstep (x - 2, y) (x, y) Hprev).
      + apply IH; [done | cbn [fst snd]; lia].
      + split; [|cbn [fst snd]; lia]. right; left.
        cbn [fst snd]. f_equal. lia. }
  intros c Hc. apply (Hk (Z.to_nat (c.1 + c.2)) c Hc).
  destruct Hc as (Hx & Hy & _). lia.
Qed.

(** The free cells when the carving loop ends. *)
Lemma carved_tree (r : Rng) :
  ∃ g r', carved r = Some (g, r') ∧
    (∀ c, coarse c → free g c) ∧
    (∀ c, free g c → passage c) ∧
    (∀ c, free g c → ∃ p, route g spawn_cell c p).
Proof.
  unfold carved.
  assert (in_grid (1, 1)) as Hin by (by vm_compute).
  destruct (grid_set_in_grid all_walls 1 1 1 all_walls_well_formed Hin)
    as (g0 & Hs0 & Hwf0 & Hg0).
  rewrite Hs0. cbn [mbind option_bind].
  pose proof (carve_inv_init g0 Hs0) as Hinv0.
  destruct (carve_spec carve_fuel g0 [(1, 1)] r) as (g & r' & Hrun & _).
  { done. }
  { apply Forall_singleton. by vm_compute. }
  { assert (walls g0 < walls all_walls)%nat as Hlt.
    { destruct (walls_open all_walls g0 1 1 all_walls_well_formed Hin Hs0)
        as [_ Hlt].
      apply Hlt. by apply all_walls_get. }
    assert (walls all_walls ≤ length all_cells)%nat as Hle
      by apply length_filter.
    assert (length all_cells = 396%nat) as Hlen by (by vm_compute).
    assert (carve_fuel = 792%nat) as -> by (by vm_compute).
    simpl. lia. }
  pose proof (carve_inv_loop _ _ _ _ _ _ Hinv0 Hrun) as Hinv.
  exists g, r'. split; [done|]. split; [|split].
  - apply coarse_lattice.
    + apply (ci_spawn _ _ Hinv).
    + intros c n Hc Hfc Hcn.
      apply (ci_done _ _ Hinv c n); [done | done | apply not_elem_of_nil | done].
  - apply (ci_passage _ _ Hinv).
  - intros c Hc. destruct (ci_reach _ _ Hinv c Hc) as [p Hp].
    exists p. apply route_walk. split; [apply (ci_spawn _ _ Hinv) | done].
Qed.

(** X4.  When the carving loop of [generate_maze] ends, on every random
    choice, every cell with two odd coordinates inside the border is free,
    every free cell is a passage cell (columns 1..GRID_COLS-3, rows
    1..GRID_ROWS-3, at least one odd coordinate), and every free cell is
    joined to the spawn cell by a path through free cells. *)
Theorem carved_spanning (r : Rng) :
  ∃ g r', carved r = Some (g, r') ∧
    (∀ c, coarse c → free g c) ∧
    (∀ c, free g c → passage c) ∧
    (∀ c, free g c → ∃ p, route g spawn_cell c p).
Proof. exact (carved_tree r). Qed.

Lemma carved_spanning_witness :
  ∃ g r', carved (rng_mix 5) = Some (g, r') ∧
    coarse (19, 15) ∧ free g (19, 15) ∧ passage (19, 15) ∧
    ∃ p, route g spawn_cell (19, 15) p.
Proof.
  destruct (carved_spanning (rng_mix 5)) as (g & r' & Hg & Hall & Hpass & Hreach).
  assert (coarse (19, 15)) as Hc.
  { unfold coarse, GRID_COLS, GRID_ROWS. cbn [fst snd].
    split; [lia|]. split; [lia|]. split; reflexivity. }
  exists g, r'. split; [exact Hg|]. split; [exact Hc|].
  split; [exact (Hall _ Hc)|]. split; [exact (Hpass _ (Hall _ Hc))|].
  exact (Hreach _ (Hall _ Hc)).
Defined.

(** ** The grids generate_maze returns *)

Lemma generate_maze_carved (lvl : Z) (r : Rng) :
  generate_maze lvl r
  = ('(g, r1) ← carved r;
     '(g, r2) ← block_cells lvl g interior_cells r1;
     g ← stamp_rows g (seqZ 0 GRID_COLS);
     g ← stamp_cols g (seqZ 0 GRID_ROWS);
     Some (g, r2)).
Proof.
  unfold generate_maze, carved.
  by destruct (grid_set all_walls 1 1 1).
Qed.

Lemma binary_of_cells (g : Grid) :
  well_formed g →
  (∀ x y, in_grid (x, y) →
     grid_get g x y = Some 0 ∨ grid_get g x y = Some 1) →
  binary g.
Proof.
  intros [Hlen Hrows] Hcells. unfold binary.
  apply Forall_lookup_2. intros i row Hrow.
  apply Forall_lookup_2. intros j v Hv.
  pose proof (lookup_lt_Some _ _ _ Hrow) as Hi.
  pose proof (lookup_lt_Some _ _ _ Hv) as Hj.
  pose proof (Forall_lookup_1 _ _ _ _ Hrows Hrow) as Hrl. cbv beta in Hrl.
  assert (grid_get g (Z.of_nat j) (Z.of_nat i) = Some v) as Hget.
  { unfold grid_get. rewrite py_get_nonneg, Nat2Z.id, Hrow by lia.
    cbn [mbind option_bind]. by rewrite py_get_nonneg, Nat2Z.id by lia. }
  destruct (Hcells (Z.of_nat j) (Z.of_nat i)) as [H | H].
  - unfold in_grid, GRID_COLS, GRID_ROWS in *. cbn [fst snd]. lia.
  - left. congruence.
  - right. congruence.
Qed.

Lemma passage_not_sealed (c : Cell) :
  passage c → ¬ (GRID_COLS - 2 ≤ c.1 ∨ GRID_ROWS - 2 ≤ c.2).
Proof. intros (Hx & Hy & _). unfold GRID_COLS, GRID_ROWS in *. lia. Qed.

(** What the post-process and the border leave of the carved grid. *)
Lemma generate_maze_of_carved (lvl : Z) (r : Rng) :
  ∃ g1 r1 g r', carved r = Some (g1, r1) ∧
    generate_maze lvl r = Some (g, r') ∧ walls_added g1 g ∧
    (∀ c, free g1 c → passage c).
Proof.
  destruct (carved_tree r) as (g1 & r1 & Hc & _ & Hpass & _).
  rewrite generate_maze_carved, Hc. cbn [mbind option_bind].
  assert (well_formed g1) as Hwf1.
  { unfold carved in Hc.
    destruct (grid_set all_walls 1 1 1) as [g0|] eqn:Hs0; [|done].
    cbn [mbind option_bind] in Hc.
    eapply ci_wf, carve_inv_loop; [by apply carve_inv_init | done]. }
  destruct (block_cells_spec lvl interior_cells g1 r1 Hwf1 interior_cells_in_grid)
    as (g2 & r2 & -> & H2).
  cbn [mbind option_bind].
  destruct (stamp_rows_spec (seqZ 0 GRID_COLS) g2) as (g3 & -> & H3 & _).
  { by destruct H2. }
  { apply Forall_forall. intros x Hx%elem_of_seqZ. cbv beta. lia. }
  cbn [mbind option_bind].
  destruct (stamp_cols_spec (seqZ 0 GRID_ROWS) g3) as (g4 & -> & H4 & _).
  { by destruct H3. }
  { apply Forall_forall. intros y Hy%elem_of_seqZ. cbv beta. lia. }
  cbn [mbind option_bind].
  exists g1, r1, g4, r2. split; [done|]. split; [done|]. split; [|done].
  eapply walls_added_trans; [|done]. by eapply walls_added_trans.
Qed.

(** The shape of the grids [generate_maze] returns. *)
Lemma generate_maze_shape (lvl : Z) (r : Rng) :
  ∃ g r', generate_maze lvl r = Some (g, r') ∧
    well_formed g ∧ binary g ∧ (∀ c, free g c → passage c) ∧ sealed g.
Proof.
  destruct (generate_maze_of_carved lvl r)
    as (g1 & r1 & g & r' & Hc & Hg & [Hwf Hadd] & Hpass1).
  assert (∀ c, free g c → passage c) as Hpass.
  { intros [x y] [Hin H1]. apply Hpass1. split; [done|].
    cbn [fst snd] in *. destruct (Hadd x y Hin) as [<- | [_ H0]]; [done|].
    congruence. }
  assert (well_formed g1 ∧ binary g1) as [Hwf1 Hbin1].
  { unfold carved in Hc.
    destruct (grid_set all_walls 1 1 1) as [g0|] eqn:Hs0; [|done].
    cbn [mbind option_bind] in Hc.
    pose proof (carve_inv_loop _ _ _ _ _ _ (carve_inv_init g0 Hs0) Hc) as Hinv.
    split; [apply (ci_wf _ _ Hinv) | apply (ci_binary _ _ Hinv)]. }
  assert (binary g) as Hbin.
  { apply binary_of_cells; [done|]. intros x y Hin.
    destruct (Hadd x y Hin) as [-> | [_ ->]]; [|by left].
    destruct (binary_in_grid g1 (x, y) Hwf1 Hbin1 Hin) as [H | [_ H]];
      [by left | by right]. }
  exists g, r'. split; [done|]. split; [done|]. split; [done|].
  split; [done|]. split; [done|].
  intros x y Hin Hedge.
  destruct (binary_in_grid g (x, y) Hwf Hbin Hin) as [H | Hf]; [done|].
  by destruct (passage_not_sealed _ (Hpass _ Hf)).
Qed.

(** X5.  On every level and random choice [generate_maze] returns a grid of
    GRID_ROWS rows of GRID_COLS cells, each 0 or 1, whose free cells are
    passage cells; so its last two columns and last two rows are wall. *)
Theorem generate_maze_sealed (lvl : Z) (r : Rng) :
  ∃ g r', generate_maze lvl r = Some (g, r') ∧
    well_formed g ∧ binary g ∧ (∀ c, free g c → passage c) ∧ sealed g.
Proof. exact (generate_maze_shape lvl r). Qed.

Lemma generate_maze_sealed_witness :
  ∃ g r', generate_maze 42 (rng_mix 9) = Some (g, r') ∧
    in_grid (19, 16) ∧ (GRID_COLS - 2 ≤ 19 ∨ GRID_ROWS - 2 ≤ 16) ∧
    grid_get g 19 16 = Some 0.
Proof.
  destruct (generate_maze_sealed 42 (rng_mix 9))
    as (g & r' & Hg & _ & _ & _ & _ & Hsealed).
  assert (in_grid (19, 16)) as Hin.
  { unfold in_grid, GRID_COLS, GRID_ROWS. cbn [fst snd]. lia. }
  assert (GRID_COLS - 2 ≤ 19 ∨ GRID_ROWS - 2 ≤ 16) as Hedge.
  { right. unfold GRID_ROWS. lia. }
  exists g, r'. split; [exact Hg|]. split; [exact Hin|].
  split; [exact Hedge | exact (Hsealed 19 16 Hin Hedge)].
Defined.

(** ** The path finder from any start *)

(** What [bfs_path] returns, equal endpoints included. *)
Lemma bfs_path_cases (g : Grid) (s t : Cell) :
  well_formed g →
  match bfs_path g s t with
  | Some (Some p) =>
      walk g s t p ∧ ∀ p', walk g s t p' → (length p ≤ length p')%nat
  | Some None => ∀ p', ¬ walk g s t p'
  | None => False
  end.
Proof.
  intros Hwf. destruct (decide (s = t)) as [<- | Hne].
  - unfold bfs_path. rewrite bool_decide_eq_true_2 by done.
    split; [apply walk_end|]. intros p' Hp'%walk_length. simpl. lia.
  - destruct (bfs_path_spec g s Hwf t Hne) as [[-> Hnone] | (p & -> & Hw & Hmin)];
      [done | by split].
Qed.

(** X6.  On a grid of the fixed size, whatever the start cell is (free, on
    a wall or outside the grid): a path that [bfs_path] returns begins at
    the start, proceeds through adjacent free cells to the goal, and no such
    sequence of cells is shorter; "no path" is returned only when there is
    no such sequence; and nothing is raised. *)
Theorem bfs_path_from_any_start (g : Grid) (s t : Cell) :
  well_formed g →
  match bfs_path g s t with
  | Some (Some p) =>
      walk g s t p ∧ ∀ p', walk g s t p' → (length p ≤ length p')%nat
  | Some None => ∀ p', ¬ walk g s t p'
  | None => False
  end.
Proof. exact (bfs_path_cases g s t). Qed.

Lemma bfs_path_from_any_start_witness :
  well_formed corner_grid ∧
  match bfs_path corner_grid (0, 1) (1, 2) with
  | Some (Some p) =>
      walk corner_grid (0, 1) (1, 2) p ∧
      ∀ p', walk corner_grid (0, 1) (1, 2) p' → (length p ≤ length p')%nat
  | Some None => ∀ p', ¬ walk corner_grid (0, 1) (1, 2) p'
  | None => False
  end.
Proof.
  assert (well_formed corner_grid) as Hwf by apply grid_of_well_formed.
  split; [exact Hwf|].
  exact (bfs_path_from_any_start corner_grid (0, 1) (1, 2) Hwf).
Defined.

(** *** Paths do not repeat a cell *)

Lemma walk_from_member (g : Grid) (b t a : Cell) (p : list Cell) :
  walk g b t p → a ∈ p →
  ∃ p', walk g a t p' ∧ (length p' ≤ length p)%nat.
Proof.
  induction 1 as [c | x y t p Hxy Hy Hw IH]; intros Ha.
  - apply list_elem_of_singleton in Ha as ->. exists [c].
    split; [apply walk_end | done].
  - apply elem_of_cons in Ha as [-> | Ha].
    + exists (x :: p). split; [by eapply walk_step | done].
    + destruct (IH Ha) as (p' & Hp' & Hlen). exists p'.
      split; [done | simpl; lia].
Qed.

Lemma walk_shortcut (g : Grid) (a t : Cell) (p : list Cell) :
  walk g a t p → ¬ NoDup p →
  ∃ p', walk g a t p' ∧ (length p' < length p)%nat.
Proof.
  induction 1 as [c | x y t p Hxy Hy Hw IH]; intros Hdup.
  - destruct Hdup. apply NoDup_singleton.
  - destruct (decide (x ∈ p)) as [Hin | Hnin].
    + destruct (walk_from_member g y t x p Hw Hin) as (p' & Hp' & Hlen).
      exists p'. split; [done | simpl; lia].
    + destruct IH as (p' & Hp' & Hlen).
      { intros Hnd. apply Hdup. by apply NoDup_cons. }
      exists (x :: p'). split; [by eapply walk_step | simpl; lia].
Qed.

Lemma walk_cells (g : Grid) (a t : Cell) (p : list Cell) :
  walk g a t p → ∀ c, c ∈ p → c = a ∨ in_grid c.
Proof.
  induction 1 as [c | x y t p Hxy Hy Hw IH]; intros c' Hc'.
  - left. by apply list_elem_of_singleton in Hc'.
  - apply elem_of_cons in Hc' as [-> | Hc']; [by left|].
    right. destruct (IH c' Hc') as [-> | ?]; [by destruct Hy | done].
Qed.

(** X7.  A path returned by [bfs_path] on a grid of the fixed size visits
    no cell twice, and so has at most one cell more than the grid. *)
Theorem bfs_path_no_repeat (g : Grid) (s t : Cell) (p : list Cell) :
  well_formed g → bfs_path g s t = Some (Some p) →
  NoDup p ∧ (length p ≤ S (Z.to_nat (GRID_COLS * GRID_ROWS)))%nat.
Proof.
  intros Hwf Hp.
  pose proof (bfs_path_cases g s t Hwf) as Hspec.
  rewrite Hp in Hspec. destruct Hspec as [Hw Hmin].
  assert (NoDup p) as Hnd.
  { destruct (decide (NoDup p)) as [? | Hdup]; [done|].
    destruct (walk_shortcut g s t p Hw Hdup) as (p' & Hp' & Hlen).
    specialize (Hmin p' Hp'). lia. }
  split; [done|].
  assert (p ⊆+ s :: all_cells) as Hsub.
  { apply NoDup_submseteq; [done|]. intros c Hc.
    destruct (walk_cells g s t p Hw c Hc) as [-> | Hin]; [by left|].
    right. by apply elem_of_all_cells. }
  apply submseteq_length in Hsub. simpl in Hsub.
  assert (length all_cells = Z.to_nat (GRID_COLS * GRID_ROWS)) as <-
    by (by vm_compute).
  done.
Qed.

Lemma bfs_path_no_repeat_witness :
  let p : list Cell := [(1, 1); (2, 1); (3, 1); (4, 1); (5, 1)] in
  well_formed corridor_grid ∧
  bfs_path corridor_grid (1, 1) (5, 1) = Some (Some p) ∧
  NoDup p ∧ (length p ≤ S (Z.to_nat (GRID_COLS * GRID_ROWS)))%nat.
Proof.
  intros p.
  assert (well_formed corridor_grid) as Hwf by apply grid_of_well_formed.
  assert (bfs_path corridor_grid (1, 1) (5, 1) = Some (Some p)) as Hp
    by (vm_compute; reflexivity).
  split; [exact Hwf|]. split; [exact Hp|].
  exact (bfs_path_no_repeat corridor_grid (1, 1) (5, 1) p Hwf Hp).
Defined.

(** *** The adversary's cell on a sealed grid *)

Lemma sealed_not_free (g : Grid) (c : Cell) :
  sealed g → GRID_COLS - 2 ≤ c.1 ∨ GRID_ROWS - 2 ≤ c.2 → ¬ free g c.
Proof.
  intros [_ Hs] Hedge [Hin H1]. destruct c as [x y]. cbn [fst snd] in *.
  rewrite (Hs x y Hin Hedge) in H1. done.
Qed.

(** No walk leaves the exit cell of a sealed grid. *)
Lemma bfs_path_sealed (g : Grid) (t : Cell) :
  sealed g → t ≠ exit_cell → bfs_path g exit_cell t = Some None.
Proof.
  intros Hs Hne.
  pose proof (bfs_path_cases g exit_cell t (proj1 Hs)) as Hspec.
  assert (∀ p, ¬ walk g exit_cell t p) as Hnone.
  { intros p Hw. inversion Hw as [c | a b t' p' Hab Hb Hw']; subst; [done|].
    apply (sealed_not_free g b Hs); [|done].
    destruct b as [bx by_]. unfold adjacent, exit_cell, GRID_COLS, GRID_ROWS in *.
    cbn [fst snd] in *. lia. }
  destruct (bfs_path g exit_cell t) as [[p|]|]; [|done | done].
  destruct Hspec as [Hw _]. by destruct (Hnone p).
Qed.

(** X8.  On a sealed grid, and so on every grid [generate_maze] returns,
    [bfs_path] from the exit cell, where the adversary is placed, to any
    other cell returns "no path". *)
Theorem bfs_path_from_exit_cell (g : Grid) (t : Cell) :
  sealed g → t ≠ exit_cell → bfs_path g exit_cell t = Some None.
Proof. exact (bfs_path_sealed g t). Qed.

Lemma bfs_path_from_exit_cell_witness :
  ∃ g r', generate_maze 3 (rng_mix 2) = Some (g, r') ∧ sealed g ∧
    spawn_cell ≠ exit_cell ∧ bfs_path g exit_cell spawn_cell = Some None.
Proof.
  destruct (generate_maze_shape 3 (rng_mix 2))
    as (g & r' & Hg & _ & _ & _ & Hs).
  assert (spawn_cell ≠ exit_cell) as Hne by (intros [=]).
  exists g, r'. split; [exact Hg|]. split; [exact Hs|].
  split; [exact Hne | exact (bfs_path_from_exit_cell g spawn_cell Hs Hne)].
Defined.

(** ** Legal positions *)

Lemma corners_free_true (g : Grid) (cs : list (Z * Z)) :
  corners_free g cs = Some true →
  ∀ p, p ∈ cs → ∃ v, sampled g p = Some v ∧ v ≠ 0.
Proof.
  induction cs as [|[cx cy] cs IH]; intros Hcs p Hp.
  { by apply elem_of_nil in Hp. }
  cbn [corners_free] in Hcs. rewrite pixel_to_grid_in_bounds in Hcs.
  cbn [negb] in Hcs.
  destruct (grid_get g (pixel_to_grid cx cy).1 (pixel_to_grid cx cy).2)
    as [v|] eqn:Hv; [|done].
  cbn [mbind option_bind] in Hcs. case_bool_decide as Hv0; [done|].
  apply elem_of_cons in Hp as [-> | Hp]; [|by apply IH].
  exists v. split; [|done]. by unfold sampled.
Qed.

Lemma corners_free_clear (g : Grid) (cs : list (Z * Z)) :
  (∀ p, p ∈ cs → ∃ v, sampled g p = Some v ∧ v ≠ 0) →
  corners_free g cs = Some true.
Proof.
  induction cs as [|[cx cy] cs IH]; intros Hcs; [done|].
  cbn [corners_free]. rewrite pixel_to_grid_in_bounds. cbn [negb].
  destruct (Hcs (cx, cy)) as (v & Hv & Hv0); [by left|].
  unfold sampled in Hv. cbn [fst snd] in Hv. rewrite Hv.
  cbn [mbind option_bind]. rewrite bool_decide_eq_false_2 by done.
  apply IH. intros p Hp. apply Hcs. by right.
Qed.

(** On a grid of the fixed size [can_move_to] raises nothing. *)
Lemma can_move_to_total (self : MazeRunner) (px py : Z) :
  well_formed (grid self) → ∃ b, can_move_to self px py = Some b.
Proof.
  intros Hwf. unfold can_move_to. generalize (corners px py). intros cs.
  induction cs as [|[cx cy] cs [b IH]]; [by exists true|].
  cbn [corners_free]. rewrite pixel_to_grid_in_bounds. cbn [negb].
  destruct (grid_get_in_grid (grid self) (pixel_to_grid cx cy).1
              (pixel_to_grid cx cy).2) as [v Hv];
    [done | apply pixel_to_grid_in_grid |].
  rewrite Hv. cbn [mbind option_bind].
  case_bool_decide; [by exists false | by exists b].
Qed.

(** The column and the row of a pixel. *)
Lemma pixel_to_grid_axes (px py : Z) :
  pixel_to_grid px py = ((pixel_to_grid px 0).1, (pixel_to_grid 0 py).2).
Proof. done. Qed.

(** The cell of a point between two sampled corners, on one axis. *)
Lemma column_between (a m : Z) :
  a + 2 ≤ m ≤ a + PLAYER_SIZE - 2 →
  (pixel_to_grid m 0).1 = (pixel_to_grid (a + 2) 0).1 ∨
  (pixel_to_grid m 0).1 = (pixel_to_grid (a + PLAYER_SIZE - 2) 0).1.
Proof.
  unfold pixel_to_grid, PLAYER_SIZE, TILE, GRID_COLS. rewrite OFFSET_X_value.
  cbn [fst snd]. intros Hm.
  pose proof (Z.div_mod (m - 48) 32).
  pose proof (Z.mod_pos_bound (m - 48) 32).
  pose proof (Z.div_mod (a + 2 - 48) 32).
  pose proof (Z.mod_pos_bound (a + 2 - 48) 32).
  pose proof (Z.div_mod (a + (32 - 6) - 2 - 48) 32).
  pose proof (Z.mod_pos_bound (a + (32 - 6) - 2 - 48) 32).
  lia.
Qed.

Lemma row_between (a m : Z) :
  a + 2 ≤ m ≤ a + PLAYER_SIZE - 2 →
  (pixel_to_grid 0 m).2 = (pixel_to_grid 0 (a + 2)).2 ∨
  (pixel_to_grid 0 m).2 = (pixel_to_grid 0 (a + PLAYER_SIZE - 2)).2.
Proof.
  unfold pixel_to_grid, PLAYER_SIZE, TILE, GRID_ROWS, OFFSET_Y.
  cbn [fst snd]. intros Hm.
  pose proof (Z.div_mod (m - 80) 32).
  pose proof (Z.mod_pos_bound (m - 80) 32).
  pose proof (Z.div_mod (a + 2 - 80) 32).
  pose proof (Z.mod_pos_bound (a + 2 - 80) 32).
  pose proof (Z.div_mod (a + (32 - 6) - 2 - 80) 32).
  pose proof (Z.mod_pos_bound (a + (32 - 6) - 2 - 80) 32).
  lia.
Qed.

(** A point whose column and row lie between those of the corners of a
    legal position is over a cell that is not a wall. *)
Lemma legal_between (self : MazeRunner) (px py mx my : Z) :
  can_move_to self px py = Some true →
  px + 2 ≤ mx ≤ px + PLAYER_SIZE - 2 →
  py + 2 ≤ my ≤ py + PLAYER_SIZE - 2 →
  ∃ v, sampled (grid self) (mx, my) = Some v ∧ v ≠ 0.
Proof.
  intros Hlegal Hx Hy.
  pose proof (corners_free_true _ _ Hlegal) as Hcs.
  assert (∃ q, q ∈ corners px py ∧
            pixel_to_grid mx my = pixel_to_grid q.1 q.2) as (q & Hq & Heq).
  { rewrite (pixel_to_grid_axes mx my).
    destruct (column_between px mx Hx) as [-> | ->],
             (row_between py my Hy) as [-> | ->].
    - exists (px + 2, py + 2). split; [set_solver | done].
    - exists (px + 2, py + PLAYER_SIZE - 2). split; [set_solver | done].
    - exists (px + PLAYER_SIZE - 2, py + 2). split; [set_solver | done].
    - exists (px + PLAYER_SIZE - 2, py + PLAYER_SIZE - 2).
      split; [set_solver | done]. }
  destruct (Hcs q Hq) as (v & Hv & Hv0). exists v. split; [|done].
  unfold sampled in *. cbn [fst snd]. by rewrite Heq.
Qed.

(** X9.  The cell that [update_player_cell] and [update_enemy_cell] derive
    from a legal position, the cell under the centre of the footprint, is
    never a wall. *)
Theorem legal_centre_clear (self : MazeRunner) (pos : Z * Z) :
  legal self pos → centre_clear (grid self) pos.
Proof.
  intros Hl. unfold centre_clear, centre.
  apply (legal_between self pos.1 pos.2); [done | |];
    unfold PLAYER_SIZE, TILE; change ((32 - 6) / 2) with 13; lia.
Qed.

Lemma legal_centre_clear_witness :
  let self := game_at corner_grid 1 3 (86, 118) in
  legal self (86, 118) ∧ centre_clear (grid self) (86, 118).
Proof.
  intros self.
  assert (legal self (86, 118)) as Hl by reflexivity.
  split; [exact Hl | exact (legal_centre_clear self (86, 118) Hl)].
Defined.

(** The adversary's step returns only the game it was given. *)
Lemma step_enemy_returns (self self' : MazeRunner) (v : float * float) :
  step_enemy self v = Returns self' → self' = self.
Proof.
  unfold step_enemy. destruct v as [vx vy].
  destruct (num_add _ (PyFloat vx)) as [new_ex|];
    cbn [raising mbind Outcome_bind]; [|done].
  destruct (num_add _ (PyFloat vy)) as [new_ey|];
    cbn [raising mbind Outcome_bind]; [|done].
  destruct (can_move_to_num self new_ex _) as [[|]|];
    cbn [raising mbind Outcome_bind]; [done| |done].
  destruct (can_move_to_num self _ new_ey) as [[|]|];
    cbn [raising mbind Outcome_bind]; [done| |done].
  by intros [= <-].
Qed.

(** On a grid of the fixed size with a wall border, the step stores no
    [float]. *)
Lemma step_enemy_bordered (self : MazeRunner) (v : float * float) :
  well_formed (grid self) → bordered (grid self) →
  step_enemy self v = Raises ∨ step_enemy self v = Returns self.
Proof.
  intros Hwf Hb. unfold step_enemy. destruct v as [vx vy].
  destruct (num_add_float_r (enemy_pos self).1 vx) as [-> | [new_ex ->]];
    [by left|].
  cbn [raising mbind Outcome_bind].
  destruct (num_add_float_r (enemy_pos self).2 vy) as [-> | [new_ey ->]];
    [by left|].
  cbn [raising mbind Outcome_bind].
  pose proof (can_move_to_num_float_x self new_ex (enemy_pos self).2 Hwf Hb)
    as Hx.
  destruct (can_move_to_num self (PyFloat new_ex) _) as [[|]|];
    cbn [raising mbind Outcome_bind]; [done | | by left].
  pose proof (can_move_to_num_float_y self (enemy_pos self).1 new_ey Hwf Hb)
    as Hy.
  destruct (can_move_to_num self _ (PyFloat new_ey)) as [[|]|];
    cbn [raising mbind Outcome_bind]; [done | by right | by left].
Qed.

(** X10.  On a grid of the fixed size whose border is wall, the
    adversary's step never moves the adversary: whatever the velocity, the
    step raises an exception or leaves the game object as it is, and no
    [float] is stored in [enemy_pos]. *)
Theorem step_enemy_never_moves (self : MazeRunner) (v : float * float) :
  well_formed (grid self) → bordered (grid self) →
  step_enemy self v = Raises ∨ step_enemy self v = Returns self.
Proof. exact (step_enemy_bordered self v). Qed.

Lemma step_enemy_never_moves_witness :
  let inside := game_at room_grid 1 3 (300, 300) in
  let outside := game_at room_grid 1 3 (0, 0) in
  well_formed room_grid ∧ bordered room_grid ∧
  step_enemy inside ((-2)%float, 0%float) = Raises ∧
  step_enemy outside (2%float, 2%float) = Returns outside ∧
  (step_enemy inside (2%float, 2%float) = Raises ∨
   step_enemy inside (2%float, 2%float) = Returns inside).
Proof.
  intros inside outside.
  assert (well_formed room_grid) as Hwf by apply grid_of_well_formed.
  assert (bordered room_grid) as Hb by exact room_grid_border.
  split; [exact Hwf|]. split; [exact Hb|].
  split; [by vm_compute|]. split; [by vm_compute|].
  exact (step_enemy_never_moves inside (2%float, 2%float) Hwf Hb).
Defined.

(** Without the wall border a test can pass: on a grid without walls, from
    pixel (0, 0), every corner of the proposed position is clamped onto the
    free cell (0, 0), and the [float] is stored. *)
Example step_enemy_stores_float :
  step_enemy (game_at (grid_of (λ _, true)) 1 3 (0, 0)) (2%float, 2%float)
  = StoresFloat.
Proof. by vm_compute. Qed.

(** X11.  The player's move keeps the cell under its centre clear: if that
    cell is not a wall before the move and the step is at most 11 pixels on
    one of the axes, it is not a wall after the move, although the position
    itself need not stay legal. *)
Theorem move_player_centre_clear (self self' : MazeRunner) (dx dy : Z) :
  centre_clear (grid self) (player_pos self) →
  Z.abs dx ≤ 11 ∨ Z.abs dy ≤ 11 →
  move_player self (Some (dx, dy)) = Some self' →
  centre_clear (grid self') (player_pos self') ∧ grid self' = grid self.
Proof.
  intros Hclear Hsmall. unfold move_player.
  destruct self as [lvl lvs st g [x y] ep pc ec].
  cbn [player_pos grid fst snd] in *.
  set (self := mkGame lvl lvs st g (x, y) ep pc ec).
  destruct (can_move_to self (x + dx) y) as [ok_x|] eqn:Hx; [|done].
  cbn [mbind option_bind].
  destruct (can_move_to self x (y + dy)) as [ok_y|] eqn:Hy; [|done].
  cbn [mbind option_bind].
  assert (13 = PLAYER_SIZE / 2) as E13 by reflexivity.
  destruct ok_x, ok_y; intros [= <-];
    cbn [player_pos set_player_pos grid fst snd]; (split; [|done]);
    unfold centre_clear, centre; cbn [fst snd]; rewrite <- E13.
  - destruct Hsmall as [Hdx | Hdy].
    + apply (legal_between self x (y + dy)); [done | |];
        unfold PLAYER_SIZE, TILE; lia.
    + apply (legal_between self (x + dx) y); [done | |];
        unfold PLAYER_SIZE, TILE; lia.
  - apply (legal_between self (x + dx) y); [done | |];
      unfold PLAYER_SIZE, TILE; lia.
  - apply (legal_between self x (y + dy)); [done | |];
      unfold PLAYER_SIZE, TILE; lia.
  - unfold centre_clear, centre in Hclear. cbn [fst snd] in Hclear.
    by rewrite <- E13 in Hclear.
Qed.

Lemma move_player_centre_clear_witness :
  let self := game_at corner_grid 1 3 (86, 118) in
  centre_clear (grid self) (player_pos self) ∧
  (Z.abs 2 ≤ 11 ∨ Z.abs 2 ≤ 11) ∧
  move_player self (Some (2, 2)) = Some (set_player_pos (88, 120) self) ∧
  centre_clear (grid self) (88, 120) ∧
  can_move_to self 88 120 = Some false.
Proof.
  intros self.
  assert (centre_clear (grid self) (player_pos self)) as Hc.
  { exists 1. split; [reflexivity | discriminate]. }
  assert (Z.abs 2 ≤ 11 ∨ Z.abs 2 ≤ 11) as Hs by (left; simpl; lia).
  assert (move_player self (Some (2, 2)) = Some (set_player_pos (88, 120) self))
    as Hm by reflexivity.
  split; [exact Hc|]. split; [exact Hs|]. split; [exact Hm|].
  split; [|reflexivity].
  exact (proj1 (move_player_centre_clear self _ 2 2 Hc Hs Hm)).
Defined.

(** *** The spawn points on generated grids *)

Lemma sampled_spawn_corners (p : Z * Z) :
  p ∈ corners player_spawn_pos.1 player_spawn_pos.2 →
  pixel_to_grid p.1 p.2 = spawn_cell.
Proof.
  intros Hp.
  change (p ∈ [(85, 117); (107, 117); (85, 139); (107, 139)]) in Hp.
  rewrite !elem_of_cons, elem_of_nil in Hp.
  destruct Hp as [-> | [-> | [-> | [-> | []]]]]; reflexivity.
Qed.

(** X12.  On every grid that [generate_maze] returns, the player's spawn
    position is legal and the adversary's spawn position is not. *)
Theorem spawn_positions_on_generated (lvl : Z) (r : Rng) :
  ∃ g r', generate_maze lvl r = Some (g, r') ∧
    ∀ self, grid self = g →
      can_move_to self player_spawn_pos.1 player_spawn_pos.2 = Some true ∧
      can_move_to self enemy_spawn_pos.1 enemy_spawn_pos.2 = Some false.
Proof.
  destruct (generate_maze_spec lvl r) as (g & r' & Hg & Hwf & Hspawn & _ & Heven).
  exists g, r'. split; [done|]. intros self <-. split.
  - apply corners_free_clear. intros p Hp. exists 1. split; [|done].
    unfold sampled. by rewrite (sampled_spawn_corners p Hp).
  - apply (corners_free_wall _ _ (enemy_spawn_pos.1 + 2, enemy_spawn_pos.2 + 2));
      [done | by left |].
    unfold sampled. change (pixel_to_grid _ _) with exit_cell.
    apply Heven; done.
Qed.

Lemma spawn_positions_on_generated_witness :
  ∃ g r', generate_maze 1 (rng_mix 1) = Some (g, r') ∧
    grid (game_at g 1 3 player_spawn_pos) = g ∧
    can_move_to (game_at g 1 3 player_spawn_pos)
      player_spawn_pos.1 player_spawn_pos.2 = Some true ∧
    can_move_to (game_at g 1 3 player_spawn_pos)
      enemy_spawn_pos.1 enemy_spawn_pos.2 = Some false.
Proof.
  destruct (spawn_positions_on_generated 1 (rng_mix 1)) as (g & r' & Hg & H).
  exists g, r'. split; [exact Hg|].
  split; [reflexivity|].
  exact (H (game_at g 1 3 player_spawn_pos) eq_refl).
Defined.

(** ** One tick *)

Lemma move_player_session (self self' : MazeRunner) (input_dir : option (Z * Z)) :
  move_player self input_dir = Some self' →
  same_session self self' ∧ enemy_pos self' = enemy_pos self.
Proof.
  unfold move_player. destruct input_dir as [[dx dy]|]; [|intros [= <-]; by repeat split].
  destruct (can_move_to self ((player_pos self).1 + dx) (player_pos self).2)
    as [ok_x|]; cbn [mbind option_bind]; [|done].
  destruct (can_move_to self (player_pos self).1 ((player_pos self).2 + dy))
    as [ok_y|]; cbn [mbind option_bind]; [|done].
  destruct self.
  destruct ok_x, ok_y; intros [= <-]; by repeat split.
Qed.

Lemma move_player_total (self : MazeRunner) (input_dir : option (Z * Z)) :
  well_formed (grid self) → ∃ self', move_player self input_dir = Some self'.
Proof.
  intros Hwf. unfold move_player. destruct input_dir as [[dx dy]|]; [|eauto].
  destruct (can_move_to_total self ((player_pos self).1 + dx)
              (player_pos self).2 Hwf) as [ok_x ->].
  destruct (can_move_to_total self (player_pos self).1
              ((player_pos self).2 + dy) Hwf) as [ok_y ->].
  cbn [mbind option_bind]. eauto.
Qed.

Section Tick.
Variable pow_half : float → float.

(** The adversary's part of a tick returns only the game it was given. *)
Lemma move_enemy_returns (self self' : MazeRunner) (path : option (list Cell)) :
  move_enemy pow_half self path = Returns self' → self' = self.
Proof.
  unfold move_enemy.
  destruct path as [[|c0 [|c1 p]]|]; try (by intros [= <-]).
  destruct (grid_to_pixel c1.1 c1.2) as [nx ny].
  case_bool_decide; [|by intros [= <-]].
  destruct (enemy_velocity pow_half _ _) as [v|];
    cbn [raising mbind Outcome_bind]; [|done].
  apply step_enemy_returns.
Qed.

(** Without a route of two cells or more it returns. *)
Lemma move_enemy_no_route (self : MazeRunner) (path : option (list Cell)) :
  (∀ p, path = Some p → (length p < 2)%nat) →
  move_enemy pow_half self path = Returns self.
Proof.
  intros Hp. unfold move_enemy.
  destruct path as [[|c0 [|c1 p]]|]; try done.
  specialize (Hp _ eq_refl). cbn [length] in Hp. lia.
Qed.

(** On a grid of the fixed size with a wall border it stores no [float]. *)
Lemma move_enemy_bordered (self : MazeRunner) (path : option (list Cell)) :
  well_formed (grid self) → bordered (grid self) →
  move_enemy pow_half self path = Raises ∨
  move_enemy pow_half self path = Returns self.
Proof.
  intros Hwf Hb. unfold move_enemy.
  destruct path as [[|c0 [|c1 p]]|]; try (by right).
  destruct (grid_to_pixel c1.1 c1.2) as [nx ny].
  case_bool_decide; [|by right].
  destruct (enemy_velocity pow_half _ _) as [v|];
    cbn [raising mbind Outcome_bind]; [|by left].
  by apply step_enemy_bordered.
Qed.

Lemma check_catch_session (self : MazeRunner) :
  level (check_catch self) = level self ∧
  grid (check_catch self) = grid self ∧
  lives self - 1 ≤ lives (check_catch self) ≤ lives self ∧
  (state (check_catch self) = state self ∨
   state (check_catch self) = game_over).
Proof.
  unfold check_catch. destruct (rects_collide _ _ _ _).
  - destruct self as [lvl lvs st g0 pp ep pc ec].
    cbn [lives set_lives]. case_bool_decide;
      cbn [level lives state grid set_state set_lives reset_positions
             set_player_pos set_enemy_pos set_player_cell set_enemy_cell];
      (split; [done|]); (split; [done|]); (split; [lia|]);
      [by right | by left].
  - split; [done|]. split; [done|]. split; [lia | by left].
Qed.

Lemma check_exit_session (self self' : MazeRunner) (r r' : Rng) :
  check_exit self r = Some (self', r') →
  level self ≤ level self' ≤ level self + 1 ∧
  (level self ≤ MAX_LEVEL → level self' ≤ MAX_LEVEL) ∧
  lives self' = lives self ∧
  (state self' = state self ∨ state self' = win) ∧
  (well_formed (grid self) → well_formed (grid self')).
Proof.
  unfold check_exit. case_bool_decide.
  - case_bool_decide as Hlvl.
    + cbn [level set_level].
      destruct (generate_maze_spec (level self + 1) r)
        as (g & r1 & -> & Hwf & _).
      cbn [mbind option_bind]. intros [= <- <-].
      destruct self as [lvl lvs st g0 pp ep pc ec].
      cbn [level lives state grid set_level set_grid reset_positions
             set_player_pos set_enemy_pos set_player_cell set_enemy_cell] in *.
      split; [lia|]. split; [lia|]. split; [done|]. split; [by left | done].
    + intros [= <- <-]. destruct self as [lvl lvs st g0 pp ep pc ec].
      cbn [level lives state grid set_state] in *.
      split; [lia|]. split; [lia|]. split; [done|]. split; [by right | done].
  - intros [= <- <-].
    split; [lia|]. split; [lia|]. split; [done|]. split; [by left | done].
Qed.

Lemma check_exit_total (self : MazeRunner) (r : Rng) :
  ∃ self' r', check_exit self r = Some (self', r').
Proof.
  unfold check_exit. case_bool_decide; [|eauto].
  case_bool_decide; [|eauto].
  destruct (generate_maze_spec (level (set_level (level self + 1) self)) r)
    as (g & r1 & -> & _).
  cbn [mbind option_bind]. eauto.
Qed.

Lemma check_catch_enemy (self : MazeRunner) :
  enemy_pos (check_catch self) = enemy_pos self ∨
  enemy_pos (check_catch self) = enemy_spawn_pos.
Proof.
  unfold check_catch. destruct (rects_collide _ _ _ _); [|by left].
  case_bool_decide; [by left | by right].
Qed.

Lemma check_exit_enemy (self self' : MazeRunner) (r r' : Rng) :
  check_exit self r = Some (self', r') →
  bordered (grid self) →
  bordered (grid self') ∧
  (enemy_pos self' = enemy_pos self ∨ enemy_pos self' = enemy_spawn_pos).
Proof.
  unfold check_exit. case_bool_decide; [|intros [= <- <-]; by auto].
  case_bool_decide; [|intros [= <- <-]; by auto].
  cbn [level set_level].
  destruct (generate_maze_spec (level self + 1) r)
    as (g & r1 & -> & _ & _ & Hb & _).
  cbn [mbind option_bind]. intros [= <- <-] _. split; [exact Hb | by right].
Qed.

(** X13.  In a game on a grid of the fixed size whose border is wall, with
    both actors on the screen and a direction as [main_loop] passes it, one
    call of [update] never advances the adversary.  When it returns, the
    grid is again of the fixed size with a wall border and the adversary is
    where it was or back at its spawn point.  It raises an exception only
    in PLAYING when [bfs_path] has found a route of two cells or more from
    the adversary to the player.  It never stores a [float] in
    [enemy_pos]. *)
Theorem update_adversary_never_advances (self : MazeRunner)
    (input_dir : option (Z * Z)) (r : Rng) :
  well_formed (grid self) → bordered (grid self) →
  on_screen (player_pos self) → on_screen (enemy_pos self) →
  step_input input_dir →
  match update pow_half self input_dir r with
  | Returns (self', r') =>
      well_formed (grid self') ∧ bordered (grid self') ∧
      (enemy_pos self' = enemy_pos self ∨ enemy_pos self' = enemy_spawn_pos)
  | Raises =>
      state self = playing ∧
      ∃ moved p,
        move_player self input_dir = Some moved ∧
        bfs_path (grid self)
          (enemy_cell (update_enemy_cell moved))
          (player_cell (update_player_cell moved)) = Some (Some p) ∧
        (2 ≤ length p)%nat
  | StoresFloat => False
  end.
Proof.
  intros Hwf Hb _ _ _. unfold update.
  destruct (state self) eqn:Hst; try (by auto).
  destruct (move_player_total self input_dir Hwf) as [s1 Hs1].
  rewrite Hs1. cbn [raising mbind Outcome_bind].
  destruct (move_player_session _ _ _ Hs1) as [(_ & _ & _ & Hg1) He1].
  set (s2 := update_enemy_cell (update_player_cell s1)).
  assert (grid s2 = grid self) as Hg2 by (by rewrite Hg1).
  assert (enemy_pos s2 = enemy_pos self) as He2 by exact He1.
  pose proof (bfs_path_cases (grid s2) (enemy_cell s2) (player_cell s2))
    as Hcases.
  destruct (bfs_path (grid s2) (enemy_cell s2) (player_cell s2))
    as [path|] eqn:Hpath; [|by destruct Hcases; rewrite Hg2].
  cbn [raising mbind Outcome_bind].
  destruct (move_enemy_bordered s2 path) as [Hm | Hm];
    [by rewrite Hg2 | by rewrite Hg2 | |]; rewrite Hm;
    cbn [raising mbind Outcome_bind].
  - split; [done|]. exists s1.
    destruct path as [[|c0 [|c1 p]]|]; try done.
    exists (c0 :: c1 :: p). split; [done|]. split; [|cbn [length]; lia].
    rewrite <- Hg2. exact Hpath.
  - destruct (check_exit_total (check_catch s2) r) as (s4 & r4 & Hs4).
    rewrite Hs4. cbn [raising].
    destruct (check_catch_session s2) as (_ & Hgc & _).
    destruct (check_exit_enemy _ _ _ _ Hs4) as [Hb4 He4];
      [by rewrite Hgc, Hg2|].
    split; [|split; [exact Hb4|]].
    + apply (check_exit_session _ _ _ _ Hs4). by rewrite Hgc, Hg2.
    + rewrite <- He2.
      destruct He4 as [-> | ->]; [apply check_catch_enemy | by right].
Qed.

(** X14.  A tick that returns never raises the lives and lowers them by at
    most one; it never lowers the level, raises it by at most one and not
    beyond MAX_LEVEL; it never leads to MENU; and outside PLAYING it
    changes nothing. *)
Theorem update_bounds (self self' : MazeRunner) (input_dir : option (Z * Z))
    (r r' : Rng) :
  update pow_half self input_dir r = Returns (self', r') →
  lives self - 1 ≤ lives self' ≤ lives self ∧
  level self ≤ level self' ≤ level self + 1 ∧
  (level self ≤ MAX_LEVEL → level self' ≤ MAX_LEVEL) ∧
  (state self' = menu → state self = menu) ∧
  (state self ≠ playing → self' = self).
Proof.
  unfold update. intros Hup.
  destruct (state self) eqn:Hst;
    try (injection Hup as <- <-; rewrite Hst; repeat split; (lia || done)).
  destruct (move_player self input_dir) as [s1|] eqn:Hs1; [|done].
  cbn [raising mbind Outcome_bind] in Hup.
  destruct (move_player_session _ _ _ Hs1) as [(Hl1 & Hv1 & Ht1 & Hg1) _].
  set (s2 := update_enemy_cell (update_player_cell s1)) in *.
  destruct (bfs_path (grid s2) (enemy_cell s2) (player_cell s2))
    as [path|]; [|done].
  cbn [raising mbind Outcome_bind] in Hup.
  destruct (move_enemy pow_half s2 path) as [s3| |] eqn:Hs3; [|done..].
  cbn [raising mbind Outcome_bind] in Hup.
  apply move_enemy_returns in Hs3 as ->.
  destruct (check_exit (check_catch s2) r) as [[s4 r4]|] eqn:Hs4; [|done].
  injection Hup as -> ->.
  destruct (check_catch_session s2) as (Hlc & Hgc & Hvc & Htc).
  destruct (check_exit_session _ _ _ _ Hs4) as (Hle & Hmax & Hve & Hte & _).
  change (level s2) with (level s1) in Hlc.
  change (lives s2) with (lives s1) in Hvc.
  change (state s2) with (state s1) in Htc.
  rewrite Hlc, <- Hl1 in Hle, Hmax.
  rewrite <- Hv1 in Hvc. rewrite <- Ht1, Hst in Htc.
  split; [lia|]. split; [lia|]. split; [done|]. split; [|done].
  intros Hmenu. destruct Hte as [Hte | Hte]; [|congruence].
  rewrite Hmenu in Hte. destruct Htc; congruence.
Qed.

End Tick.

Lemma update_adversary_never_advances_witness :
  let game := mkGame 1 START_LIVES playing room_grid player_spawn_pos
                enemy_spawn_pos spawn_cell exit_cell in
  well_formed (grid game) ∧ bordered (grid game) ∧
  on_screen (player_pos game) ∧ on_screen (enemy_pos game) ∧
  step_input (Some (0, 0)) ∧
  update PrimFloat.sqrt game (Some (0, 0)) (rng_const 0) = Raises ∧
  state game = playing ∧
  ∃ moved p,
    move_player game (Some (0, 0)) = Some moved ∧
    bfs_path (grid game)
      (enemy_cell (update_enemy_cell moved))
      (player_cell (update_player_cell moved)) = Some (Some p) ∧
    (2 ≤ length p)%nat.
Proof.
  intros game.
  assert (well_formed (grid game)) as Hwf by apply grid_of_well_formed.
  assert (bordered (grid game)) as Hb by exact room_grid_border.
  assert (on_screen (player_pos game)) as Hp by (by vm_compute).
  assert (on_screen (enemy_pos game)) as He by (by vm_compute).
  assert (step_input (Some (0, 0))) as Hi.
  { exists 0, 0. unfold is_step, PLAYER_SPEED. split; [done|]. lia. }
  assert (update PrimFloat.sqrt game (Some (0, 0)) (rng_const 0) = Raises)
    as Hup by (by vm_compute).
  split; [exact Hwf|]. split; [exact Hb|]. split; [exact Hp|].
  split; [exact He|]. split; [exact Hi|]. split; [exact Hup|].
  pose proof (update_adversary_never_advances PrimFloat.sqrt game
                (Some (0, 0)) (rng_const 0) Hwf Hb Hp He Hi) as H.
  rewrite Hup in H. exact H.
Defined.

Lemma update_bounds_witness :
  update PrimFloat.sqrt (game_at room_grid 4 2 (300, 300)) (Some (0, 0))
    (rng_const 0)
  = Returns (mkGame 4 1 playing room_grid player_spawn_pos enemy_spawn_pos
               spawn_cell exit_cell, rng_const 0) ∧
  2 - 1 ≤ 1 ≤ 2 ∧ 4 ≤ 4 ≤ 4 + 1.
Proof.
  assert (update PrimFloat.sqrt (game_at room_grid 4 2 (300, 300))
            (Some (0, 0)) (rng_const 0)
          = Returns (mkGame 4 1 playing room_grid player_spawn_pos
                       enemy_spawn_pos spawn_cell exit_cell, rng_const 0))
    as Hup by reflexivity.
  split; [exact Hup|].
  destruct (update_bounds PrimFloat.sqrt _ _ _ _ _ Hup) as (Hv & Hl & _).
  split; [exact Hv | exact Hl].
Defined.

(** ** A started game on a sealed grid *)

(** On a sealed grid a legal position keeps the right corners left of the
    exit column. *)
Lemma legal_left_of_exit (self : MazeRunner) (px py : Z) :
  sealed (grid self) → can_move_to self px py = Some true →
  px + PLAYER_SIZE - 2 < OFFSET_X + (GRID_COLS - 2) * TILE.
Proof.
  intros [Hwf Hs] Hlegal.
  destruct (corners_free_true _ _ Hlegal (px + PLAYER_SIZE - 2, py + 2))
    as (v & Hv & Hv0); [set_solver|].
  destruct (decide (px + PLAYER_SIZE - 2 < OFFSET_X + (GRID_COLS - 2) * TILE))
    as [? | Hge]; [done|]. exfalso.
  unfold sampled in Hv. cbn [fst snd] in Hv.
  rewrite Hs in Hv; [congruence | apply pixel_to_grid_in_grid |].
  left. revert Hge. rewrite OFFSET_X_value.
  unfold pixel_to_grid, PLAYER_SIZE, TILE, GRID_COLS. rewrite OFFSET_X_value.
  cbn [fst snd]. intros Hge.
  pose proof (Z.div_mod (px + (32 - 6) - 2 - 48) 32).
  pose proof (Z.mod_pos_bound (px + (32 - 6) - 2 - 48) 32).
  lia.
Qed.

Lemma move_player_left_of_exit (self self' : MazeRunner)
    (input_dir : option (Z * Z)) :
  sealed (grid self) → left_of_exit self →
  move_player self input_dir = Some self' → left_of_exit self'.
Proof.
  intros Hs Hleft. unfold move_player.
  destruct input_dir as [[dx dy]|]; [|by intros [= <-]].
  destruct (can_move_to self ((player_pos self).1 + dx) (player_pos self).2)
    as [ok_x|] eqn:Hx; cbn [raising mbind option_bind Outcome_bind]; [|done].
  destruct (can_move_to self (player_pos self).1 ((player_pos self).2 + dy))
    as [ok_y|]; cbn [raising mbind option_bind Outcome_bind]; [|done].
  intros [= <-]. unfold left_of_exit in *.
  destruct ok_x.
  - apply (legal_left_of_exit self) in Hx; [|done].
    destruct self as [lvl lvs st g [x y] ep pc ec]. by destruct ok_y.
  - destruct self as [lvl lvs st g [x y] ep pc ec]. by destruct ok_y.
Qed.

(** Left of the exit column the player's cell is not the exit cell and its
    footprint does not touch the adversary's spawn footprint. *)
Lemma left_of_exit_apart (self : MazeRunner) :
  left_of_exit self →
  player_cell (update_player_cell self) ≠ exit_cell ∧
  rects_collide (player_pos self) PLAYER_SIZE enemy_spawn_pos ENEMY_SIZE = false.
Proof.
  unfold left_of_exit. destruct self as [lvl lvs st g [x y] ep pc ec].
  cbn [player_pos fst snd]. rewrite OFFSET_X_value.
  unfold PLAYER_SIZE, TILE, GRID_COLS. intros Hx. split.
  - unfold update_player_cell, pixel_to_grid, exit_cell, PLAYER_SIZE, TILE,
      GRID_COLS, GRID_ROWS.
    cbn [player_cell set_player_cell player_pos fst snd].
    rewrite OFFSET_X_value. change ((32 - 6) / 2) with 13.
    intros [= Hc _].
    pose proof (Z.div_mod (x + 13 - 48) 32).
    pose proof (Z.mod_pos_bound (x + 13 - 48) 32).
    lia.
  - apply not_true_is_false. intros Hc.
    apply (proj1 (rects_collide_apart _ _)) in Hc as [Hc _].
    change enemy_spawn_pos.1 with 691 in Hc. cbn [fst] in Hc.
    unfold PLAYER_SIZE, TILE in Hc. lia.
Qed.

Section Stalemate.
Variable pow_half : float → float.

(** A tick of a stalemate. *)
Lemma update_stalemate (self : MazeRunner) (input_dir : option (Z * Z))
    (r : Rng) :
  stalemate self →
  ∃ self', update pow_half self input_dir r = Returns (self', r) ∧
    stalemate self' ∧ same_session self self'.
Proof.
  intros (Hst & Hs & Hen & Hleft). unfold update. rewrite Hst.
  destruct (move_player_total self input_dir (proj1 Hs)) as [s1 Hs1].
  rewrite Hs1. cbn [raising mbind option_bind Outcome_bind].
  destruct (move_player_session _ _ _ Hs1) as [(Hl1 & Hv1 & Ht1 & Hg1) He1].
  pose proof (move_player_left_of_exit _ _ _ Hs Hleft Hs1) as Hleft1.
  destruct (left_of_exit_apart s1 Hleft1) as [Hcell Hapart].
  set (s2 := update_enemy_cell (update_player_cell s1)).
  assert (enemy_cell s2 = exit_cell) as Hec.
  { unfold s2, update_enemy_cell. cbn [enemy_cell set_enemy_cell].
    change (enemy_pos (update_player_cell s1)) with (enemy_pos s1).
    by rewrite He1, Hen. }
  assert (player_cell s2 = player_cell (update_player_cell s1)) as Hpc by done.
  assert (grid s2 = grid self) as Hg2 by (by rewrite Hg1).
  rewrite Hec, Hg2, bfs_path_sealed by (done || by rewrite Hpc).
  cbn [raising mbind option_bind Outcome_bind move_enemy].
  assert (check_catch s2 = s2) as ->.
  { unfold check_catch.
    change (player_pos s2) with (player_pos s1).
    change (enemy_pos s2) with (enemy_pos s1).
    by rewrite He1, Hen, Hapart. }
  rewrite check_exit_elsewhere by (by rewrite Hpc).
  exists s2. split; [done|]. split.
  - split; [change (state s1 = playing); congruence|].
    split; [by rewrite Hg2|].
    split; [change (enemy_pos s1 = enemy_spawn_pos); congruence | exact Hleft1].
  - split; [exact Hl1|]. split; [exact Hv1|]. split; [exact Ht1|].
    by rewrite Hg2.
Qed.


End Stalemate.


(** ** The mouse handler and the frame *)

Lemma start_not_exit (pos : Z * Z) :
  collidepoint start_button pos = true → collidepoint exit_button pos = false.
Proof.
  unfold collidepoint, start_button, exit_button. cbn [rx ry rw rh].
  intros H%bool_decide_eq_true. apply bool_decide_eq_false. lia.
Qed.

(** The start button in MENU. *)
Lemma mouse_button_down_start (game : MazeRunner) (inp : Inputs) (pos : Z * Z)
    (r : Rng) :
  state game = menu → collidepoint start_button pos = true →
  ∃ game' r',
    mouse_button_down game inp pos r
    = Some (Continue game' (mkInputs (input_dx inp) (input_dy inp) true) r') ∧
    generate_maze 1 r = Some (grid game', r') ∧
    level game' = 1 ∧ lives game' = START_LIVES ∧ stalemate game'.
Proof.
  intros Hst Hstart. unfold mouse_button_down. rewrite Hst, Hstart.
  cbn [level set_level set_lives set_state].
  destruct (generate_maze_shape 1 r) as (g & r' & Hg & _ & _ & _ & Hs).
  rewrite Hg. cbn [raising mbind option_bind Outcome_bind].
  rewrite (start_not_exit pos Hstart).
  eexists _, r'. split; [done|]. split; [done|]. split; [done|].
  split; [done|]. split; [done|]. split; [done|]. split; [done|].
  unfold left_of_exit. by vm_compute.
Qed.

(** X16.  A click on the start button in MENU never quits: it starts a
    game on level 1 with 3 lives, in PLAYING, on a grid newly generated for
    level 1, which is sealed, with both actors at their spawn positions and
    cells; the player is then left of the exit column. *)
Theorem start_click (game : MazeRunner) (inp : Inputs) (pos : Z * Z)
    (r : Rng) :
  state game = menu → collidepoint start_button pos = true →
  ∃ game' r',
    mouse_button_down game inp pos r
    = Some (Continue game' (mkInputs (input_dx inp) (input_dy inp) true) r') ∧
    generate_maze 1 r = Some (grid game', r') ∧
    level game' = 1 ∧ lives game' = START_LIVES ∧ stalemate game' ∧
    at_spawn game'.
Proof.
  intros Hst Hstart. unfold mouse_button_down. rewrite Hst, Hstart.
  cbn [level set_level set_lives set_state].
  destruct (generate_maze_shape 1 r) as (g & r' & Hg & _ & _ & _ & Hs).
  rewrite Hg. cbn [mbind option_bind].
  rewrite (start_not_exit pos Hstart).
  eexists _, r'. split; [done|]. split; [done|]. split; [done|].
  split; [done|]. split; [|done].
  split; [done|]. split; [done|]. split; [done|].
  unfold left_of_exit. by vm_compute.
Qed.

Lemma start_click_witness :
  let game := mkGame 57 0 menu room_grid (200, 200) (200, 200) (4, 3) (4, 3) in
  state game = menu ∧ collidepoint start_button (350, 240) = true ∧
  ∃ game' r',
    mouse_button_down game (mkInputs 0 0 false) (350, 240) (rng_const 0)
    = Some (Continue game' (mkInputs 0 0 true) r') ∧
    level game' = 1 ∧ lives game' = START_LIVES ∧ stalemate game' ∧
    at_spawn game'.
Proof.
  intros game.
  assert (state game = menu) as Hst by reflexivity.
  assert (collidepoint start_button (350, 240) = true) as Hc by reflexivity.
  split; [exact Hst|]. split; [exact Hc|].
  destruct (start_click game (mkInputs 0 0 false) (350, 240) (rng_const 0)
              Hst Hc) as (game' & r' & Hdown & _ & Hl & Hv & Hs & Hsp).
  exists game', r'. split; [exact Hdown|]. split; [exact Hl|].
  split; [exact Hv|]. split; [exact Hs | exact Hsp].
Defined.

(** In PLAYING the mouse handler changes nothing but the input variables. *)
Lemma mouse_button_down_playing (game : MazeRunner) (inp : Inputs)
    (pos : Z * Z) (r : Rng) :
  state game = playing →
  ∃ inp', mouse_button_down game inp pos r = Some (Continue game inp' r).
Proof. unfold mouse_button_down. intros ->. eauto. Qed.

(** X17.  The mouse handler ends the process only in MENU and only on the
    exit button; in PLAYING it changes nothing but the input variables. *)
Theorem mouse_button_down_effects (game : MazeRunner) (inp : Inputs)
    (pos : Z * Z) (r : Rng) :
  (mouse_button_down game inp pos r = Some Exited →
     state game = menu ∧ collidepoint exit_button pos = true) ∧
  (state game = playing →
     ∃ inp', mouse_button_down game inp pos r = Some (Continue game inp' r)).
Proof.
  unfold mouse_button_down. split.
  - destruct (state game).
    + destruct (collidepoint start_button pos).
      * cbn [level set_level set_lives set_state].
        destruct (generate_maze 1 r) as [[g r']|]; cbn [raising mbind option_bind Outcome_bind];
          [|done].
        destruct (collidepoint exit_button pos); done.
      * cbn [raising mbind option_bind Outcome_bind].
        destruct (collidepoint exit_button pos); done.
    + done.
    + by destruct (collidepoint restart_button pos).
    + done.
  - apply mouse_button_down_playing.
Qed.

Lemma mouse_button_down_effects_witness :
  let game := mkGame 57 0 menu room_grid (200, 200) (200, 200) (4, 3) (4, 3) in
  mouse_button_down game (mkInputs 0 0 false) (350, 300) (rng_const 0)
  = Some Exited ∧
  state game = menu ∧ collidepoint exit_button (350, 300) = true ∧
  state (set_state playing game) = playing ∧
  ∃ inp', mouse_button_down (set_state playing game) (mkInputs 0 0 false)
            (40, 530) (rng_const 0)
          = Some (Continue (set_state playing game) inp' (rng_const 0)).
Proof.
  intros game.
  assert (mouse_button_down game (mkInputs 0 0 false) (350, 300) (rng_const 0)
          = Some Exited) as Hexit by reflexivity.
  assert (state (set_state playing game) = playing) as Hp by reflexivity.
  destruct (proj1 (mouse_button_down_effects game (mkInputs 0 0 false)
                     (350, 300) (rng_const 0)) Hexit) as [Hm Hb].
  split; [exact Hexit|]. split; [exact Hm|]. split; [exact Hb|].
  split; [exact Hp|].
  exact (proj2 (mouse_button_down_effects (set_state playing game)
                  (mkInputs 0 0 false) (40, 530) (rng_const 0)) Hp).
Defined.

(** *** The input variables *)

Lemma keyboard_dir_steps (k : Keys) :
  is_step (keyboard_dir k).1 ∧ is_step (keyboard_dir k).2.
Proof.
  unfold keyboard_dir, is_step, PLAYER_SPEED.
  destruct (K_LEFT k || K_a k), (K_RIGHT k || K_d k),
    (K_UP k || K_w k), (K_DOWN k || K_s k); cbn [fst snd]; lia.
Qed.

Lemma mouse_button_down_steps (game game' : MazeRunner) (inp inp' : Inputs)
    (pos : Z * Z) (r r' : Rng) :
  steps inp → mouse_button_down game inp pos r = Some (Continue game' inp' r') →
  steps inp'.
Proof.
  intros [Hx Hy]. unfold mouse_button_down. destruct (state game).
  - destruct (if collidepoint start_button pos then _ else _) as [[g1 r1]|];
      cbn [raising mbind option_bind Outcome_bind]; [|done].
    destruct (collidepoint exit_button pos); [done|]. by intros [= <- <- <-].
  - cbn [input_dx input_dy mouse_held].
    intros [= <- <- <-]. unfold steps, is_step, PLAYER_SPEED in *.
    cbn [input_dx input_dy].
    destruct (collidepoint left_btn pos), (collidepoint right_btn pos),
      (collidepoint up_btn pos), (collidepoint down_btn pos); lia.
  - destruct (collidepoint restart_button pos); by intros [= <- <- <-].
  - by intros [= <- <- <-].
Qed.

Lemma handle_event_steps (running running' : bool) (game game' : MazeRunner)
    (inp inp' : Inputs) (r r' : Rng) (e : Event) :
  steps inp →
  handle_event (Looping running game inp r) e
  = Some (Looping running' game' inp' r') →
  steps inp'.
Proof.
  intros Hs. destruct e as [|pos| |]; cbn [handle_event].
  - by intros [= <- <- <- <-].
  - destruct (mouse_button_down game inp pos r) as [[g1 i1 r1|]|] eqn:Hd;
      cbn [raising mbind option_bind Outcome_bind]; [|done..].
    intros [= <- <- <- <-]. by eapply mouse_button_down_steps.
  - intros [= <- <- <- <-]. unfold steps, is_step. cbn. lia.
  - by intros [= <- <- <- <-].
Qed.

Lemma handle_events_steps (es : list Event) (running running' : bool)
    (game game' : MazeRunner) (inp inp' : Inputs) (r r' : Rng) :
  steps inp →
  handle_events (Looping running game inp r) es
  = Some (Looping running' game' inp' r') →
  steps inp'.
Proof.
  revert running game inp r.
  induction es as [|e es IH]; intros running game inp r Hs; cbn [handle_events].
  { by intros [= <- <- <- <-]. }
  destruct (handle_event (Looping running game inp r) e) as [[b1 g1 i1 r1|]|]
    eqn:He; cbn [raising mbind option_bind Outcome_bind]; [| |done].
  - apply IH. by eapply handle_event_steps.
  - clear. induction es as [|e' es IH']; cbn [handle_events handle_event];
      [done|]. cbn [raising mbind option_bind Outcome_bind]. exact IH'.
Qed.

Lemma drag_steps (game : MazeRunner) (inp : Inputs) (focused : bool)
    (pos : Z * Z) :
  steps inp → steps (drag game inp focused pos).
Proof.
  intros Hs. unfold drag. destruct (mouse_held inp && focused); [|done].
  destruct (state game); try done.
  unfold steps, is_step, PLAYER_SPEED. cbn [input_dx input_dy].
  destruct (collidepoint left_btn pos), (collidepoint right_btn pos),
    (collidepoint up_btn pos), (collidepoint down_btn pos); lia.
Qed.

Lemma keyboard_override_steps (k : Keys) (inp : Inputs) :
  steps inp → steps (keyboard_override k inp).
Proof.
  intros Hs. unfold keyboard_override.
  pose proof (keyboard_dir_steps k) as Hk.
  destruct (keyboard_dir k) as [kdx kdy]. by case_bool_decide.
Qed.

Section Frames.
Variable pow_half : float → float.

(** X18.  As long as the input variables hold steps of the player's speed
    (they start at 0), so they do after a frame, whatever keys, events and
    mouse the frame sees; and when the keys ask for a motion, the input
    variables after the frame are that motion. *)
Theorem frame_input (running running' : bool) (game game' : MazeRunner)
    (inp inp' : Inputs) (r r' : Rng) (fi : FrameInput) :
  steps inp →
  frame pow_half (Looping running game inp r) fi
  = Returns (Looping running' game' inp' r') →
  steps inp' ∧
  (keyboard_dir (keys fi) ≠ (0, 0) →
   (input_dx inp', input_dy inp') = keyboard_dir (keys fi)).
Proof.
  intros Hs. unfold frame.
  destruct (handle_events (Looping running game inp r) (events fi))
    as [[b1 g1 i1 r1|]|] eqn:Hev; cbn [raising mbind option_bind Outcome_bind]; [|done..].
  pose proof (handle_events_steps _ _ _ _ _ _ _ _ _ Hs Hev) as Hs1.
  destruct (update pow_half g1 _ r1) as [[g2 r2]| |];
    cbn [raising mbind option_bind Outcome_bind]; [|done..].
  intros [= <- <- <- <-]. split.
  - by apply keyboard_override_steps, drag_steps.
  - unfold keyboard_override. destruct (keyboard_dir (keys fi)) as [kdx kdy].
    intros Hk. rewrite bool_decide_eq_true_2; [done|].
    destruct (decide (kdx = 0)) as [-> | ?]; [|by left].
    right. intros ->. done.
Qed.




End Frames.

Lemma frame_input_witness :
  let game := mkGame 1 3 playing corner_grid (86, 118) (691, 595) (1, 1) (20, 16) in
  let fi := mkFrameInput (mkKeys false false true false false false false true)
              [MOUSEBUTTONDOWN (40, 530); OTHER] true (40, 530) in
  steps (mkInputs 0 0 false) ∧
  frame PrimFloat.sqrt (Looping true game (mkInputs 0 0 false) (rng_const 0)) fi
  = Returns (Looping true (set_player_cell (1, 1) (set_player_pos (88, 120) game))
            (mkInputs 2 2 true) (rng_const 0)) ∧
  steps (mkInputs 2 2 true) ∧
  keyboard_dir (keys fi) = (2, 2).
Proof.
  intros game fi.
  assert (steps (mkInputs 0 0 false)) as Hs.
  { unfold steps, is_step. cbn [input_dx input_dy]. lia. }
  assert (frame PrimFloat.sqrt
            (Looping true game (mkInputs 0 0 false) (rng_const 0)) fi
          = Returns (Looping true
                    (set_player_cell (1, 1) (set_player_pos (88, 120) game))
                    (mkInputs 2 2 true) (rng_const 0))) as Hf
    by (vm_compute; reflexivity).
  split; [exact Hs|]. split; [exact Hf|].
  split; [exact (proj1 (frame_input PrimFloat.sqrt _ _ _ _ _ _ _ _ _ Hs Hf))|].
  reflexivity.
Defined.


(** ** Levels *)

(** X20.  [new_level] raises nothing for any level number.  It sets the
    level, stores the grid [generate_maze] returns for it, and puts both
    actors at their spawn positions and cells; lives and state are kept.
    A game in PLAYING is then in a stalemate on the new grid. *)
Theorem new_level_stalemate (self : MazeRunner) (lvl : Z) (r : Rng) :
  state self = playing →
  ∃ self' r',
    new_level self lvl r = Some (self', r') ∧
    generate_maze lvl r = Some (grid self', r') ∧
    level self' = lvl ∧ lives self' = lives self ∧
    state self' = state self ∧ at_spawn self' ∧ stalemate self'.
Proof.
  intros Hst. unfold new_level. cbn [level set_level].
  destruct (generate_maze_shape lvl r) as (g & r' & Hg & _ & _ & _ & Hs).
  rewrite Hg. cbn [mbind option_bind].
  eexists _, r'. split; [done|]. destruct self as [l v s g0 pp ep pc ec].
  cbn in Hst. subst s. split; [done|]. split; [done|]. split; [done|].
  split; [done|]. split; [done|].
  split; [done|]. split; [done|]. split; [done|].
  unfold left_of_exit. by vm_compute.
Qed.

Lemma new_level_stalemate_witness :
  let self := mkGame 1 3 playing corner_grid (86, 118) (691, 595) (1, 1) (20, 16) in
  state self = playing ∧
  ∃ self' r',
    new_level self 2 (rng_mix 4) = Some (self', r') ∧
    level self' = 2 ∧ lives self' = 3 ∧ at_spawn self' ∧ stalemate self'.
Proof.
  intros self.
  assert (state self = playing) as Hst by reflexivity.
  split; [exact Hst|].
  destruct (new_level_stalemate self 2 (rng_mix 4) Hst)
    as (self' & r' & Hn & _ & Hl & Hv & _ & Hsp & Hs).
  exists self', r'. split; [exact Hn|]. split; [exact Hl|].
  split; [exact Hv|]. split; [exact Hsp | exact Hs].
Defined.

(** ** The program from its start *)

Lemma handle_events_SysExit (es : list Event) :
  handle_events SysExit es = Some SysExit.
Proof. induction es as [|e es IH]; [done|]. cbn. exact IH. Qed.

Lemma mouse_button_down_first_level (game : MazeRunner) (inp : Inputs)
    (pos : Z * Z) (r : Rng) :
  first_level game →
  mouse_button_down game inp pos r = Some Exited ∨
  ∃ game' inp' r',
    mouse_button_down game inp pos r = Some (Continue game' inp' r') ∧
    first_level game'.
Proof.
  intros (Hl & Hv & [Hm | Hs]).
  - destruct (collidepoint start_button pos) eqn:Hstart.
    + destruct (mouse_button_down_start game inp pos r Hm Hstart)
        as (g1 & r1 & -> & _ & Hl1 & Hv1 & Hs1).
      right. eexists g1, _, r1. split; [done|]. split; [done|].
      split; [done|]. by right.
    + unfold mouse_button_down. rewrite Hm, Hstart. cbn [raising mbind option_bind Outcome_bind].
      destruct (collidepoint exit_button pos); [by left|].
      right. eexists game, _, r. split; [done|]. split; [done|].
      split; [done|]. by left.
  - destruct (mouse_button_down_playing game inp pos r (proj1 Hs))
      as [inp' ->].
    right. exists game, inp', r. split; [done|]. split; [done|].
    split; [done|]. by right.
Qed.

Lemma handle_events_first_level (es : list Event) (running : bool)
    (game : MazeRunner) (inp : Inputs) (r : Rng) :
  first_level game →
  handle_events (Looping running game inp r) es = Some SysExit ∨
  ∃ running' game' inp' r',
    handle_events (Looping running game inp r) es
    = Some (Looping running' game' inp' r') ∧
    first_level game' ∧ (running' = true → running = true).
Proof.
  revert running game inp r.
  induction es as [|e es IH]; intros running game inp r Hf;
    cbn [handle_events].
  { right. by exists running, game, inp, r. }
  destruct e as [|pos| |]; cbn [handle_event]; cbn [raising mbind option_bind Outcome_bind].
  - destruct (IH false game inp r Hf)
      as [-> | (b & g1 & i1 & r1 & -> & Hf1 & Hb)]; [by left|].
    right. exists b, g1, i1, r1. split; [done|]. split; [done|].
    intros ->. by specialize (Hb eq_refl).
  - destruct (mouse_button_down_first_level game inp pos r Hf)
      as [-> | (g1 & i1 & r1 & -> & Hf1)]; cbn [raising mbind option_bind Outcome_bind].
    + left. apply handle_events_SysExit.
    + by apply IH.
  - by apply IH.
  - by apply IH.
Qed.

Section Program.
Variable pow_half : float → float.

Lemma frame_first_level (running : bool) (game : MazeRunner) (inp : Inputs)
    (r : Rng) (fi : FrameInput) :
  first_level game →
  frame pow_half (Looping running game inp r) fi = Returns SysExit ∨
  ∃ running' game' inp' r',
    frame pow_half (Looping running game inp r) fi
    = Returns (Looping running' game' inp' r') ∧
    first_level game'.
Proof.
  intros Hf. unfold frame.
  destruct (handle_events_first_level (events fi) running game inp r Hf)
    as [-> | (b & g1 & i1 & r1 & -> & (Hl & Hv & [Hm | Hs]) & _)];
    cbn [raising mbind option_bind Outcome_bind]; [by left | |].
  - rewrite update_not_playing by (rewrite Hm; done).
    cbn [raising mbind option_bind Outcome_bind]. right. eexists b, g1, _, r1.
    split; [done|]. split; [done|]. split; [done|]. by left.
  - destruct (update_stalemate pow_half g1
                (Some (input_dx (keyboard_override (keys fi)
                         (drag g1 i1 (mouse_focused fi) (mouse_pos fi))),
                       input_dy (keyboard_override (keys fi)
                         (drag g1 i1 (mouse_focused fi) (mouse_pos fi)))))
                r1 Hs) as (g2 & -> & Hs2 & (Hl2 & Hv2 & _)).
    cbn [raising mbind option_bind Outcome_bind]. right. eexists b, g2, _, r1.
    split; [done|]. split; [congruence|]. split; [congruence|]. by right.
Qed.

Lemma main_loop_first_level (fis : list FrameInput) (running : bool)
    (game : MazeRunner) (inp : Inputs) (r : Rng) :
  first_level game →
  main_loop pow_half (Looping running game inp r) fis = Returns SysExit ∨
  ∃ game' inp' r',
    main_loop pow_half (Looping running game inp r) fis
    = Returns (Looping true game' inp' r') ∧
    first_level game'.
Proof.
  revert running game inp r.
  induction fis as [|fi fis IH]; intros running game inp r Hf.
  - destruct running; cbn [main_loop]; [|by left].
    right. by exists game, inp, r.
  - destruct running; cbn [main_loop]; [|by left].
    destruct (frame_first_level true game inp r fi Hf)
      as [-> | (b & g1 & i1 & r1 & -> & Hf1)]; cbn [raising mbind option_bind Outcome_bind].
    + left. by destruct fis.
    + by apply IH.
Qed.

(** X21.  The whole program: the game object is constructed, and
    [main_loop], started on it with the input variables at 0, runs through
    any frames of any keys, events and mouse positions, without an exception
    from the game's own statements.  It has then ended in [sys.exit()], or
    the game is still on level 1 with 3 lives, in MENU or in PLAYING: no
    level is ever completed, no life is ever lost, and GAME_OVER and WIN are
    never reached. *)
Theorem main_loop_never_leaves_level_1 (r : Rng) (fis : list FrameInput) :
  ∃ game r0,
    new_game r = Some (game, r0) ∧
    (main_loop pow_half (Looping true game (mkInputs 0 0 false) r0) fis
     = Returns SysExit ∨
     ∃ game' inp' r',
       main_loop pow_half (Looping true game (mkInputs 0 0 false) r0) fis
       = Returns (Looping true game' inp' r') ∧
       level game' = 1 ∧ lives game' = START_LIVES ∧
       (state game' = menu ∨ state game' = playing)).
Proof.
  unfold new_game.
  destruct (generate_maze_shape 1 r) as (g & r0 & -> & _).
  cbn [raising mbind option_bind Outcome_bind]. eexists _, r0. split; [done|].
  match goal with |- main_loop _ (Looping _ ?g0 _ _) _ = _ ∨ _ =>
    destruct (main_loop_first_level fis true g0 (mkInputs 0 0 false) r0)
      as [-> | (g1 & i1 & r1 & -> & Hl & Hv & Hst)]
  end.
  - split; [done|]. split; [done|]. by left.
  - by left.
  - right. exists g1, i1, r1. split; [done|]. split; [done|].
    split; [done|]. destruct Hst as [? | [? _]]; [by left | by right].
Qed.

End Program.

(** ** The post-process of generate_maze, cell by cell *)

Lemma randint_percent (r : Rng) :
  randint 1 100 r = (nth_percent r 0, λ i, r (S i)).
Proof. done. Qed.

Lemma draws_cons (g : Grid) (c : Cell) (cs : list Cell) :
  draws g (c :: cs) = ((if draws_for g c then 1 else 0) + draws g cs)%nat.
Proof.
  unfold draws. destruct (draws_for g c) eqn:Hc.
  - by rewrite filter_cons_True.
  - rewrite filter_cons_False; [done|]. by rewrite Hc.
Qed.

Lemma draws_ext (g g' : Grid) (cs : list Cell) :
  (∀ c, c ∈ cs → grid_get g' c.1 c.2 = grid_get g c.1 c.2) →
  draws g' cs = draws g cs.
Proof.
  intros H. induction cs as [|c cs IH]; [done|].
  rewrite !draws_cons, IH by (intros c' Hc'; apply H; by right).
  unfold draws_for. by rewrite H by (by left).
Qed.

(** One cell of the post-process: a number is drawn exactly for a free cell
    other than the spawn and the exit cell, and the cell becomes a wall
    exactly when the number is at most the chance of the level. *)
Lemma block_cell_law (lvl : Z) (g : Grid) (c : Cell) (r : Rng) :
  well_formed g → in_grid c →
  ∃ g' r', block_cell lvl g c r = Some (g', r') ∧
    (∀ k, r' k = r ((if draws_for g c then 1 else 0) + k)%nat) ∧
    well_formed g' ∧
    ∀ c', in_grid c' →
      grid_get g' c'.1 c'.2 =
        if bool_decide (c' = c) && draws_for g c &&
           reblocks lvl (nth_percent r 0)
        then Some 0 else grid_get g c'.1 c'.2.
Proof.
  intros Hwf Hin. unfold block_cell, draws_for.
  destruct c as [x y]. cbn [fst snd].
  case_bool_decide as Hskip.
  { exists g, r. rewrite bool_decide_eq_false_2 by tauto.
    split; [done|]. split; [done|]. split; [done|]. intros c' _.
    by rewrite andb_false_r. }
  destruct (grid_get_in_grid g x y Hwf Hin) as [v Hv].
  rewrite Hv. cbn [mbind option_bind].
  case_bool_decide as Hv1.
  2: { exists g, r.
       rewrite bool_decide_eq_false_2 by (intros [_ [=]]; done).
       split; [done|]. split; [done|]. split; [done|]. intros c' _.
       by rewrite andb_false_r. }
  subst v. rewrite bool_decide_eq_true_2 by done.
  rewrite randint_percent.
  destruct (reblocks lvl (nth_percent r 0)).
  - destruct (grid_set_in_grid g x y 0 Hwf Hin) as (g' & -> & Hwf' & Hg').
    cbn [mbind option_bind]. eexists g', _. split; [done|].
    split; [done|]. split; [done|].
    intros [x' y'] Hin'. cbn [fst snd]. rewrite Hg' by done.
    by rewrite !andb_true_r.
  - eexists g, _. split; [done|]. split; [done|]. split; [done|].
    intros c' _. by rewrite andb_false_r.
Qed.

(** The post-process over a list of distinct cells. *)
Lemma block_cells_law (lvl : Z) (cs : list Cell) (g : Grid) (r : Rng) :
  well_formed g → NoDup cs → Forall in_grid cs →
  ∃ g' r', block_cells lvl g cs r = Some (g', r') ∧
    (∀ k, r' k = r (draws g cs + k)%nat) ∧
    well_formed g' ∧
    (∀ c, in_grid c → c ∉ cs → grid_get g' c.1 c.2 = grid_get g c.1 c.2) ∧
    (∀ (i : nat) c, cs !! i = Some c →
       grid_get g' c.1 c.2 =
         if draws_for g c &&
            reblocks lvl (nth_percent r (draws g (take i cs)))
         then Some 0 else grid_get g c.1 c.2).
Proof.
  intros Hwf Hnd Hcs. revert g r Hwf.
  induction cs as [|c cs IH]; intros g r Hwf.
  { exists g, r. split; [done|]. split; [done|]. split; [done|].
    split; [done|]. done. }
  apply NoDup_cons in Hnd as [Hc Hnd]. apply Forall_cons in Hcs as [Hin Hcs].
  cbn [block_cells].
  destruct (block_cell_law lvl g c r Hwf Hin)
    as (g1 & r1 & -> & Hr1 & Hwf1 & Hg1).
  cbn [mbind option_bind].
  destruct (IH Hnd Hcs g1 r1 Hwf1) as (g2 & r2 & -> & Hr2 & Hwf2 & Hout & Hlaw).
  assert (∀ c', in_grid c' → c' ≠ c →
            grid_get g1 c'.1 c'.2 = grid_get g c'.1 c'.2) as Hsame.
  { intros c' Hin' Hne. rewrite Hg1 by done.
    by rewrite bool_decide_eq_false_2. }
  assert (∀ l, l ⊆ cs → draws g1 l = draws g l) as Hdraws.
  { intros l Hl. apply draws_ext. intros c' Hc'. apply Hsame.
    - eapply Forall_forall; [exact Hcs | by apply Hl].
    - intros ->. by apply Hc, Hl. }
  exists g2, r2. split; [done|]. split; [|split; [done|split]].
  - intros k. rewrite Hr2, Hr1, draws_cons, (Hdraws cs) by done. f_equal. lia.
  - intros c' Hin' Hnot. apply not_elem_of_cons in Hnot as [Hne Hnot].
    rewrite Hout by done. by apply Hsame.
  - intros [|i] c' Hi; cbn [lookup list_lookup take] in Hi |- *.
    + injection Hi as ->. rewrite Hout by done. rewrite Hg1 by done.
      rewrite bool_decide_eq_true_2 by done. cbn [andb]. done.
    + assert (c' ∈ cs) as Hc' by (by eapply list_elem_of_lookup_2).
      assert (in_grid c') as Hin' by (by eapply Forall_forall).
      assert (c' ≠ c) as Hne by (intros ->; done).
      rewrite (Hlaw i c' Hi). rewrite draws_cons.
      rewrite (Hdraws (take i cs)) by apply subseteq_take.
      unfold draws_for at 1. rewrite (Hsame c' Hin' Hne).
      fold (draws_for g c'). unfold nth_percent. rewrite Hr1. done.
Qed.

(** The stamping of the border leaves the interior as it is. *)
Lemma stamp_rows_interior (xs : list Z) (g g' : Grid) :
  well_formed g → Forall (λ x, 0 ≤ x < GRID_COLS) xs →
  stamp_rows g xs = Some g' →
  ∀ x y, in_grid (x, y) → 0 < y < GRID_ROWS - 1 →
    grid_get g' x y = grid_get g x y.
Proof.
  intros Hwf Hxs. revert g Hwf.
  induction Hxs as [|x0 xs Hx0 Hxs IH]; intros g Hwf; cbn [stamp_rows].
  { by intros [= <-]. }
  destruct (grid_set_in_grid g x0 0 0 Hwf) as (g1 & -> & Hwf1 & Hg1).
  { unfold in_grid, GRID_ROWS. cbn [fst snd]. lia. }
  cbn [mbind option_bind].
  destruct (grid_set_in_grid g1 x0 (GRID_ROWS - 1) 0 Hwf1)
    as (g2 & -> & Hwf2 & Hg2).
  { unfold in_grid, GRID_ROWS. cbn [fst snd]. lia. }
  cbn [mbind option_bind]. intros Hst x y Hin Hy.
  rewrite (IH g2 Hwf2 Hst x y Hin Hy), Hg2, Hg1 by done.
  rewrite !bool_decide_eq_false_2; [done | intros [=]; lia..].
Qed.

Lemma stamp_cols_interior (ys : list Z) (g g' : Grid) :
  well_formed g → Forall (λ y, 0 ≤ y < GRID_ROWS) ys →
  stamp_cols g ys = Some g' →
  ∀ x y, in_grid (x, y) → 0 < x < GRID_COLS - 1 →
    grid_get g' x y = grid_get g x y.
Proof.
  intros Hwf Hys. revert g Hwf.
  induction Hys as [|y0 ys Hy0 Hys IH]; intros g Hwf; cbn [stamp_cols].
  { by intros [= <-]. }
  destruct (grid_set_in_grid g 0 y0 0 Hwf) as (g1 & -> & Hwf1 & Hg1).
  { unfold in_grid, GRID_COLS. cbn [fst snd]. lia. }
  cbn [mbind option_bind].
  destruct (grid_set_in_grid g1 (GRID_COLS - 1) y0 0 Hwf1)
    as (g2 & -> & Hwf2 & Hg2).
  { unfold in_grid, GRID_COLS. cbn [fst snd]. lia. }
  cbn [mbind option_bind]. intros Hst x y Hin Hx.
  rewrite (IH g2 Hwf2 Hst x y Hin Hx), Hg2, Hg1 by done.
  rewrite !bool_decide_eq_false_2; [done | intros [=]; lia..].
Qed.

Lemma interior_cells_NoDup : NoDup interior_cells.
Proof. apply (bool_decide_unpack (NoDup interior_cells)). by vm_compute. Qed.

Lemma interior_cells_inside (c : Cell) :
  c ∈ interior_cells →
  in_grid c ∧ 0 < c.1 < GRID_COLS - 1 ∧ 0 < c.2 < GRID_ROWS - 1.
Proof.
  destruct c as [x y]. intros Hc. unfold interior_cells in Hc.
  apply list_elem_of_bind in Hc as (y' & Hc & Hy).
  apply list_elem_of_bind in Hc as (x' & Hc & Hx).
  apply list_elem_of_singleton in Hc. injection Hc as -> ->.
  apply elem_of_seqZ in Hx, Hy.
  unfold in_grid, GRID_COLS, GRID_ROWS in *. cbn [fst snd]. lia.
Qed.

Lemma extra_block_chance_ramp (L : Z) :
  extra_block_chance L = Z.min 35 (3 + 1 * ((L - 1) / 3)).
Proof. unfold extra_block_chance. lia. Qed.

(** What the post-process and the border make of the carved grid. *)
Lemma generate_maze_post_process (L : Z) (r : Rng) :
  ∃ g1 r1 g r',
    carved r = Some (g1, r1) ∧ generate_maze L r = Some (g, r') ∧
    (∀ (i : nat) c, interior_cells !! i = Some c →
       grid_get g c.1 c.2 =
         if draws_for g1 c &&
            bool_decide (nth_percent r1 (draws g1 (take i interior_cells))
                         ≤ Z.min 35 (3 + 1 * ((L - 1) / 3)))
         then Some 0 else grid_get g1 c.1 c.2) ∧
    (∀ k, r' k = r1 (draws g1 interior_cells + k)%nat).
Proof.
  destruct (carved_tree r) as (g1 & r1 & Hc & _ & _ & _).
  assert (well_formed g1) as Hwf1.
  { unfold carved in Hc.
    destruct (grid_set all_walls 1 1 1) as [g0|] eqn:Hs0; [|done].
    cbn [mbind option_bind] in Hc.
    eapply ci_wf, carve_inv_loop; [by apply carve_inv_init | done]. }
  rewrite generate_maze_carved, Hc. cbn [mbind option_bind].
  destruct (block_cells_law L interior_cells g1 r1 Hwf1 interior_cells_NoDup
              interior_cells_in_grid)
    as (g2 & r2 & -> & Hr2 & Hwf2 & _ & Hlaw).
  cbn [mbind option_bind].
  assert (Forall (λ x, 0 ≤ x < GRID_COLS) (seqZ 0 GRID_COLS)) as Hxs.
  { apply Forall_forall. intros x Hx%elem_of_seqZ. cbv beta. lia. }
  assert (Forall (λ y, 0 ≤ y < GRID_ROWS) (seqZ 0 GRID_ROWS)) as Hys.
  { apply Forall_forall. intros y Hy%elem_of_seqZ. cbv beta. lia. }
  destruct (stamp_rows_spec (seqZ 0 GRID_COLS) g2 Hwf2 Hxs)
    as (g3 & Hg3 & [Hwf3 _] & _).
  rewrite Hg3. cbn [mbind option_bind].
  destruct (stamp_cols_spec (seqZ 0 GRID_ROWS) g3 Hwf3 Hys)
    as (g4 & Hg4 & _ & _).
  rewrite Hg4. cbn [mbind option_bind].
  exists g1, r1, g4, r2. split; [done|]. split; [done|]. split; [|done].
  intros i c Hi.
  destruct (interior_cells_inside c) as (Hin & Hx & Hy);
    [by eapply list_elem_of_lookup_2|].
  destruct c as [x y]. cbn [fst snd] in *.
  rewrite (stamp_cols_interior _ _ _ Hwf3 Hys Hg4 x y Hin Hx).
  rewrite (stamp_rows_interior _ _ _ Hwf2 Hxs Hg3 x y Hin Hy).
  pose proof (Hlaw i (x, y) Hi) as Hl. cbn [fst snd] in Hl. rewrite Hl.
  unfold reblocks. by rewrite extra_block_chance_ramp.
Qed.

(** C8.  On every level [L] from 1 on and for all random choices, the
    post-process of [generate_maze] visits the interior row by row; for
    every free cell other than the spawn and the exit cell it draws the
    next number from 1 to 100, and it turns the cell into a wall exactly
    when the number is at most min(35, 3 + 1 * floor((L-1)/3)); every other
    cell it leaves as the carving has left it, and it draws no number for
    it.  So a free cell is re-blocked on min(35, 3 + floor((L-1)/3)) of the
    hundred outcomes of a draw; this chance does not decrease from [L] to
    [L+3] and never exceeds 35. *)
Theorem generate_maze_reblock_ramp (L : Z) (r : Rng) :
  1 ≤ L →
  ∃ g1 r1 g r',
    carved r = Some (g1, r1) ∧ generate_maze L r = Some (g, r') ∧
    (∀ (i : nat) c, interior_cells !! i = Some c →
       grid_get g c.1 c.2 =
         if draws_for g1 c &&
            bool_decide (nth_percent r1 (draws g1 (take i interior_cells))
                         ≤ Z.min 35 (3 + 1 * ((L - 1) / 3)))
         then Some 0 else grid_get g1 c.1 c.2) ∧
    (∀ k, r' k = r1 (draws g1 interior_cells + k)%nat) ∧
    (∀ k, 1 ≤ nth_percent r1 k ≤ 100) ∧
    reblock_percent L = Z.min 35 (3 + 1 * ((L - 1) / 3)) ∧
    reblock_percent L ≤ reblock_percent (L + 3) ∧
    reblock_percent L ≤ 35.
Proof.
  intros HL.
  destruct (generate_maze_post_process L r)
    as (g1 & r1 & g & r' & Hc & Hg & Hlaw & Hr').
  exists g1, r1, g, r'. split; [done|]. split; [done|]. split; [done|].
  split; [done|]. split.
  { intros k. unfold nth_percent.
    pose proof (Nat.mod_upper_bound (r1 k) 100). lia. }
  destruct (reblock_percent_steps L HL) as (_ & H1 & H2 & H3). done.
Qed.

Lemma generate_maze_reblock_ramp_witness :
  1 ≤ 50 ∧
  ∃ g1 r1 g r',
    carved (rng_mix 3) = Some (g1, r1) ∧
    generate_maze 50 (rng_mix 3) = Some (g, r') ∧
    interior_cells !! 2%nat = Some (3, 1) ∧
    grid_get g 3 1 =
      (if draws_for g1 (3, 1) &&
          bool_decide (nth_percent r1 (draws g1 (take 2 interior_cells))
                       ≤ Z.min 35 (3 + 1 * ((50 - 1) / 3)))
       then Some 0 else grid_get g1 3 1) ∧
    reblock_percent 50 = 19.
Proof.
  assert (1 ≤ 50) as H by lia.
  split; [exact H|].
  destruct (generate_maze_reblock_ramp 50 (rng_mix 3) H)
    as (g1 & r1 & g & r' & Hc & Hg & Hlaw & _ & _ & Hp & _).
  exists g1, r1, g, r'. split; [exact Hc|]. split; [exact Hg|].
  assert (interior_cells !! 2%nat = Some (3, 1)) as Hi by reflexivity.
  split; [exact Hi|]. split; [exact (Hlaw 2%nat (3, 1) Hi) | exact Hp].
Defined.
